(** * LightRAG knowledge-graph management: a shallow embedding

    This development models [lightrag/kg_manage.py]: the three
    state-changing operations [insert_custom_relations], [update_entity]
    and [update_relation], and the finalisation helper [_insert_done].

    Python dictionaries are finite maps ([gmap]); the [rag] object, whose
    stores are mutated in place, is an explicit state threaded through a
    small state-and-exception monad.  Every call made on a store is
    recorded in a log, so that statements about which calls an operation
    makes (and with which arguments) can be phrased on the log. *)

From stdpp Require Import gmap strings list fin_maps pretty.
From Stdlib Require Import Ascii.

Local Open Scope string_scope.
Local Open Scope list_scope.

Set Warnings "-clear-no-such-hyp".

(** ** Python values *)

(** The closed universe of attribute values the operations handle: a
    [str], a [float] (kept as its decimal repr, since the code only stores
    and formats floats and never computes with them), and [None]. *)
Inductive value :=
  | VStr (s : string)
  | VFloat (repr : string)
  | VNone.

#[global] Instance value_eq_dec : EqDecision value.
Proof. solve_decision. Defined.

(** A Python [dict] with string keys. *)
Abbreviation attrs := (gmap string value).

(** ** Strings *)

(** The double-quote character that wraps a normalized name. *)
Definition dquote : string := String (ascii_of_nat 34) EmptyString.

(** [str.upper()], the case mapping of Python strings, which covers all of
    Unicode (it maps é to É, and ß to SS), read on the UTF-8 encoding of
    a string.  It is a builtin of the language and its tables are not
    part of the sources: the development takes it as a parameter, as a
    class so that it need not be passed at every call, and everything
    proved below holds for every such function. *)
Class Upper := upper : string → string.

(** The canonical graph key of a name, as the statements write it: the
    name in upper case, wrapped in double quotes.  The operations do not
    call this function: they build the key themselves, with the f-string
    of the source. *)
Definition normalize `{U : Upper} (name : string) : string :=
  dquote +:+ upper name +:+ dquote.

(** [str(v)], as an f-string field formats a value. *)
Definition py_str (v : value) : string :=
  match v with
  | VStr s => s
  | VFloat repr => repr
  | VNone => "None"
  end.

(** ** Stores and the calls made on them *)

Inductive vdb_id := Ent | Rel.

Inductive store := Vdb (v : vdb_id) | GraphStore.

#[global] Instance vdb_id_eq_dec : EqDecision vdb_id.
Proof. solve_decision. Defined.

#[global] Instance store_eq_dec : EqDecision store.
Proof. solve_decision. Defined.

(** Modelled from the spec: the graph store of [lightrag/base.py] (not part
    of the sources), a key-value graph keyed by node name and by ordered
    name pair, with existence check, get and upsert. *)
Record graph := {
  nodes : gmap string attrs;
  edges : gmap (string * string) attrs;
}.

(** Modelled from the spec: a vector index of [lightrag/base.py], a map from
    key to payload that supports upsert-by-key. *)
Abbreviation vdb := (gmap string attrs).

Inductive call :=
  | HasNode (k : string)
  | GetNode (k : string)
  | UpsertNode (k : string) (d : attrs)
  | HasEdge (s t : string)
  | GetEdge (s t : string)
  | UpsertEdge (s t : string) (d : attrs)
  | Upsert (v : vdb_id) (data : gmap string attrs)
  | IndexDone (s : store).

(** Exceptions the operations can meet: the Python ones raised by the
    code itself, and a fault raised by a store call. *)
Inductive exn :=
  | KeyError (k : string)
  | AttributeError
  | TypeError
  | StoreFault (c : call).

(** The [rag] object: its three stores (each may be [None]), together with
    the behaviour of the environment ([faulty c] holds when the store
    call [c] raises) and the log of the store calls made so far. *)
Record LightRAG := {
  entities_vdb : option vdb;
  relationships_vdb : option vdb;
  chunk_entity_relation_graph : option graph;
  faulty : call -> bool;
  calls : list call;
}.

(** ** The state-and-exception monad *)

Inductive outcome (A : Type) :=
  | Ok (a : A)
  | Raise (e : exn).
Arguments Ok {A} a.
Arguments Raise {A} e.

(** A computation over a state [S]; the state survives an exception, as
    the writes made before a Python exception do. *)
Definition M (S A : Type) : Type := S -> outcome A * S.

Definition ret {S A} (a : A) : M S A := fun s => (Ok a, s).

Definition bind {S A B} (m : M S A) (f : A -> M S B) : M S B :=
  fun s =>
    match m s with
    | (Ok a, s') => f a s'
    | (Raise e, s') => (Raise e, s')
    end.

Definition raise {S A} (e : exn) : M S A := fun s => (Raise e, s).

(** [try: body except Exception as e: handler e]. *)
Definition try_except {S A} (body : M S A) (handler : exn -> M S A) : M S A :=
  fun s =>
    match body s with
    | (Ok a, s') => (Ok a, s')
    | (Raise e, s') => handler e s'
    end.

(** A pure step that may raise. *)
Definition lift_outcome {S A} (o : outcome A) : M S A := fun s => (o, s).

Declare Scope monad_scope.
Delimit Scope monad_scope with monad.
Notation "x <- m ;; k" := (bind m (fun x => k))
  (at level 100, m at next level, right associativity) : monad_scope.
Notation "m ;;; k" := (bind m (fun _ => k))
  (at level 100, right associativity) : monad_scope.
Local Open Scope monad_scope.

(** A function body runs over its local flag [update_storage] and the
    [rag] object. *)
Record frame := {
  update_storage : bool;
  rag : LightRAG;
}.

Definition lift_rag {A} (m : M LightRAG A) : M frame A :=
  fun f =>
    let '(o, r) := m (rag f) in
    (o, {| update_storage := update_storage f; rag := r |}).

Definition set_update_storage (b : bool) : M frame unit :=
  fun f => (Ok tt, {| update_storage := b; rag := rag f |}).

Definition get_update_storage : M frame bool :=
  fun f => (Ok (update_storage f), f).

(** Run a function body with [update_storage = False] on entry. *)
Definition run_frame {A} (m : M frame A) : M LightRAG A :=
  fun r =>
    let '(o, f) := m {| update_storage := false; rag := r |} in
    (o, rag f).

(** ** Store operations

    The store classes of [lightrag/base.py] and their implementations are
    not part of the sources; their methods are modelled from the
    interface the specification gives (section 6): existence check, get
    and upsert on the graph, upsert on a vector index, finalize on each. *)

Definition record_call (c : call) (r : LightRAG) : LightRAG :=
  {| entities_vdb := entities_vdb r;
     relationships_vdb := relationships_vdb r;
     chunk_entity_relation_graph := chunk_entity_relation_graph r;
     faulty := faulty r;
     calls := calls r ++ [c] |}.

Definition set_graph (g : graph) (r : LightRAG) : LightRAG :=
  {| entities_vdb := entities_vdb r;
     relationships_vdb := relationships_vdb r;
     chunk_entity_relation_graph := Some g;
     faulty := faulty r;
     calls := calls r |}.

Definition get_vdb (v : vdb_id) (r : LightRAG) : option vdb :=
  match v with
  | Ent => entities_vdb r
  | Rel => relationships_vdb r
  end.

Definition set_vdb (v : vdb_id) (d : vdb) (r : LightRAG) : LightRAG :=
  {| entities_vdb := match v with Ent => Some d | Rel => entities_vdb r end;
     relationships_vdb := match v with Ent => relationships_vdb r | Rel => Some d end;
     chunk_entity_relation_graph := chunk_entity_relation_graph r;
     faulty := faulty r;
     calls := calls r |}.

(** Modelled from the spec: a method call on
    [rag.chunk_entity_relation_graph] (the graph store class is missing).
    An [AttributeError] when the attribute is [None]; otherwise the call
    is logged and either faults, leaving the store as it was, or runs. *)
Definition graph_call {A} (c : call) (f : graph -> A * graph) : M LightRAG A :=
  fun r =>
    match chunk_entity_relation_graph r with
    | None => (Raise AttributeError, r)
    | Some g =>
        let r' := record_call c r in
        if faulty r c then (Raise (StoreFault c), r')
        else let '(a, g') := f g in (Ok a, set_graph g' r')
    end.

(** Modelled from the spec: [has_node], [get_node] and [upsert_node] of the
    missing graph store; a node is there when its key is bound, and an
    upsert binds the key to the record given. *)
Definition has_node (k : string) : M LightRAG bool :=
  graph_call (HasNode k) (fun g => (bool_decide (is_Some (nodes g !! k)), g)).

Definition get_node (k : string) : M LightRAG (option attrs) :=
  graph_call (GetNode k) (fun g => (nodes g !! k, g)).

Definition upsert_node (k : string) (d : attrs) : M LightRAG unit :=
  graph_call (UpsertNode k d)
    (fun g => (tt, {| nodes := <[k := d]> (nodes g); edges := edges g |})).

(** Modelled from the spec: [has_edge], [get_edge] and [upsert_edge] of the
    missing graph store, on ordered pairs of node keys; an edge write
    creates no node. *)
Definition has_edge (s t : string) : M LightRAG bool :=
  graph_call (HasEdge s t) (fun g => (bool_decide (is_Some (edges g !! (s, t))), g)).

Definition get_edge (s t : string) : M LightRAG (option attrs) :=
  graph_call (GetEdge s t) (fun g => (edges g !! (s, t), g)).

Definition upsert_edge (s t : string) (d : attrs) : M LightRAG unit :=
  graph_call (UpsertEdge s t d)
    (fun g => (tt, {| nodes := nodes g; edges := <[(s, t) := d]> (edges g) |})).

(** Modelled from the spec: [upsert] of the missing vector index; the
    records of [data] overwrite those stored under the same keys. *)
Definition upsert (v : vdb_id) (data : gmap string attrs) : M LightRAG unit :=
  fun r =>
    match get_vdb v r with
    | None => (Raise AttributeError, r)
    | Some d =>
        let r' := record_call (Upsert v data) r in
        if faulty r (Upsert v data) then (Raise (StoreFault (Upsert v data)), r')
        else (Ok tt, set_vdb v (data ∪ d) r')
    end.

(** Modelled from the spec: [index_done_callback] of the missing store
    classes, the finalize step: a flush, which changes no record. *)
Definition index_done_callback (s : store) : M LightRAG unit :=
  fun r =>
    let r' := record_call (IndexDone s) r in
    if faulty r (IndexDone s) then (Raise (StoreFault (IndexDone s)), r')
    else (Ok tt, r').

(** [asyncio.gather] over the tasks: every task runs (here one after the
    other, in the order of the list, where Python interleaves them), and
    the first exception is the one raised. *)
Fixpoint gather (tasks : list (M LightRAG unit)) : M LightRAG unit :=
  match tasks with
  | [] => ret tt
  | t :: ts =>
      fun r =>
        let '(o, r1) := t r in
        let '(os, r2) := gather ts r1 in
        (match o with Raise e => Raise e | Ok _ => os end, r2)
  end.

(** The stores of [rag] that are not [None], in the order [_insert_done]
    lists them. *)
Definition present_stores (r : LightRAG) : list store :=
  (if entities_vdb r is Some _ then [Vdb Ent] else [])
  ++ (if relationships_vdb r is Some _ then [Vdb Rel] else [])
  ++ (if chunk_entity_relation_graph r is Some _ then [GraphStore] else []).

(** [_insert_done]: every store that is not [None] is finalized (the
    message it logs at the end is not modelled). *)
Definition _insert_done : M LightRAG unit :=
  fun r => gather (index_done_callback <$> present_stores r) r.

(** ** Python primitives on values *)

(** [d[k]]: a [KeyError] when the key is missing. *)
Definition getitem (d : attrs) (k : string) : outcome value :=
  match d !! k with
  | Some v => Ok v
  | None => Raise (KeyError k)
  end.

(** [d.get(k, dflt)]. *)
Definition get_default (d : attrs) (k : string) (dflt : value) : value :=
  default dflt (d !! k).

(** The f-string that upper-cases and quotes a name: only a [str] has
    the method [upper]. *)
Definition format_name `{U : Upper} (v : value) : outcome string :=
  match v with
  | VStr s => Ok (dquote +:+ upper s +:+ dquote)
  | _ => Raise AttributeError
  end.

(** [a + b] where one operand is a [str], the only way the code uses it:
    the concatenation when both are, a [TypeError] otherwise. *)
Definition py_add (a b : value) : outcome value :=
  match a, b with
  | VStr x, VStr y => Ok (VStr (x +:+ y))
  | _, _ => Raise TypeError
  end.

Definition obind {A B} (o : outcome A) (f : A -> outcome B) : outcome B :=
  match o with
  | Ok a => f a
  | Raise e => Raise e
  end.

(** [if not d: d = {}], for what a store returned: the fetched record,
    or the empty dict when the store returned [None] (or an empty dict). *)
Definition or_empty (d : option attrs) : attrs := default ∅ d.

(** ** Results *)

(** The dict returned by [update_entity] and [update_relation]. *)
Record update_result := {
  status : string;
  message : string;
  updated_data : option attrs;
}.

(** An entry of the list [added]. *)
Record added_relation := {
  added_src_id : string;
  added_tgt_id : string;
}.

(** An entry of the list [skipped]. *)
Record skipped_relation := {
  skipped_src_id : string;
  skipped_tgt_id : string;
  reason : string;
}.

(** The dict returned by [insert_custom_relations]. *)
Record insert_result := {
  added : list added_relation;
  skipped : list skipped_relation;
  total_added : nat;
  total_skipped : nat;
}.

(** An [edge_data] dict staged in [all_relationships_data]. *)
Record relationship := {
  src_id : string;
  tgt_id : string;
  description : value;
  keywords : value;
}.

(** The three lists the loop of [insert_custom_relations] appends to. *)
Record loop_vars := {
  all_relationships_data : list relationship;
  added_relations : list added_relation;
  skipped_relations : list skipped_relation;
}.

(** A [for] loop over a list, threading the variables it updates. *)
Fixpoint for_each {S A B} (f : B -> A -> M S B) (acc : B) (l : list A) : M S B :=
  match l with
  | [] => ret acc
  | x :: xs => acc' <- f acc x ;; for_each f acc' xs
  end.

(** ** The operations of [kg_manage.py] *)

Section Operations.

Context `{U : Upper}.

(** [compute_mdhash_id content prefix], the helper of [lightrag/utils.py]
    (not part of the sources): the prefixed digest of [content]. *)
Variable compute_mdhash_id : string -> string -> string.

(** What both the success path and the [except] clause of each operation
    do last: [if update_storage: await _insert_done(rag)]. *)
Definition finalize_if_updated : M frame unit :=
  flag <- get_update_storage ;;
  if flag then lift_rag _insert_done else ret tt.

(** [except Exception as e: if update_storage: ...; raise e]. *)
Definition on_exception {A} (e : exn) : M frame A :=
  finalize_if_updated ;;; raise e.

(** *** [insert_custom_relations] *)

(** The text of [reason] for a skipped item. *)
Definition skip_reason (src_exists : bool) : string :=
  (if negb src_exists then "源" else "目标") +:+ "实体不存在".

(** One iteration of the loop over [relations_data]. *)
Definition insert_relation (vars : loop_vars) (relationship_data : attrs)
  : M frame loop_vars :=
  src <- lift_outcome (obind (getitem relationship_data "src_id") format_name) ;;
  tgt <- lift_outcome (obind (getitem relationship_data "tgt_id") format_name) ;;
  descr <- lift_outcome (getitem relationship_data "description") ;;
  kw <- lift_outcome (getitem relationship_data "keywords") ;;
  let weight := get_default relationship_data "weight" (VFloat "1.0") in
  let source_id := get_default relationship_data "source_id" (VStr "CUSTOM_RELATION") in
  src_exists <- lift_rag (has_node src) ;;
  tgt_exists <- lift_rag (has_node tgt) ;;
  if negb src_exists || negb tgt_exists then
    ret {| all_relationships_data := all_relationships_data vars;
           added_relations := added_relations vars;
           skipped_relations :=
             skipped_relations vars
             ++ [{| skipped_src_id := src; skipped_tgt_id := tgt;
                    reason := skip_reason src_exists |}] |}
  else
    lift_rag (upsert_edge src tgt
                (<["weight" := weight]>
                   (<["description" := descr]>
                      (<["keywords" := kw]>
                         ({["source_id" := source_id]} : attrs))))) ;;;
    set_update_storage true ;;;
    ret {| all_relationships_data :=
             all_relationships_data vars
             ++ [{| src_id := src; tgt_id := tgt;
                    description := descr; keywords := kw |}];
           added_relations :=
             added_relations vars
             ++ [{| added_src_id := src; added_tgt_id := tgt |}];
           skipped_relations := skipped_relations vars |}.

(** The [content] of a relation's vector record:
    [keywords + src_id + tgt_id + description]. *)
Definition relation_content (kw : value) (src tgt : string) (descr : value)
  : outcome value :=
  obind (py_add kw (VStr src)) (fun a =>
  obind (py_add a (VStr tgt)) (fun b =>
  py_add b descr)).

(** The vector record of a relation. *)
Definition relation_record (src tgt : string) (content : value) : attrs :=
  <["src_id" := VStr src]>
    (<["tgt_id" := VStr tgt]> ({["content" := content]} : attrs)).

(** The dict comprehension that builds [data_for_vdb]: the staged
    relations are visited in order, a later one overwriting an earlier
    one that has the same key. *)
Fixpoint data_for_vdb (dps : list relationship) (acc : gmap string attrs)
  : outcome (gmap string attrs) :=
  match dps with
  | [] => Ok acc
  | dp :: dps' =>
      let key := compute_mdhash_id (src_id dp +:+ tgt_id dp) "rel-" in
      obind (relation_content (keywords dp) (src_id dp) (tgt_id dp) (description dp))
        (fun content =>
           data_for_vdb dps'
             (<[key := relation_record (src_id dp) (tgt_id dp) content]> acc))
  end.

Definition no_vars : loop_vars :=
  {| all_relationships_data := []; added_relations := []; skipped_relations := [] |}.

Definition insert_custom_relations_body (relations_data : list attrs)
  : M frame insert_result :=
  vars <- for_each insert_relation no_vars relations_data ;;
  (match all_relationships_data vars with
   | [] => ret tt
   | _ :: _ =>
       data <- lift_outcome (data_for_vdb (all_relationships_data vars) ∅) ;;
       lift_rag (upsert Rel data)
   end) ;;;
  let result :=
    {| added := added_relations vars;
       skipped := skipped_relations vars;
       total_added := length (added_relations vars);
       total_skipped := length (skipped_relations vars) |} in
  finalize_if_updated ;;;
  ret result.

Definition insert_custom_relations (relations_data : list attrs)
  : M LightRAG insert_result :=
  run_frame (try_except (insert_custom_relations_body relations_data) on_exception).

(** *** [update_entity] *)

(** The vector record of an entity. *)
Definition entity_record (entity_name entity_content : string) : attrs :=
  <["content" := VStr entity_content]>
    ({["entity_name" := VStr entity_name]} : attrs).

Definition update_entity_body (entity_name : string) (entity_data : attrs)
  : M frame update_result :=
  entity_exists <- lift_rag (has_node entity_name) ;;
  if negb entity_exists then
    ret {| status := "failed";
           message := "实体 '" +:+ entity_name +:+ "' 不存在";
           updated_data := None |}
  else
    fetched <- lift_rag (get_node entity_name) ;;
    let current_node_data := or_empty fetched in
    let updated_node_data := entity_data ∪ current_node_data in
    lift_rag (upsert_node entity_name updated_node_data) ;;;
    let entity_id := compute_mdhash_id entity_name "ent-" in
    let entity_content :=
      entity_name +:+ py_str (get_default updated_node_data "description" (VStr "")) in
    lift_rag (upsert Ent {[ entity_id := entity_record entity_name entity_content ]}) ;;;
    set_update_storage true ;;;
    let result :=
      {| status := "success";
         message := "实体 '" +:+ entity_name +:+ "' 已成功更新";
         updated_data := Some updated_node_data |} in
    finalize_if_updated ;;;
    ret result.

Definition update_entity (entity_name : string) (entity_data : attrs)
  : M LightRAG update_result :=
  run_frame (try_except (update_entity_body entity_name entity_data) on_exception).

(** *** [update_relation] *)

(** The overlay of the incoming attributes on the current ones, with
    [source_id] set again from the current edge when the edge has one
    and the update does not. *)
Definition merge_edge_data (current_edge_data relation_data : attrs) : attrs :=
  let updated_edge_data := relation_data ∪ current_edge_data in
  match current_edge_data !! "source_id", relation_data !! "source_id" with
  | Some s, None => <["source_id" := s]> updated_edge_data
  | _, _ => updated_edge_data
  end.

Definition update_relation_body (src_entity tgt_entity : string) (relation_data : attrs)
  : M frame update_result :=
  let formatted_src_entity := dquote +:+ upper src_entity +:+ dquote in
  let formatted_tgt_entity := dquote +:+ upper tgt_entity +:+ dquote in
  src_exists <- lift_rag (has_node formatted_src_entity) ;;
  tgt_exists <- lift_rag (has_node formatted_tgt_entity) ;;
  if negb src_exists then
    ret {| status := "failed";
           message := "源实体 '" +:+ src_entity +:+ "' 不存在";
           updated_data := None |}
  else if negb tgt_exists then
    ret {| status := "failed";
           message := "目标实体 '" +:+ tgt_entity +:+ "' 不存在";
           updated_data := None |}
  else
    edge_exists <- lift_rag (has_edge formatted_src_entity formatted_tgt_entity) ;;
    if negb edge_exists then
      ret {| status := "failed";
             message := "从 '" +:+ src_entity +:+ "' 到 '" +:+ tgt_entity
                        +:+ "' 的关系不存在";
             updated_data := None |}
    else
      fetched <- lift_rag (get_edge formatted_src_entity formatted_tgt_entity) ;;
      let current_edge_data := or_empty fetched in
      let updated_edge_data := merge_edge_data current_edge_data relation_data in
      lift_rag (upsert_edge formatted_src_entity formatted_tgt_entity updated_edge_data) ;;;
      let rel_id :=
        compute_mdhash_id (formatted_src_entity +:+ formatted_tgt_entity) "rel-" in
      let kw := get_default updated_edge_data "keywords" (VStr "") in
      let descr := get_default updated_edge_data "description" (VStr "") in
      content <- lift_outcome
        (relation_content kw formatted_src_entity formatted_tgt_entity descr) ;;
      lift_rag (upsert Rel
        {[ rel_id := relation_record formatted_src_entity formatted_tgt_entity content ]}) ;;;
      set_update_storage true ;;;
      let result :=
        {| status := "success";
           message := "从 '" +:+ src_entity +:+ "' 到 '" +:+ tgt_entity
                      +:+ "' 的关系已成功更新";
           updated_data := Some updated_edge_data |} in
      finalize_if_updated ;;;
      ret result.

Definition update_relation (src_entity tgt_entity : string) (relation_data : attrs)
  : M LightRAG update_result :=
  run_frame
    (try_except (update_relation_body src_entity tgt_entity relation_data) on_exception).

End Operations.

(** * Descriptions used in the statements

    What follows describes runs of the operations above: what a log
    holds, what the loop of a batch does with an item, which state an
    operation that completes leaves.  The lemmas of the second part relate
    these descriptions to the operations. *)

(** ** Reading the call log *)

(** [log_calls l r]: the object [r] after the calls [l] were logged. *)
Definition log_calls (l : list call) (r : LightRAG) : LightRAG :=
  {| entities_vdb := entities_vdb r;
     relationships_vdb := relationships_vdb r;
     chunk_entity_relation_graph := chunk_entity_relation_graph r;
     faulty := faulty r;
     calls := calls r ++ l |}.

(** The calls logged between the state [r] and the later state [r']. *)
Definition new_calls (r r' : LightRAG) : list call :=
  drop (length (calls r)) (calls r').

(** A call that writes a record to a store. *)
Definition is_write (c : call) : bool :=
  match c with
  | UpsertNode _ _ | UpsertEdge _ _ _ | Upsert _ _ => true
  | _ => false
  end.

(** A log in which at least one call writes. *)
Definition made_write (l : list call) : bool := existsb is_write l.

(** The stores on which a finalize call appears in a log, in order. *)
Definition finalized (l : list call) : list store :=
  omap (fun c => match c with IndexDone s => Some s | _ => None end) l.

(** The upserts to a vector index that appear in a log, in order. *)
Definition vdb_upserts (l : list call) : list (vdb_id * gmap string attrs) :=
  omap (fun c => match c with Upsert v data => Some (v, data) | _ => None end) l.

(** The node keys and edge key pairs the graph calls of a log address. *)
Definition graph_keys (c : call) : list string :=
  match c with
  | HasNode k | GetNode k | UpsertNode k _ => [k]
  | HasEdge s t | GetEdge s t | UpsertEdge s t _ => [s; t]
  | _ => []
  end.

(** The stores a call writes to. *)
Definition written_store (c : call) : option store :=
  match c with
  | UpsertNode _ _ | UpsertEdge _ _ _ => Some GraphStore
  | Upsert v _ => Some (Vdb v)
  | _ => None
  end.

(** The nodes and the edges of the graph store (none when it is [None]). *)
Definition graph_nodes (r : LightRAG) : gmap string attrs :=
  match chunk_entity_relation_graph r with
  | Some g => nodes g
  | None => ∅
  end.

Definition graph_edges (r : LightRAG) : gmap (string * string) attrs :=
  match chunk_entity_relation_graph r with
  | Some g => edges g
  | None => ∅
  end.

(** ** The loop of [insert_custom_relations], item by item *)

(** What the loop does with one item, given the nodes of the graph: it
    stages a relation and writes its edge, or it skips the item. *)
Inductive verdict :=
  | Accepted (dp : relationship) (edge_data : attrs)
  | Rejected (sk : skipped_relation).

(** The verdict on an item, read off the body of the loop: [None] for an
    item on which the loop raises before any store call (a field is
    missing, a name is not a string).  The lemmas [insert_relation_ok]
    and [insert_relation_runs] relate it to [insert_relation]. *)
Definition judge `{U : Upper} (ns : gmap string attrs) (item : attrs) : option verdict :=
  match item !! "src_id", item !! "tgt_id", item !! "description", item !! "keywords" with
  | Some (VStr a), Some (VStr b), Some descr, Some kw =>
      let src_exists := bool_decide (is_Some (ns !! normalize a)) in
      let tgt_exists := bool_decide (is_Some (ns !! normalize b)) in
      if src_exists && tgt_exists then
        Some (Accepted
                {| src_id := normalize a; tgt_id := normalize b;
                   description := descr; keywords := kw |}
                (<["weight" := get_default item "weight" (VFloat "1.0")]>
                   (<["description" := descr]>
                      (<["keywords" := kw]>
                         ({["source_id" :=
                              get_default item "source_id" (VStr "CUSTOM_RELATION")]}
                          : attrs)))))
      else
        Some (Rejected
                {| skipped_src_id := normalize a; skipped_tgt_id := normalize b;
                   reason := skip_reason src_exists |})
  | _, _, _, _ => None
  end.

(** The relations the loop stages, the entries it adds and skips, the
    store calls it makes and the edges it leaves, over a list of items. *)
Definition staged_of `{U : Upper}
    (ns : gmap string attrs) (items : list attrs) : list relationship :=
  omap (fun item =>
          match judge ns item with
          | Some (Accepted dp _) => Some dp
          | _ => None
          end) items.

Definition added_entry (dp : relationship) : added_relation :=
  {| added_src_id := src_id dp; added_tgt_id := tgt_id dp |}.

Definition added_of `{U : Upper}
    (ns : gmap string attrs) (items : list attrs) : list added_relation :=
  added_entry <$> staged_of ns items.

Definition skipped_of `{U : Upper}
    (ns : gmap string attrs) (items : list attrs) : list skipped_relation :=
  omap (fun item =>
          match judge ns item with
          | Some (Rejected sk) => Some sk
          | _ => None
          end) items.

Definition item_calls `{U : Upper} (ns : gmap string attrs) (item : attrs) : list call :=
  match judge ns item with
  | Some (Accepted dp edge_data) =>
      [HasNode (src_id dp); HasNode (tgt_id dp);
       UpsertEdge (src_id dp) (tgt_id dp) edge_data]
  | Some (Rejected sk) => [HasNode (skipped_src_id sk); HasNode (skipped_tgt_id sk)]
  | None => []
  end.

Definition write_edge `{U : Upper} (ns : gmap string attrs)
    (es : gmap (string * string) attrs) (item : attrs) : gmap (string * string) attrs :=
  match judge ns item with
  | Some (Accepted dp edge_data) => <[(src_id dp, tgt_id dp) := edge_data]> es
  | _ => es
  end.

Definition edges_after `{U : Upper} (ns : gmap string attrs) (items : list attrs)
    (es : gmap (string * string) attrs) : gmap (string * string) attrs :=
  foldl (write_edge ns) es items.

(** The [rag] object after the loop ran over [items]. *)
Definition after_loop `{U : Upper}
    (ns : gmap string attrs) (items : list attrs) (r : LightRAG) : LightRAG :=
  {| entities_vdb := entities_vdb r;
     relationships_vdb := relationships_vdb r;
     chunk_entity_relation_graph :=
       (fun g => {| nodes := nodes g; edges := edges_after ns items (edges g) |})
         <$> chunk_entity_relation_graph r;
     faulty := faulty r;
     calls := calls r ++ concat (item_calls ns <$> items) |}.

(** The three lists, the flag and the [rag] object after the loop. *)
Definition vars_after `{U : Upper}
    (ns : gmap string attrs) (items : list attrs) (vars : loop_vars)
  : loop_vars :=
  {| all_relationships_data := all_relationships_data vars ++ staged_of ns items;
     added_relations := added_relations vars ++ added_of ns items;
     skipped_relations := skipped_relations vars ++ skipped_of ns items |}.

Definition nonempty {A} (l : list A) : bool :=
  match l with
  | [] => false
  | _ :: _ => true
  end.

Definition frame_after `{U : Upper}
    (ns : gmap string attrs) (items : list attrs) (f : frame) : frame :=
  {| update_storage := update_storage f || nonempty (staged_of ns items);
     rag := after_loop ns items (rag f) |}.

(** An item the loop completes on: the graph is there, the item has its
    four fields with names that are strings, and none of its store calls
    faults. *)
Definition item_runs `{U : Upper} (r : LightRAG) (item : attrs) : Prop :=
  is_Some (chunk_entity_relation_graph r)
  ∧ is_Some (judge (graph_nodes r) item)
  ∧ Forall (fun c => faulty r c = false) (item_calls (graph_nodes r) item).

(** The object left by a batch that staged the records [data]: the loop
    ran, the records were upserted in one call, every store was
    finalized. *)
Definition after_batch `{U : Upper} (ns : gmap string attrs) (items : list attrs)
    (data rv : gmap string attrs) (r : LightRAG) : LightRAG :=
  log_calls (IndexDone <$> present_stores r)
    (set_vdb Rel (data ∪ rv) (log_calls [Upsert Rel data] (after_loop ns items r))).

(** The dict a batch returns. *)
Definition batch_result `{U : Upper}
    (ns : gmap string attrs) (items : list attrs) : insert_result :=
  {| added := added_of ns items;
     skipped := skipped_of ns items;
     total_added := length (added_of ns items);
     total_skipped := length (skipped_of ns items) |}.

(** What it takes for the steps after the loop to complete, when the
    loop staged records: their contents are strings, the relation index
    is there, and neither its upsert nor a finalize call faults. *)
Definition staged_runs (h : string → string → string) (staged : list relationship)
    (data rv : gmap string attrs) (r : LightRAG) : Prop :=
  data_for_vdb h staged ∅ = Ok data
  ∧ relationships_vdb r = Some rv
  ∧ faulty r (Upsert Rel data) = false
  ∧ Forall (fun s => faulty r (IndexDone s) = false) (present_stores r).

(** ** The two merge-updates *)

(** The merged record [update_entity] computes. *)
Definition merged_node_data (name : string) (data : attrs) (r : LightRAG) : attrs :=
  data ∪ or_empty (graph_nodes r !! name).

(** The payload of its vector upsert. *)
Definition entity_upsert (h : string → string → string) (name : string)
    (updated : attrs) : gmap string attrs :=
  {[ h name "ent-" :=
       entity_record name
         (name +:+ py_str (get_default updated "description" (VStr ""))) ]}.

(** The store calls of a complete entity merge-update, in order; the
    finalisation stands twice, since the [except] clause runs it again
    when the one of the success path raises. *)
Definition update_entity_script (h : string → string → string) (name : string)
    (data : attrs) (r : LightRAG) : list call :=
  let updated := merged_node_data name data r in
  [HasNode name; GetNode name; UpsertNode name updated;
   Upsert Ent (entity_upsert h name updated)]
  ++ (IndexDone <$> present_stores r) ++ (IndexDone <$> present_stores r).

(** The merged record [update_relation] computes. *)
Definition merged_edge_data `{U : Upper}
    (src tgt : string) (data : attrs) (r : LightRAG) : attrs :=
  merge_edge_data (or_empty (graph_edges r !! (normalize src, normalize tgt))) data.

(** The payload of its vector upsert, given the content. *)
Definition relation_upsert `{U : Upper} (h : string → string → string) (src tgt : string)
    (content : value) : gmap string attrs :=
  {[ h (normalize src +:+ normalize tgt) "rel-" :=
       relation_record (normalize src) (normalize tgt) content ]}.

(** The content of its vector record, a [TypeError] when the keywords or
    the description of the merged record are not strings. *)
Definition merged_edge_content `{U : Upper}
    (src tgt : string) (updated : attrs) : outcome value :=
  relation_content (get_default updated "keywords" (VStr ""))
    (normalize src) (normalize tgt)
    (get_default updated "description" (VStr "")).

(** The store calls of a complete relation merge-update, in order. *)
Definition update_relation_script `{U : Upper}
    (h : string → string → string) (src tgt : string)
    (data : attrs) (r : LightRAG) : list call :=
  let updated := merged_edge_data src tgt data r in
  [HasNode (normalize src); HasNode (normalize tgt);
   HasEdge (normalize src) (normalize tgt); GetEdge (normalize src) (normalize tgt);
   UpsertEdge (normalize src) (normalize tgt) updated]
  ++ match merged_edge_content src tgt updated with
     | Ok content =>
         [Upsert Rel (relation_upsert h src tgt content)]
         ++ (IndexDone <$> present_stores r) ++ (IndexDone <$> present_stores r)
     | Raise _ => []
     end.

(** The object left by an entity merge-update that succeeded. *)
Definition after_update_entity (h : string → string → string) (name : string)
    (data : attrs) (r : LightRAG) : LightRAG :=
  let updated := merged_node_data name data r in
  {| entities_vdb := (fun ev => entity_upsert h name updated ∪ ev) <$> entities_vdb r;
     relationships_vdb := relationships_vdb r;
     chunk_entity_relation_graph :=
       (fun g => {| nodes := <[name := updated]> (nodes g); edges := edges g |})
         <$> chunk_entity_relation_graph r;
     faulty := faulty r;
     calls := calls r
              ++ [HasNode name; GetNode name; UpsertNode name updated;
                  Upsert Ent (entity_upsert h name updated)]
              ++ (IndexDone <$> present_stores r) |}.

(** The object left by a relation merge-update that succeeded. *)
Definition after_update_relation `{U : Upper}
    (h : string → string → string) (src tgt : string)
    (data : attrs) (content : value) (r : LightRAG) : LightRAG :=
  let updated := merged_edge_data src tgt data r in
  {| entities_vdb := entities_vdb r;
     relationships_vdb :=
       (fun rv => relation_upsert h src tgt content ∪ rv) <$> relationships_vdb r;
     chunk_entity_relation_graph :=
       (fun g => {| nodes := nodes g;
                    edges := <[(normalize src, normalize tgt) := updated]> (edges g) |})
         <$> chunk_entity_relation_graph r;
     faulty := faulty r;
     calls := calls r
              ++ [HasNode (normalize src); HasNode (normalize tgt);
                  HasEdge (normalize src) (normalize tgt);
                  GetEdge (normalize src) (normalize tgt);
                  UpsertEdge (normalize src) (normalize tgt) updated;
                  Upsert Rel (relation_upsert h src tgt content)]
              ++ (IndexDone <$> present_stores r) |}.

(** The dicts the two merge-updates return. *)
Definition entity_not_found (name : string) : update_result :=
  {| status := "failed";
     message := "实体 '" +:+ name +:+ "' 不存在";
     updated_data := None |}.

Definition entity_updated (name : string) (updated : attrs) : update_result :=
  {| status := "success";
     message := "实体 '" +:+ name +:+ "' 已成功更新";
     updated_data := Some updated |}.

Definition source_not_found (src : string) : update_result :=
  {| status := "failed";
     message := "源实体 '" +:+ src +:+ "' 不存在";
     updated_data := None |}.

Definition target_not_found (tgt : string) : update_result :=
  {| status := "failed";
     message := "目标实体 '" +:+ tgt +:+ "' 不存在";
     updated_data := None |}.

Definition relation_not_found (src tgt : string) : update_result :=
  {| status := "failed";
     message := "从 '" +:+ src +:+ "' 到 '" +:+ tgt +:+ "' 的关系不存在";
     updated_data := None |}.

Definition relation_updated (src tgt : string) (updated : attrs) : update_result :=
  {| status := "success";
     message := "从 '" +:+ src +:+ "' 到 '" +:+ tgt +:+ "' 的关系已成功更新";
     updated_data := Some updated |}.

(** The existence checks of a relation merge-update. *)
Definition relation_checks `{U : Upper} (src tgt : string) : list call :=
  [HasNode (normalize src); HasNode (normalize tgt);
   HasEdge (normalize src) (normalize tgt)].

(** ** Concrete objects, on which the operations are evaluated *)

(** A digest stand-in for the evaluations below: the prefix followed by
    the content itself, so that distinct contents get distinct keys. *)
Definition plain_id (content pre : string) : string := pre +:+ content.

(** A name in double quotes. *)
Definition quoted (s : string) : string := dquote +:+ s +:+ dquote.

(** A graph with the nodes PARIS (under its plain name), A and B (under
    their canonical names, the letter in upper case between double
    quotes) and the edge from A to B. *)
Definition demo_graph : graph :=
  {| nodes :=
       <["PARIS" := {["description" := VStr "capital of France"]}]>
         (<[quoted "A" := {["entity_type" := VStr "LETTER"]}]>
            (<[quoted "B" := ∅]> ∅));
     edges :=
       {[ (quoted "A", quoted "B") :=
            <["description" := VStr "first"]>
              (<["keywords" := VStr "order"]>
                 ({["source_id" := VStr "chunk-1"]} : attrs)) ]} |}.

(** No store call faults. *)
Definition no_fault (c : call) : bool := false.

(** A store fault on every upsert to the entity vector index. *)
Definition entity_index_down (c : call) : bool :=
  match c with
  | Upsert Ent _ => true
  | _ => false
  end.

(** A store fault on every upsert to the relation vector index. *)
Definition relation_index_down (c : call) : bool :=
  match c with
  | Upsert Rel _ => true
  | _ => false
  end.

(** The demo graph with two empty vector indexes, with and without the
    fault. *)
Definition demo_rag : LightRAG :=
  {| entities_vdb := Some ∅;
     relationships_vdb := Some ∅;
     chunk_entity_relation_graph := Some demo_graph;
     faulty := no_fault;
     calls := [] |}.

Definition faulty_rag : LightRAG :=
  {| entities_vdb := Some ∅;
     relationships_vdb := Some ∅;
     chunk_entity_relation_graph := Some demo_graph;
     faulty := entity_index_down;
     calls := [] |}.

Definition faulty_relation_rag : LightRAG :=
  {| entities_vdb := Some ∅;
     relationships_vdb := Some ∅;
     chunk_entity_relation_graph := Some demo_graph;
     faulty := relation_index_down;
     calls := [] |}.

(** An item of [relations_data] with its four required fields. *)
Definition relation_item (src tgt descr kw : string) : attrs :=
  <["src_id" := VStr src]>
    (<["tgt_id" := VStr tgt]>
       (<["description" := VStr descr]>
          ({["keywords" := VStr kw]} : attrs))).

(** The batch of the scenario: a relation between the existing A and B,
    and one from A to C, which does not exist. *)
Definition demo_batch : list attrs :=
  [relation_item "a" "b" "follows" "order"; relation_item "a" "c" "precedes" "order"].

(** ** Predicates of the statements *)

(** What the code does at the end of an operation [m] that returns
    normally after at least one write: the log of the operation ends with
    one finalize call on each store of [rag] that is not [None], in the
    order entity index, relation index, graph, and holds no other
    finalize call. *)
Definition finalizes_every_store {A} (m : M LightRAG A) : Prop :=
  ∀ r a r',
    m r = (Ok a, r') →
    made_write (new_calls r r') = true →
    ∃ pre,
      new_calls r r' = pre ++ (IndexDone <$> present_stores r)
      ∧ finalized pre = []
      ∧ finalized (new_calls r r') = present_stores r.

(** [partitioned items added skipped]: the two lists are obtained from
    the items, in order, each item giving one entry to one of the lists,
    an entry that carries the canonical forms of the names of the item. *)
Inductive partitioned `{U : Upper}
    : list attrs → list added_relation → list skipped_relation → Prop :=
  | partitioned_nil : partitioned [] [] []
  | partitioned_added item a b items ad sk :
      item !! "src_id" = Some (VStr a) →
      item !! "tgt_id" = Some (VStr b) →
      partitioned items ad sk →
      partitioned (item :: items)
        ({| added_src_id := normalize a; added_tgt_id := normalize b |} :: ad) sk
  | partitioned_skipped item a b why items ad sk :
      item !! "src_id" = Some (VStr a) →
      item !! "tgt_id" = Some (VStr b) →
      partitioned items ad sk →
      partitioned (item :: items) ad
        ({| skipped_src_id := normalize a; skipped_tgt_id := normalize b;
            reason := why |} :: sk).

(** A call the loop of a batch makes: an existence check or an edge write
    under the canonical names of an item. *)
Inductive loop_call `{U : Upper} (items : list attrs) : call → Prop :=
  | loop_has_node item a :
      item ∈ items →
      item !! "src_id" = Some (VStr a) ∨ item !! "tgt_id" = Some (VStr a) →
      loop_call items (HasNode (normalize a))
  | loop_upsert_edge item a b d :
      item ∈ items →
      item !! "src_id" = Some (VStr a) →
      item !! "tgt_id" = Some (VStr b) →
      loop_call items (UpsertEdge (normalize a) (normalize b) d).

(** A call a batch makes after its loop: the upsert of the records of the
    staged relations, or a finalize call. *)
Inductive tail_call `{U : Upper}
    (h : string → string → string) (items : list attrs) (r : LightRAG)
  : call → Prop :=
  | tail_upsert data :
      data_for_vdb h (staged_of (graph_nodes r) items) ∅ = Ok data →
      tail_call h items r (Upsert Rel data)
  | tail_index_done s : tail_call h items r (IndexDone s).

(** The key of a relation record: the prefixed digest of src_id + tgt_id. *)
Definition relation_key (h : string → string → string) (src tgt : string) : string :=
  h (src +:+ tgt) "rel-".

(** The key the specification words for an entity record: the prefixed
    digest of name + description. *)
Definition content_key (h : string → string → string) (name descr : string) : string :=
  h (name +:+ descr) "ent-".

(** * Further runs, and the callers

    The rest of this part serves the further properties of the three
    operations, and embeds the code around them: the handlers of
    [api/routers/kg_routes.py], which call them, and the authorization
    check of [api/routers/dify_routes.py]. *)

(** ** Descriptions for the further properties of the operations *)

(** [isinstance(v, str)]. *)
Definition is_str (v : value) : bool :=
  match v with
  | VStr _ => true
  | _ => false
  end.

(** The calls of a relation merge-update up to and including its edge
    write. *)
Definition update_relation_writes `{U : Upper}
    (src tgt : string) (updated : attrs) : list call :=
  [HasNode (normalize src); HasNode (normalize tgt);
   HasEdge (normalize src) (normalize tgt); GetEdge (normalize src) (normalize tgt);
   UpsertEdge (normalize src) (normalize tgt) updated].

(** The exception the loop of a batch raises on an item before any store
    call: a [KeyError] for the first required field that is missing, an
    [AttributeError] for a name that is not a string; [None] for an item
    that has its four fields. *)
Definition item_error (item : attrs) : option exn :=
  match item !! "src_id" with
  | None => Some (KeyError "src_id")
  | Some (VStr _) =>
      match item !! "tgt_id" with
      | None => Some (KeyError "tgt_id")
      | Some (VStr _) =>
          match item !! "description" with
          | None => Some (KeyError "description")
          | Some _ =>
              match item !! "keywords" with
              | None => Some (KeyError "keywords")
              | Some _ => None
              end
          end
      | Some _ => Some AttributeError
      end
  | Some _ => Some AttributeError
  end.

(** [r'] has the nodes and the entity index of [r], and differs in its
    edges only between nodes of [r]. *)
Definition adds_edges_only (r r' : LightRAG) : Prop :=
  graph_nodes r' = graph_nodes r
  ∧ entities_vdb r' = entities_vdb r
  ∧ ∀ s t, graph_edges r' !! (s, t) ≠ graph_edges r !! (s, t) →
           is_Some (graph_nodes r !! s) ∧ is_Some (graph_nodes r !! t).

(** The dict an empty batch returns. *)
Definition nothing_inserted : insert_result :=
  {| added := []; skipped := []; total_added := 0; total_skipped := 0 |}.

(** Two outcomes that agree up to the message of the result. *)
Definition same_update (o o' : outcome update_result) : Prop :=
  match o, o' with
  | Ok res, Ok res' => status res = status res' ∧ updated_data res = updated_data res'
  | Raise e, Raise e' => e = e'
  | _, _ => False
  end.

(** The record of the edge from A to B in the demo graph. *)
Definition demo_edge : attrs :=
  <["description" := VStr "first"]>
    (<["keywords" := VStr "order"]>
       ({["source_id" := VStr "chunk-1"]} : attrs)).

(** An item that lacks its target. *)
Definition item_without_target : attrs := {["src_id" := VStr "a"]}.

(** The demo object without its graph store. *)
Definition graphless_rag : LightRAG :=
  {| entities_vdb := Some ∅;
     relationships_vdb := Some ∅;
     chunk_entity_relation_graph := None;
     faulty := no_fault;
     calls := [] |}.

(** * Python strings

    Strings are byte strings here, in UTF-8 where Python has code points;
    the functions below are used with ASCII arguments, for which the two
    readings agree. *)

(** [s.startswith(p)] and [s.endswith(p)]. *)
Definition startswith (s p : string) : bool := String.prefix p s.

Fixpoint endswith (s p : string) : bool :=
  String.eqb s p
  || match s with
     | EmptyString => false
     | String _ s' => endswith s' p
     end.

(** [old in s], for strings. *)
Fixpoint substring_of (old s : string) : bool :=
  String.prefix old s
  || match s with
     | EmptyString => false
     | String _ s' => substring_of old s'
     end.

(** [s.replace(old, new)] for an [old] that is not empty: the
    occurrences of [old] are found from left to right, without overlap;
    [skip] counts the characters of an occurrence still to be dropped. *)
Fixpoint replace_from (old new : string) (skip : nat) (s : string) : string :=
  match s with
  | EmptyString => EmptyString
  | String c s' =>
      match skip with
      | S n => replace_from old new n s'
      | O =>
          if String.prefix old s
          then new +:+ replace_from old new (String.length old - 1) s'
          else String c (replace_from old new O s')
      end
  end.

Definition replace (s old new : string) : string := replace_from old new 0 s.

(** [s.split(sep)] for a separator of one character. *)
Fixpoint split (s : string) (sep : ascii) : list string :=
  match s with
  | EmptyString => [EmptyString]
  | String c s' =>
      if Ascii.eqb c sep then EmptyString :: split s' sep
      else match split s' sep with
           | part :: parts => String c part :: parts
           | [] => [String c EmptyString]
           end
  end.

(** * The routes of [api/routers/kg_routes.py]

    The handlers that [create_kg_routes] registers.  A handler runs a
    [try] block over the [rag] object and answers with the body it
    returns or with the [HTTPException] it raises.  The methods of [rag]
    it awaits belong to the class [LightRAG], which is not part of the
    sources: they are parameters of the handlers, as are [unquote] of
    [urllib.parse], the conversions [str] and [float], and the type of the
    JSON values a handler only passes on.  The calls to [logger] are not
    modelled. *)
Module kg_routes.

(** The exceptions of the builtin [float]: a [TypeError] or a
    [ValueError] for a value that is not a number, an [OverflowError] for
    an integer that is too large for a float. *)
Inductive float_exn :=
  | float_TypeError
  | float_ValueError
  | float_OverflowError.

(** What a [try] block of a handler raises: an [HTTPException] of the
    handler itself, an exception of a method of [rag], or an exception
    of [float]. *)
Inductive raised :=
  | HTTPException (status_code : nat) (detail : string)
  | Exception (e : exn)
  | BuiltinException (e : float_exn).

Inductive reply (A : Type) :=
  | Return (body : A)
  | Fail (x : raised).
Arguments Return {A} body.
Arguments Fail {A} x.

(** A handler, or a part of one, over the [rag] object. *)
Definition R (A : Type) : Type := LightRAG → reply A * LightRAG.

Definition r_ret {A} (a : A) : R A := fun r => (Return a, r).

Definition r_raise {A} (x : raised) : R A := fun r => (Fail x, r).

Definition r_bind {A B} (m : R A) (f : A → R B) : R B :=
  fun r =>
    match m r with
    | (Return a, r') => f a r'
    | (Fail x, r') => (Fail x, r')
    end.

(** [try: body except ...: handler]. *)
Definition r_try {A} (body : R A) (handler : raised → R A) : R A :=
  fun r =>
    match body r with
    | (Return a, r') => (Return a, r')
    | (Fail x, r') => handler x r'
    end.

(** [await rag.method(...)]: what the method raises is an exception of
    the handler. *)
Definition await {A} (m : M LightRAG A) : R A :=
  fun r =>
    match m r with
    | (Ok a, r') => (Return a, r')
    | (Raise e, r') => (Fail (Exception e), r')
    end.

Declare Scope route_scope.
Delimit Scope route_scope with route.
Notation "x <- m ;; k" := (r_bind m (fun x => k))
  (at level 100, m at next level, right associativity) : route_scope.
Notation "m ;;; k" := (r_bind m (fun _ => k))
  (at level 100, right associativity) : route_scope.

(** The dict a handler returns on success, without and with details. *)
Record status_message := {
  reply_status : string;
  reply_message : string;
}.

Record relations_reply := {
  relations_status : string;
  relations_message : string;
  details : insert_result;
}.

(** [key in d]. *)
Definition contains {V} (d : gmap string V) (key : string) : bool :=
  bool_decide (is_Some (d !! key)).

(** [s[1:-1]]: the string without its first and its last character (the
    empty string when it has fewer than two). *)
Definition strip_ends (s : string) : string :=
  String.substring 1 (String.length s - 2) s.

Definition squote : string := "'".

(** The test of the string cleaning: the value starts and ends with a
    double quote, or starts and ends with a single quote. *)
Definition wrapped_in_quotes (s : string) : bool :=
  (startswith s dquote && endswith s dquote)
  || (startswith s squote && endswith s squote).

(** One round of the loop over [string_fields]. *)
Definition clean_field (processed_data : attrs) (field : string) : attrs :=
  match processed_data !! field with
  | Some (VStr s) =>
      if wrapped_in_quotes s then <[field := VStr (strip_ends s)]> processed_data
      else processed_data
  | _ => processed_data
  end.

Definition string_fields : list string := ["description"; "keywords"; "source_id"].

Definition required_keys : list string := ["chunks"; "entities"; "relationships"].

Definition required_fields : list string := ["src_id"; "tgt_id"; "description"; "keywords"].

(** The list comprehension [missing_fields]. *)
Definition missing_fields (relation : attrs) : list string :=
  List.filter (fun field => negb (contains relation field)) required_fields.

Section Handlers.

Context {json : Type}.

Variable unquote : string → string.
Variable str : raised → string.

(** [float(v)]: the float, or the exception it raises.  A number of the
    request body, an integer or a float, is a [VFloat] here. *)
Variable float : value → value + float_exn.

Variable ainsert_custom_kg : gmap string json → M LightRAG unit.
Variable ainsert_custom_relations : list attrs → M LightRAG insert_result.
Variable get_entity_info_method : string → bool → M LightRAG json.
Variable get_knowledge_graph_method : string → Z → M LightRAG json.
Variable adelete_by_entity : string → M LightRAG unit.
Variable aupdate_entity : string → attrs → M LightRAG update_result.
Variable aupdate_relation : string → string → attrs → M LightRAG update_result.

Local Open Scope route_scope.

(** [except Exception as e: raise HTTPException(status_code=500,
    detail=str(e))], the only clause of the first five handlers: it also
    catches an [HTTPException], which is an [Exception]. *)
Definition except_Exception {A} (e : raised) : R A :=
  r_raise (HTTPException 500 (str e)).

(** [except HTTPException: raise], then the clause above, as the two
    update handlers have them. *)
Definition except_HTTPException {A} (e : raised) : R A :=
  match e with
  | HTTPException _ _ => r_raise e
  | _ => except_Exception e
  end.

(** The loop over [required_keys] of [insert_custom_kg]. *)
Fixpoint check_required_keys (kg_data : gmap string json) (keys : list string) : R unit :=
  match keys with
  | [] => r_ret tt
  | key :: keys' =>
      if negb (contains kg_data key) then
        r_raise (HTTPException 400 ("知识图谱数据中缺少必需的键: " +:+ key))
      else check_required_keys kg_data keys'
  end.

Definition insert_custom_kg (kg_data : gmap string json) : R status_message :=
  r_try
    (check_required_keys kg_data required_keys ;;;
     await (ainsert_custom_kg kg_data) ;;;
     r_ret {| reply_status := "success"; reply_message := "知识图谱数据插入成功" |})
    except_Exception.

(** The loop over [relations_data] of [insert_custom_relations]. *)
Fixpoint check_required_fields (relations_data : list attrs) : R unit :=
  match relations_data with
  | [] => r_ret tt
  | relation :: relations_data' =>
      if nonempty (missing_fields relation) then
        r_raise (HTTPException 400
                   ("关系数据中缺少必需的字段: "
                    +:+ String.concat ", " (missing_fields relation)))
      else check_required_fields relations_data'
  end.

Definition insert_custom_relations (relations_data : list attrs) : R relations_reply :=
  r_try
    (check_required_fields relations_data ;;;
     result <- await (ainsert_custom_relations relations_data) ;;
     r_ret {| relations_status := "success";
              relations_message :=
                "已成功添加 " +:+ pretty (total_added result) +:+ " 个关系，跳过 "
                +:+ pretty (total_skipped result) +:+ " 个关系";
              details := result |})
    except_Exception.

Definition get_entity_info (entity_name : string) (include_vector_data : bool) : R json :=
  r_try
    (let decoded_entity_name := unquote entity_name in
     await (get_entity_info_method decoded_entity_name include_vector_data))
    except_Exception.

Definition get_knowledge_graph (node_label : string) (max_depth : Z) : R json :=
  r_try (await (get_knowledge_graph_method node_label max_depth)) except_Exception.

Definition delete_entity (entity_name : string) : R status_message :=
  r_try
    (await (adelete_by_entity entity_name) ;;;
     r_ret {| reply_status := "success";
              reply_message := "实体 " +:+ entity_name +:+ " 已成功删除" |})
    except_Exception.

Definition update_entity (entity_name : string) (entity_data : attrs) : R update_result :=
  r_try
    (let decoded_entity_name := unquote entity_name in
     result <- await (aupdate_entity decoded_entity_name entity_data) ;;
     if bool_decide (status result = "failed") then
       r_raise (HTTPException 400 (message result))
     else r_ret result)
    except_HTTPException.

(** The call [float(v)] in a [try] block. *)
Definition call_float (v : value) : R value :=
  match float v with
  | inl f => r_ret f
  | inr e => r_raise (BuiltinException e)
  end.

(** [except (TypeError, ValueError): raise HTTPException(status_code=400,
    ...)]: every other exception, an [OverflowError] among them, goes on
    to the clauses of the handler. *)
Definition except_TypeError_ValueError {A} (e : raised) : R A :=
  match e with
  | Exception TypeError
  | BuiltinException float_TypeError
  | BuiltinException float_ValueError =>
      r_raise (HTTPException 400 "weight 字段必须是有效的数值")
  | _ => r_raise e
  end.

(** The conversion of the [weight] field, when there is one. *)
Definition convert_weight (processed_data : attrs) : R attrs :=
  match processed_data !! "weight" with
  | Some w =>
      r_try
        (f <- call_float w ;;
         r_ret (<["weight" := f]> processed_data))
        except_TypeError_ValueError
  | None => r_ret processed_data
  end.

Definition update_relation (src_entity tgt_entity : string) (relation_data : attrs)
  : R update_result :=
  r_try
    (let decoded_src_entity := unquote src_entity in
     let decoded_tgt_entity := unquote tgt_entity in
     processed_data <- convert_weight relation_data ;;
     let processed_data := foldl clean_field processed_data string_fields in
     result <- await (aupdate_relation decoded_src_entity decoded_tgt_entity
                        processed_data) ;;
     if bool_decide (status result = "failed") then
       r_raise (HTTPException 404 (message result))
     else r_ret result)
    except_HTTPException.

End Handlers.

End kg_routes.

(** * The authorization of [api/routers/dify_routes.py]

    [verify_dify_auth], the dependency of the retrieval route, as a
    function of the header and of the environment variable
    [DIFY_API_KEYS] ([None] when it is not set). *)
Module dify_routes.

(** The [detail] of the [HTTPException] it raises. *)
Record error_detail := {
  error_code : nat;
  error_msg : string;
}.

Inductive verified :=
  | Token (token : string)
  | HTTPException (status_code : nat) (detail : error_detail).

Definition verify_dify_auth (DIFY_API_KEYS : option string) (authorization : string)
  : verified :=
  if negb (startswith authorization "Bearer ") then
    HTTPException 403
      {| error_code := 1001;
         error_msg := "Invalid Authorization header format. Expected 'Bearer' format." |}
  else
    let token := replace authorization "Bearer " "" in
    let allowed_keys := split (default "" DIFY_API_KEYS) "," in
    if negb (bool_decide (token ∈ allowed_keys)) then
      HTTPException 403 {| error_code := 1002; error_msg := "Authorization failed" |}
    else Token token.

End dify_routes.

(** ** Descriptions for the properties of the handlers *)

(** What the string cleaning of the relation update handler makes of a
    value: a string wrapped in quotes loses its first and last
    character, every other value is kept. *)
Definition cleaned (v : value) : value :=
  match v with
  | VStr s => if kg_routes.wrapped_in_quotes s then VStr (kg_routes.strip_ends s) else v
  | _ => v
  end.

(** The float a value converts to, when [float] returns. *)
Definition converted (float : value → value + kg_routes.float_exn) (v : value)
  : option value :=
  match float v with
  | inl f => Some f
  | inr _ => None
  end.

(** The data the relation update handler passes on, when the weight
    (if any) converts to a float. *)
Definition processed (float : value → value + kg_routes.float_exn) (relation_data : attrs)
  : option attrs :=
  match relation_data !! "weight" with
  | Some w =>
      (fun f => foldl kg_routes.clean_field (<["weight" := f]> relation_data)
                  kg_routes.string_fields) <$> converted float w
  | None => Some (foldl kg_routes.clean_field relation_data kg_routes.string_fields)
  end.

(** The exception [float] raises on the weight sent, when it raises. *)
Definition weight_error (float : value → value + kg_routes.float_exn)
    (relation_data : attrs) : option kg_routes.float_exn :=
  match relation_data !! "weight" with
  | Some w =>
      match float w with
      | inl _ => None
      | inr e => Some e
      end
  | None => None
  end.

(** Stand-ins for the parameters of the handlers, for the evaluations
    below: a name without percent escapes decodes to itself, an exception
    is rendered by a fixed text and an [HTTPException] by its code and
    detail, and [float] returns a float as it is, and raises a
    [ValueError] on a string (the strings below are not numerals) and a
    [TypeError] on [None]. *)
Definition plain_unquote (s : string) : string := s.

Definition plain_str (e : kg_routes.raised) : string :=
  match e with
  | kg_routes.HTTPException code detail => pretty code +:+ ": " +:+ detail
  | kg_routes.Exception _ => "error"
  | kg_routes.BuiltinException kg_routes.float_TypeError => "TypeError"
  | kg_routes.BuiltinException kg_routes.float_ValueError => "ValueError"
  | kg_routes.BuiltinException kg_routes.float_OverflowError =>
      "int too large to convert to float"
  end.

Definition float_only (v : value) : value + kg_routes.float_exn :=
  match v with
  | VFloat repr => inl (VFloat repr)
  | VStr _ => inr kg_routes.float_ValueError
  | VNone => inr kg_routes.float_TypeError
  end.

(** The integer 10 ** 309, which is too large for a float. *)
Definition large_integer : string := "1" +:+ String.concat "" (replicate 309 "0").

(** The same stand-in for [float], where that integer was sent. *)
Definition float_of_integer (v : value) : value + kg_routes.float_exn :=
  if bool_decide (v = VFloat large_integer) then inr kg_routes.float_OverflowError
  else float_only v.

(** ** A case mapping for the evaluations *)

(** [str.upper()] on the strings made of ASCII characters, on which it
    maps the letters a to z to A to Z and leaves every other character as
    it is.  The evaluations below are on such names; the statements that
    are not evaluations are for every case mapping. *)
Definition upper_ascii (c : ascii) : ascii :=
  let n := nat_of_ascii c in
  if (97 <=? n)%nat && (n <=? 122)%nat then ascii_of_nat (n - 32) else c.

Fixpoint ascii_upper (s : string) : string :=
  match s with
  | EmptyString => EmptyString
  | String c s' => String (upper_ascii c) (ascii_upper s')
  end.

#[global] Instance ascii_names : Upper := ascii_upper.

(** * Properties *)

(** ** Basic facts *)

Lemma log_calls_nil r : log_calls [] r = r.
Proof. destruct r; unfold log_calls; simpl; by rewrite app_nil_r. Qed.

Lemma log_calls_app l1 l2 r : log_calls l2 (log_calls l1 r) = log_calls (l1 ++ l2) r.
Proof. unfold log_calls; simpl; by rewrite app_assoc. Qed.

Lemma record_call_log c r : record_call c r = log_calls [c] r.
Proof. reflexivity. Qed.

Lemma new_calls_log l r : new_calls r (log_calls l r) = l.
Proof. unfold new_calls; simpl. by rewrite drop_app_length. Qed.

(** Finalisation logs one [IndexDone] per present store, in the order
    entity index, relation index, graph, and changes nothing else,
    whether or not one of the callbacks faults. *)
Lemma gather_index_done ss r o r' :
  gather (index_done_callback <$> ss) r = (o, r') →
  r' = log_calls (IndexDone <$> ss) r.
Proof.
  revert r o r'. induction ss as [|s ss IH]; intros r o r' H.
  - inversion H; subst. by rewrite log_calls_nil.
  - rewrite fmap_cons in H. cbn [gather] in H.
    destruct (index_done_callback s r) as [o1 r1] eqn:E1.
    destruct (gather (index_done_callback <$> ss) r1) as [o2 r2] eqn:E2.
    assert (r1 = log_calls [IndexDone s] r) as ->.
    { unfold index_done_callback in E1.
      destruct (faulty r (IndexDone s)); by inversion E1. }
    apply IH in E2. assert (r' = r2) as -> by (by inversion H).
    rewrite E2, log_calls_app. reflexivity.
Qed.

Lemma insert_done_log r o r' :
  _insert_done r = (o, r') → r' = log_calls (IndexDone <$> present_stores r) r.
Proof. apply gather_index_done. Qed.

(** Without a fault on a finalize call, finalisation returns normally. *)
Lemma gather_index_done_ok ss r :
  (∀ s, s ∈ ss → faulty r (IndexDone s) = false) →
  gather (index_done_callback <$> ss) r = (Ok tt, log_calls (IndexDone <$> ss) r).
Proof.
  revert r. induction ss as [|s ss IH]; intros r Hf; simpl.
  - unfold ret. by rewrite log_calls_nil.
  - unfold index_done_callback at 1. rewrite Hf by set_solver.
    rewrite record_call_log, IH by (intros; apply Hf; set_solver).
    by rewrite log_calls_app.
Qed.

(** Finalisation returns normally only if no finalize call faults. *)
Lemma gather_index_done_inv ss r a r' :
  gather (index_done_callback <$> ss) r = (Ok a, r') →
  Forall (fun s => faulty r (IndexDone s) = false) ss.
Proof.
  revert r a r'. induction ss as [|s ss IH]; intros r a r' H; [constructor|].
  rewrite fmap_cons in H. cbn [gather] in H.
  unfold index_done_callback at 1 in H.
  destruct (faulty r (IndexDone s)) eqn:F.
  - destruct (gather _ _) as [o2 r2]. discriminate H.
  - destruct (gather _ _) as [[a2|e2] r2] eqn:E2; [|discriminate H].
    constructor; [done|]. by apply IH in E2.
Qed.

Lemma insert_done_inv r a r' :
  _insert_done r = (Ok a, r') →
  Forall (fun s => faulty r (IndexDone s) = false) (present_stores r).
Proof. apply gather_index_done_inv. Qed.

Lemma insert_done_ok r :
  Forall (fun s => faulty r (IndexDone s) = false) (present_stores r) →
  _insert_done r = (Ok tt, log_calls (IndexDone <$> present_stores r) r).
Proof. intros Hf. apply gather_index_done_ok. by apply Forall_forall. Qed.

Lemma new_calls_app r r' l : calls r' = calls r ++ l → new_calls r r' = l.
Proof. unfold new_calls. intros ->. by rewrite drop_app_length. Qed.

(** ** Symbolic execution of the operations *)

(** The f-string of the operations builds the canonical key. *)
Ltac fold_keys_in H :=
  repeat match type of H with
    | context [dquote +:+ @upper ?U0 ?s +:+ dquote] =>
        progress change (dquote +:+ @upper U0 s +:+ dquote) with (@normalize U0 s) in H
    end.

Ltac fold_keys :=
  repeat match goal with
    | |- context [dquote +:+ @upper ?U0 ?s +:+ dquote] =>
        progress change (dquote +:+ @upper U0 s +:+ dquote) with (@normalize U0 s)
    end.

(** Unfold the monadic layer of an operation in a hypothesis. *)
Ltac unfold_ops H :=
  unfold update_entity, update_relation, insert_custom_relations,
    update_entity_body, update_relation_body, insert_custom_relations_body,
    insert_relation, run_frame, try_except, on_exception, finalize_if_updated,
    bind, ret, raise, lift_outcome, lift_rag, set_update_storage, get_update_storage,
    has_node, get_node, upsert_node, has_edge, get_edge, upsert_edge, graph_call,
    upsert, get_vdb, set_vdb, set_graph, record_call, obind, getitem, format_name in H;
  cbn [rag update_storage entities_vdb relationships_vdb chunk_entity_relation_graph
       faulty calls fst snd negb] in H;
  fold_keys_in H.

(** One step: name the result of a finalisation, or split on the
    innermost test the run depends on. *)
Ltac exec_step H :=
  match type of H with
  | context [_insert_done ?r] =>
      let o := fresh "o" in
      let r' := fresh "r" in
      let E := fresh "E" in
      destruct (_insert_done r) as [o r'] eqn:E;
      let E' := fresh "E" in
      pose proof (insert_done_log _ _ _ E) as E'; subst r'
  | context [match ?x with _ => _ end] =>
      lazymatch x with
      | context [match _ with _ => _ end] => fail
      | _ => destruct x eqn:?
      end
  end;
  cbn [rag update_storage entities_vdb relationships_vdb chunk_entity_relation_graph
       faulty calls fst snd negb] in H;
  fold_keys_in H.

Ltac exec H := unfold_ops H; repeat exec_step H.

(** Unfold the monadic layer of an operation in the goal. *)
Ltac unfold_goal :=
  unfold update_entity, update_relation, insert_custom_relations,
    update_entity_body, update_relation_body, insert_custom_relations_body,
    insert_relation, run_frame, try_except, on_exception, finalize_if_updated,
    bind, ret, raise, lift_outcome, lift_rag, set_update_storage, get_update_storage,
    has_node, get_node, upsert_node, has_edge, get_edge, upsert_edge, graph_call,
    upsert, get_vdb, set_vdb, set_graph, record_call, obind, getitem, format_name;
  cbn [rag update_storage entities_vdb relationships_vdb chunk_entity_relation_graph
       faulty calls fst snd negb];
  fold_keys.

(** Use a fact about the state to advance the run in the goal. *)
Ltac run_with E :=
  rewrite E;
  cbn [rag update_storage entities_vdb relationships_vdb chunk_entity_relation_graph
       faulty calls fst snd negb orb andb bool_decide decide is_Some_dec decide_rel];
  fold_keys.

(** ** The loop of [insert_custom_relations] *)

Lemma after_loop_nil `{U : Upper} ns r : after_loop ns [] r = r.
Proof.
  destruct r as [ev rv [[n e]|] fl cl]; unfold after_loop; simpl;
    by rewrite app_nil_r.
Qed.

Lemma after_loop_nodes `{U : Upper}
    ns items r : graph_nodes (after_loop ns items r) = graph_nodes r.
Proof. unfold graph_nodes, after_loop; simpl. by destruct (chunk_entity_relation_graph r). Qed.

Lemma after_loop_cons `{U : Upper} ns item items r :
  after_loop ns (item :: items) r = after_loop ns items (after_loop ns [item] r).
Proof.
  unfold after_loop; simpl. rewrite app_nil_r, <- app_assoc. f_equal.
  by destruct (chunk_entity_relation_graph r).
Qed.

Lemma item_runs_after_loop `{U : Upper} ns items r item :
  item_runs (after_loop ns items r) item ↔ item_runs r item.
Proof.
  unfold item_runs. rewrite after_loop_nodes. unfold after_loop; cbn.
  by rewrite fmap_is_Some.
Qed.

(** One iteration that completes does what [judge] says. *)
Lemma insert_relation_ok `{U : Upper} vars item f vars' f' :
  insert_relation vars item f = (Ok vars', f') →
  let ns := graph_nodes (rag f) in
  item_runs (rag f) item
  ∧ vars' = vars_after ns [item] vars ∧ f' = frame_after ns [item] f.
Proof.
  intros H. destruct f as [us [ev rv og fl cl]]. exec H; try discriminate.
  all: inversion H; subst; clear H.
  all: unfold item_runs, vars_after, frame_after, after_loop, added_of, skipped_of,
         staged_of, edges_after, write_edge, item_calls, judge, graph_nodes; simpl.
  all: repeat match goal with E : _ !! _ = Some _ |- _ => rewrite E; clear E end.
  all: match goal with
       | E : negb ?a || negb ?b = _ |- _ => destruct a, b; try discriminate E
       end.
  all: simpl; split; [split; [eauto|split; [eauto|by repeat constructor]]|].
  all: rewrite ?app_nil_r, <- ?app_assoc, ?orb_false_r, ?orb_true_r.
  all: try destruct g; done.
Qed.

(** Conversely, the iteration completes on such an item. *)
Lemma insert_relation_runs `{U : Upper} vars item f :
  item_runs (rag f) item →
  let ns := graph_nodes (rag f) in
  insert_relation vars item f
  = (Ok (vars_after ns [item] vars), frame_after ns [item] f).
Proof.
  destruct f as [us [ev rv og fl cl]].
  unfold item_runs, graph_nodes.
  cbn [rag chunk_entity_relation_graph faulty].
  intros ([g ->] & J & F). cbn zeta.
  unfold vars_after, frame_after, after_loop, added_of, skipped_of,
    staged_of, edges_after, write_edge.
  unfold item_calls in F.
  cbn [rag update_storage entities_vdb relationships_vdb chunk_entity_relation_graph
       faulty calls fmap option_fmap option_map omap list_omap list_fmap foldl concat
       all_relationships_data added_relations skipped_relations].
  unfold item_calls.
  destruct (judge (nodes g) item) as [v|] eqn:Ej; [clear J|by destruct J].
  unfold judge in Ej.
  destruct (item !! "src_id") as [[a| |]|] eqn:E1; try discriminate Ej.
  destruct (item !! "tgt_id") as [[b| |]|] eqn:E2; try discriminate Ej.
  destruct (item !! "description") as [descr|] eqn:E3; try discriminate Ej.
  destruct (item !! "keywords") as [kw|] eqn:E4; try discriminate Ej.
  unfold_goal. rewrite E1, E2, E3, E4. cbn [fst snd]. fold_keys.
  destruct (bool_decide (is_Some (nodes g !! normalize a))) eqn:B1;
    destruct (bool_decide (is_Some (nodes g !! normalize b))) eqn:B2;
    cbn [andb] in Ej; inversion Ej; subst v; clear Ej;
    cbn [src_id tgt_id skipped_src_id skipped_tgt_id] in F;
    repeat (apply Forall_cons in F as [? F]).
  all: repeat match goal with
         | E : _ = false |- _ => run_with E; clear E
         | E : _ = true |- _ => run_with E; clear E
         end.
  all: cbn [orb negb src_id tgt_id skipped_src_id skipped_tgt_id nonempty app
            added_entry fmap list_fmap].
  all: rewrite ?app_nil_r, <- ?app_assoc, ?orb_false_r, ?orb_true_r; cbn [app].
  all: try destruct g; done.
Qed.

Lemma staged_of_app `{U : Upper}
    ns l1 l2 : staged_of ns (l1 ++ l2) = staged_of ns l1 ++ staged_of ns l2.
Proof. apply omap_app. Qed.

Lemma skipped_of_app `{U : Upper}
    ns l1 l2 : skipped_of ns (l1 ++ l2) = skipped_of ns l1 ++ skipped_of ns l2.
Proof. apply omap_app. Qed.

Lemma added_of_app `{U : Upper}
    ns l1 l2 : added_of ns (l1 ++ l2) = added_of ns l1 ++ added_of ns l2.
Proof. unfold added_of. by rewrite staged_of_app, fmap_app. Qed.

Lemma vars_after_nil `{U : Upper} ns vars : vars_after ns [] vars = vars.
Proof. destruct vars; unfold vars_after; simpl. by rewrite !app_nil_r. Qed.

Lemma vars_after_cons `{U : Upper} ns item items vars :
  vars_after ns items (vars_after ns [item] vars) = vars_after ns (item :: items) vars.
Proof.
  unfold vars_after; cbn [all_relationships_data added_relations skipped_relations].
  change (item :: items) with ([item] ++ items).
  by rewrite staged_of_app, added_of_app, skipped_of_app, !app_assoc.
Qed.

Lemma frame_after_nil `{U : Upper} ns f : frame_after ns [] f = f.
Proof.
  destruct f as [us r]; unfold frame_after; simpl.
  by rewrite after_loop_nil, orb_false_r.
Qed.

Lemma frame_after_cons `{U : Upper} ns item items f :
  frame_after ns items (frame_after ns [item] f) = frame_after ns (item :: items) f.
Proof.
  unfold frame_after; cbn [update_storage rag]. rewrite <- after_loop_cons. f_equal.
  change (item :: items) with ([item] ++ items). rewrite staged_of_app.
  destruct (staged_of ns [item]), (staged_of ns items), (update_storage f); done.
Qed.

(** A loop that completes does, item after item, what [judge] says. *)
Lemma insert_loop_ok `{U : Upper} items vars f vars' f' :
  for_each insert_relation vars items f = (Ok vars', f') →
  let ns := graph_nodes (rag f) in
  Forall (item_runs (rag f)) items
  ∧ vars' = vars_after ns items vars ∧ f' = frame_after ns items f.
Proof.
  revert vars f. induction items as [|item items IH]; intros vars f H ns.
  - inversion H; subst. by rewrite vars_after_nil, frame_after_nil.
  - cbn [for_each] in H. unfold bind in H.
    destruct (insert_relation vars item f) as [[v1|e] f1] eqn:E1; [|discriminate].
    apply insert_relation_ok in E1 as (J & -> & ->).
    apply IH in H. cbn [frame_after rag] in H. rewrite after_loop_nodes in H.
    destruct H as (Hall & -> & ->). fold ns.
    rewrite vars_after_cons, frame_after_cons.
    split; [|done]. constructor; [done|].
    eapply Forall_impl; [exact Hall|]. intros x. by rewrite item_runs_after_loop.
Qed.

(** Conversely, the loop completes when it does on every item. *)
Lemma insert_loop_runs `{U : Upper} items vars f :
  Forall (item_runs (rag f)) items →
  let ns := graph_nodes (rag f) in
  for_each insert_relation vars items f
  = (Ok (vars_after ns items vars), frame_after ns items f).
Proof.
  revert vars f. induction items as [|item items IH]; intros vars f H ns.
  - by rewrite vars_after_nil, frame_after_nil.
  - apply Forall_cons in H as [H1 H2].
    cbn [for_each]. unfold bind. rewrite (insert_relation_runs vars item f H1).
    fold ns. rewrite IH.
    + cbn [frame_after rag]. rewrite after_loop_nodes. fold ns.
      by rewrite vars_after_cons, frame_after_cons.
    + cbn [frame_after rag]. eapply Forall_impl; [exact H2|].
      intros x. by rewrite item_runs_after_loop.
Qed.

(** A batch insertion that returns normally is determined by [judge]. *)
Lemma insert_custom_relations_ok `{U : Upper} h items r res r' :
  insert_custom_relations h items r = (Ok res, r') →
  let ns := graph_nodes r in
  Forall (item_runs r) items
  ∧ res = batch_result ns items
  ∧ ((staged_of ns items = [] ∧ r' = after_loop ns items r)
     ∨ (staged_of ns items ≠ []
        ∧ ∃ data rv, staged_runs h (staged_of ns items) data rv r
                     ∧ r' = after_batch ns items data rv r)).
Proof.
  intros H ns. subst ns.
  unfold insert_custom_relations, run_frame, try_except, insert_custom_relations_body in H.
  unfold bind at 1 in H.
  destruct (for_each insert_relation no_vars items _) as [[vars|e] f1] eqn:Eloop.
  - apply insert_loop_ok in Eloop as (Hall & -> & ->). cbn [rag] in *.
    split; [done|].
    unfold vars_after, no_vars, frame_after in H.
    cbn [all_relationships_data added_relations skipped_relations app
         update_storage rag orb] in H.
    destruct (staged_of (graph_nodes r) items) as [|dp dps] eqn:Est.
    + cbn [nonempty] in H. exec H; try discriminate.
      inversion H; subst. split; [done|]. by left.
    + cbn [nonempty] in H.
      destruct (data_for_vdb h (dp :: dps) ∅) as [data|e] eqn:Edata.
      * unfold after_batch, staged_runs, after_loop in *.
        destruct r as [ev rv og fl cl]. exec H; try discriminate.
        match goal with
        | E : _insert_done _ = _ |- _ => apply insert_done_inv in E; rename E into Hfin
        end.
        inversion H; subst. split; [done|]. right. split; [done|].
        eexists _, _. split; [split; [done|split; [done|split; [done|]]]|].
        -- unfold present_stores in *; cbn in *. by destruct ev, og.
        -- unfold present_stores, log_calls, set_vdb; cbn. by destruct ev, og.
      * exec H; discriminate.
  - exec H; discriminate.
Qed.


(** ** The calls of the two merge-updates *)

(** Bring a log equation to the form [cl ++ l = cl ++ l']. *)
Ltac norm_log :=
  unfold log_calls, present_stores; cbn [calls entities_vdb relationships_vdb
    chunk_entity_relation_graph faulty];
  rewrite <- ?app_assoc; cbn [app].

(** Whatever its outcome, an entity merge-update makes an initial part of
    the calls of its script, and no other. *)
Lemma update_entity_log h name data r o r' :
  update_entity h name data r = (o, r') →
  ∃ l, calls r' = calls r ++ l ∧ l `prefix_of` update_entity_script h name data r.
Proof.
  intros H. destruct r as [ev rv og fl cl].
  unfold update_entity_script, merged_node_data, graph_nodes.
  exec H; inversion H; subst; clear H.
  all: norm_log.
  all: try (exists []; split; [by rewrite app_nil_r | apply prefix_nil]).
  all: eexists; split; [reflexivity|].
  all: unfold entity_upsert.
  all: first [ done | by eexists ].
Qed.

(** The same for a relation merge-update. *)
Lemma update_relation_log `{U : Upper} h src tgt data r o r' :
  update_relation h src tgt data r = (o, r') →
  ∃ l, calls r' = calls r ++ l ∧ l `prefix_of` update_relation_script h src tgt data r.
Proof.
  intros H. destruct r as [ev rv og fl cl].
  unfold update_relation_script, merged_edge_data, merged_edge_content, graph_edges.
  exec H; inversion H; subst; clear H.
  all: norm_log.
  all: try (exists []; split; [by rewrite app_nil_r | apply prefix_nil]).
  all: eexists; split; [reflexivity|].
  all: unfold relation_upsert.
  all: repeat match goal with E : relation_content _ _ _ _ = _ |- _ => rewrite E; clear E end.
  all: first [ done | by eexists | by rewrite app_nil_r ].
Qed.

(** An entity merge-update that returns normally either reports that the
    entity is missing, after the existence check alone, or went through
    all its steps. *)
Lemma update_entity_returns h name data r res r' :
  update_entity h name data r = (Ok res, r') →
  is_Some (chunk_entity_relation_graph r)
  ∧ ((graph_nodes r !! name = None
      ∧ res = entity_not_found name ∧ r' = log_calls [HasNode name] r)
     ∨ (is_Some (graph_nodes r !! name) ∧ is_Some (entities_vdb r)
        ∧ res = entity_updated name (merged_node_data name data r)
        ∧ r' = after_update_entity h name data r)).
Proof.
  intros H. destruct r as [ev rv og fl cl].
  unfold after_update_entity, merged_node_data, graph_nodes.
  exec H; inversion H; subst; clear H.
  all: cbn [chunk_entity_relation_graph entities_vdb]; (split; [done|]).
  all: repeat match goal with
         | E : negb (bool_decide _) = true |- _ =>
             apply negb_true_iff, bool_decide_eq_false in E;
             rewrite <- eq_None_not_Some in E
         | E : negb (bool_decide _) = false |- _ =>
             apply negb_false_iff, bool_decide_eq_true in E
         end.
  - by left.
  - right. do 2 (split; [done|]). split; [done|].
    norm_log. destruct rv; done.
Qed.

Ltac bool_hyps :=
  repeat match goal with
    | E : negb (bool_decide _) = true |- _ =>
        apply negb_true_iff, bool_decide_eq_false in E;
        rewrite <- eq_None_not_Some in E
    | E : negb (bool_decide _) = false |- _ =>
        apply negb_false_iff, bool_decide_eq_true in E
    end.

(** A relation merge-update that returns normally reports the first
    unmet precondition, after existence checks alone, or went through all
    its steps. *)
Lemma update_relation_returns `{U : Upper} h src tgt data r res r' :
  update_relation h src tgt data r = (Ok res, r') →
  let ns := normalize src in
  let nt := normalize tgt in
  is_Some (chunk_entity_relation_graph r)
  ∧ ((graph_nodes r !! ns = None
      ∧ res = source_not_found src ∧ r' = log_calls [HasNode ns; HasNode nt] r)
     ∨ (is_Some (graph_nodes r !! ns) ∧ graph_nodes r !! nt = None
        ∧ res = target_not_found tgt ∧ r' = log_calls [HasNode ns; HasNode nt] r)
     ∨ (is_Some (graph_nodes r !! ns) ∧ is_Some (graph_nodes r !! nt)
        ∧ graph_edges r !! (ns, nt) = None
        ∧ res = relation_not_found src tgt ∧ r' = log_calls (relation_checks src tgt) r)
     ∨ (is_Some (graph_nodes r !! ns) ∧ is_Some (graph_nodes r !! nt)
        ∧ is_Some (graph_edges r !! (ns, nt)) ∧ is_Some (relationships_vdb r)
        ∧ res = relation_updated src tgt (merged_edge_data src tgt data r)
        ∧ ∃ content,
            merged_edge_content src tgt (merged_edge_data src tgt data r) = Ok content
            ∧ r' = after_update_relation h src tgt data content r)).
Proof.
  intros H ns nt. subst ns nt. destruct r as [ev rv og fl cl].
  unfold after_update_relation, merged_edge_data, merged_edge_content, relation_checks,
    graph_nodes, graph_edges.
  exec H; inversion H; subst; clear H.
  all: cbn [chunk_entity_relation_graph entities_vdb relationships_vdb];
       (split; [done|]).
  all: bool_hyps.
  - left. norm_log. done.
  - right; left. norm_log. done.
  - right; right; left. norm_log. done.
  - right; right; right. do 4 (split; [done|]). split; [done|].
    eexists. split; [done|]. norm_log. destruct ev; done.
Qed.

(** ** Relation merge-update: the preconditions *)

Lemma failure_messages_differ src tgt :
  source_not_found src ≠ target_not_found tgt
  ∧ source_not_found src ≠ relation_not_found src tgt
  ∧ target_not_found tgt ≠ relation_not_found src tgt.
Proof. repeat split; intros E; apply (f_equal message) in E; discriminate E. Qed.

(** C9: a relation merge-update checks, in this order, that the source
    entity exists, that the target entity exists and that the edge
    between them exists; the first check that fails decides the result,
    which is returned (not raised), has status failed and a message of
    its own naming what is missing; and a merge-update that returns such
    a failure has made no write and no finalize call and has left the
    graph and both vector indexes as they were. *)
Theorem update_relation_preconditions `{U : Upper} h src tgt data r g :
  chunk_entity_relation_graph r = Some g →
  faulty r (HasNode (normalize src)) = false →
  faulty r (HasNode (normalize tgt)) = false →
  let ns := normalize src in
  let nt := normalize tgt in
  (nodes g !! ns = None →
   update_relation h src tgt data r
   = (Ok (source_not_found src), log_calls [HasNode ns; HasNode nt] r))
  ∧ (is_Some (nodes g !! ns) → nodes g !! nt = None →
     update_relation h src tgt data r
     = (Ok (target_not_found tgt), log_calls [HasNode ns; HasNode nt] r))
  ∧ (is_Some (nodes g !! ns) → is_Some (nodes g !! nt) → edges g !! (ns, nt) = None →
     faulty r (HasEdge ns nt) = false →
     update_relation h src tgt data r
     = (Ok (relation_not_found src tgt), log_calls (relation_checks src tgt) r))
  ∧ (status (source_not_found src) = "failed"
     ∧ status (target_not_found tgt) = "failed"
     ∧ status (relation_not_found src tgt) = "failed")
  ∧ (source_not_found src ≠ target_not_found tgt
     ∧ source_not_found src ≠ relation_not_found src tgt
     ∧ target_not_found tgt ≠ relation_not_found src tgt)
  ∧ (∀ res r', update_relation h src tgt data r = (Ok res, r') →
               status res = "failed" →
               Forall (fun c => is_write c = false) (new_calls r r')
               ∧ finalized (new_calls r r') = []
               ∧ chunk_entity_relation_graph r' = chunk_entity_relation_graph r
               ∧ entities_vdb r' = entities_vdb r
               ∧ relationships_vdb r' = relationships_vdb r).
Proof.
  intros Hg F1 F2 ns nt. subst ns nt.
  destruct r as [ev rv og fl cl]. cbn in Hg, F1, F2. subst og.
  split; [|split; [|split; [|split; [|split]]]].
  - intros N1. unfold_goal. run_with F1. run_with F2. run_with N1.
    unfold log_calls; cbn. by rewrite <- app_assoc.
  - intros [x1 N1] N2. unfold_goal. run_with F1. run_with F2. run_with N1. run_with N2.
    unfold log_calls; cbn. by rewrite <- app_assoc.
  - intros [x1 N1] [x2 N2] N3 F3. cbn in F3. unfold_goal.
    run_with F1. run_with F2. run_with N1. run_with N2. run_with F3. run_with N3.
    unfold log_calls; cbn. by rewrite <- !app_assoc.
  - done.
  - apply failure_messages_differ.
  - intros res r' H Hst. apply update_relation_returns in H as [_ H].
    destruct H as [(_ & -> & ->)|[(_ & _ & -> & ->)|[(_ & _ & _ & -> & ->)|H]]].
    1-3: rewrite new_calls_log; repeat split; try done; by repeat constructor.
    destruct H as (_ & _ & _ & _ & -> & _). discriminate Hst.
Qed.

(** C9, on the demo graph: the node A exists and no node X does, so that
    the update of the relation from a to x, named in lower case, reports
    the missing target after the two node checks, which it makes under
    the names in upper case between double quotes. *)
Lemma update_relation_preconditions_witness :
  is_Some (nodes demo_graph !! quoted "A")
  ∧ nodes demo_graph !! quoted "X" = None
  ∧ update_relation plain_id "a" "x" ∅ demo_rag
    = (Ok (target_not_found "x"),
       log_calls [HasNode (quoted "A"); HasNode (quoted "X")] demo_rag).
Proof.
  split; [vm_compute; eauto|]. split; [vm_compute; reflexivity|].
  refine (proj1 (proj2 (update_relation_preconditions plain_id "a" "x" ∅ demo_rag
                          demo_graph _ _ _)) _ _);
    first [vm_compute; reflexivity|vm_compute; eauto].
Defined.

(** ** Relation merge-update: provenance *)

Lemma merge_edge_data_source_id current data :
  data !! "source_id" = None →
  merge_edge_data current data !! "source_id" = current !! "source_id".
Proof.
  intros Hd. unfold merge_edge_data. rewrite Hd.
  destruct (current !! "source_id") as [s|] eqn:Hc.
  - by rewrite lookup_insert_eq.
  - by rewrite lookup_union_r.
Qed.

Lemma after_update_relation_edge `{U : Upper} h src tgt data content r :
  is_Some (chunk_entity_relation_graph r) →
  graph_edges (after_update_relation h src tgt data content r)
    !! (normalize src, normalize tgt)
  = Some (merged_edge_data src tgt data r).
Proof.
  intros [g Hg]. unfold graph_edges, after_update_relation; cbn. rewrite Hg; cbn.
  by rewrite lookup_insert_eq.
Qed.

(** C5: when a relation merge-update succeeds and the incoming attribute
    map has no key source_id, the merged record, which is the one written
    to the graph store under the edge and the one returned to the caller,
    has the source_id of the prior edge record (and none when the prior
    record had none). *)
Theorem update_relation_preserves_source_id `{U : Upper} h src tgt data r res r' :
  update_relation h src tgt data r = (Ok res, r') →
  status res = "success" →
  data !! "source_id" = None →
  ∃ prior written,
    graph_edges r !! (normalize src, normalize tgt) = Some prior
    ∧ updated_data res = Some written
    ∧ UpsertEdge (normalize src) (normalize tgt) written ∈ new_calls r r'
    ∧ graph_edges r' !! (normalize src, normalize tgt) = Some written
    ∧ written !! "source_id" = prior !! "source_id".
Proof.
  intros H Hst Hd. apply update_relation_returns in H as [Hg H].
  destruct H as [(_ & -> & _)|[(_ & _ & -> & _)|[(_ & _ & _ & -> & _)|H]]];
    try discriminate Hst.
  destruct H as (_ & _ & [prior Hp] & _ & -> & content & _ & ->).
  exists prior, (merged_edge_data src tgt data r). split; [done|]. split; [done|].
  split; [|split].
  - erewrite new_calls_app by reflexivity. set_solver.
  - by apply after_update_relation_edge.
  - unfold merged_edge_data. rewrite Hp. by apply merge_edge_data_source_id.
Qed.

(** C5, on the demo graph: the edge from A to B carries the source_id
    chunk-1, and an update of its description alone keeps it. *)
Lemma update_relation_preserves_source_id_witness :
  let data : attrs := {["description" := VStr "second"]} in
  let res := relation_updated "a" "b" (merged_edge_data "a" "b" data demo_rag) in
  let r' :=
    after_update_relation plain_id "a" "b" data
      (VStr ("order" +:+ normalize "a" +:+ normalize "b" +:+ "second")) demo_rag in
  update_relation plain_id "a" "b" data demo_rag = (Ok res, r')
  ∧ ∃ prior written,
      graph_edges demo_rag !! (normalize "a", normalize "b") = Some prior
      ∧ updated_data res = Some written
      ∧ UpsertEdge (normalize "a") (normalize "b") written ∈ new_calls demo_rag r'
      ∧ graph_edges r' !! (normalize "a", normalize "b") = Some written
      ∧ written !! "source_id" = prior !! "source_id".
Proof.
  intros data res r'.
  assert (update_relation plain_id "a" "b" data demo_rag = (Ok res, r')) as E
    by (vm_compute; reflexivity).
  split; [exact E|].
  apply (update_relation_preserves_source_id plain_id "a" "b" data demo_rag res r' E);
    vm_compute; reflexivity.
Defined.

(** ** Entity merge-update: overlay *)

Lemma after_update_entity_node h name data r :
  is_Some (chunk_entity_relation_graph r) →
  graph_nodes (after_update_entity h name data r) !! name
  = Some (merged_node_data name data r).
Proof.
  intros [g Hg]. unfold graph_nodes, after_update_entity; cbn. rewrite Hg; cbn.
  by rewrite lookup_insert_eq.
Qed.

(** C7: when an entity of the graph is merge-updated twice in a row, both
    times with success, with attribute maps that share no key, the node
    record stored at the end (also the one the second update returns)
    is the second map laid over the first laid over the prior record: its
    keys are those of both updates and of the prior record, a key of an
    update is bound to the value that update supplied, and every other
    key keeps its prior value. *)
Theorem update_entity_twice_disjoint h name d1 d2 r prior res1 r1 res2 r2 :
  graph_nodes r !! name = Some prior →
  update_entity h name d1 r = (Ok res1, r1) →
  status res1 = "success" →
  update_entity h name d2 r1 = (Ok res2, r2) →
  status res2 = "success" →
  d1 ##ₘ d2 →
  ∃ final,
    graph_nodes r2 !! name = Some final
    ∧ updated_data res2 = Some final
    ∧ final = d2 ∪ (d1 ∪ prior)
    ∧ dom final = dom d1 ∪ dom d2 ∪ dom prior
    ∧ (∀ k v, d1 !! k = Some v → final !! k = Some v)
    ∧ (∀ k v, d2 !! k = Some v → final !! k = Some v)
    ∧ (∀ k, d1 !! k = None → d2 !! k = None → final !! k = prior !! k).
Proof.
  intros Hp H1 S1 H2 S2 Hdisj.
  apply update_entity_returns in H1 as [Hg1 H1].
  destruct H1 as [(_ & -> & _)|(_ & _ & -> & ->)]; [discriminate S1|].
  apply update_entity_returns in H2 as [Hg2 H2].
  destruct H2 as [(_ & -> & _)|(_ & _ & -> & ->)]; [discriminate S2|].
  exists (d2 ∪ (d1 ∪ prior)).
  assert (merged_node_data name d2 (after_update_entity h name d1 r) = d2 ∪ (d1 ∪ prior))
    as Hm.
  { unfold merged_node_data at 1. rewrite after_update_entity_node by done.
    unfold merged_node_data. by rewrite Hp. }
  split; [by rewrite after_update_entity_node, Hm|].
  split; [cbn; by rewrite Hm|]. split; [done|].
  split; [rewrite !dom_union_L; set_solver|].
  split; [|split].
  - intros k v Hk. rewrite lookup_union_r.
    + by apply lookup_union_Some_l.
    + by eapply map_disjoint_Some_l.
  - intros k v Hk. by apply lookup_union_Some_l.
  - intros k Hk1 Hk2. by rewrite !lookup_union_r.
Qed.

(** C7, on the demo graph: PARIS has a description; a first update gives
    it an entity_type, a second one a population, and the final record has
    all three. *)
Lemma update_entity_twice_disjoint_witness :
  let d1 : attrs := {["entity_type" := VStr "CITY"]} in
  let d2 : attrs := {["population" := VStr "2M"]} in
  let prior : attrs := {["description" := VStr "capital of France"]} in
  let res1 := entity_updated "PARIS" (merged_node_data "PARIS" d1 demo_rag) in
  let r1 := after_update_entity plain_id "PARIS" d1 demo_rag in
  let res2 := entity_updated "PARIS" (merged_node_data "PARIS" d2 r1) in
  let r2 := after_update_entity plain_id "PARIS" d2 r1 in
  update_entity plain_id "PARIS" d1 demo_rag = (Ok res1, r1)
  ∧ update_entity plain_id "PARIS" d2 r1 = (Ok res2, r2)
  ∧ ∃ final,
      graph_nodes r2 !! "PARIS" = Some final
      ∧ updated_data res2 = Some final
      ∧ final = d2 ∪ (d1 ∪ prior)
      ∧ dom final = dom d1 ∪ dom d2 ∪ dom prior
      ∧ (∀ k v, d1 !! k = Some v → final !! k = Some v)
      ∧ (∀ k v, d2 !! k = Some v → final !! k = Some v)
      ∧ (∀ k, d1 !! k = None → d2 !! k = None → final !! k = prior !! k).
Proof.
  intros d1 d2 prior res1 r1 res2 r2.
  assert (update_entity plain_id "PARIS" d1 demo_rag = (Ok res1, r1)) as E1
    by (vm_compute; reflexivity).
  assert (update_entity plain_id "PARIS" d2 r1 = (Ok res2, r2)) as E2
    by (vm_compute; reflexivity).
  split; [exact E1|]. split; [exact E2|].
  apply (update_entity_twice_disjoint plain_id "PARIS" d1 d2 demo_rag prior
           res1 r1 res2 r2); [vm_compute; reflexivity | exact E1 | reflexivity
                             | exact E2 | reflexivity |].
  apply map_disjoint_singleton_l_2. vm_compute; reflexivity.
Defined.

(** ** Entity merge-update: a fault of the vector index *)

(** C2, as the code runs: when the node write of an entity merge-update
    has completed and the upsert to the entity vector index then raises
    a store fault, the fault reaches the caller and the log holds the
    existence check, the fetch, the node write and the failed upsert, but
    no finalize call on any store, although the graph store now holds
    the merged record: the flag [update_storage], which the [except]
    clause tests, is set only after the vector upsert. *)
Theorem update_entity_fault_skips_finalize h name data r g ev :
  let updated := merged_node_data name data r in
  let payload := entity_upsert h name updated in
  chunk_entity_relation_graph r = Some g →
  entities_vdb r = Some ev →
  is_Some (nodes g !! name) →
  faulty r (HasNode name) = false →
  faulty r (GetNode name) = false →
  faulty r (UpsertNode name updated) = false →
  faulty r (Upsert Ent payload) = true →
  ∃ r',
    update_entity h name data r = (Raise (StoreFault (Upsert Ent payload)), r')
    ∧ new_calls r r'
      = [HasNode name; GetNode name; UpsertNode name updated; Upsert Ent payload]
    ∧ graph_nodes r' !! name = Some updated
    ∧ finalized (new_calls r r') = [].
Proof.
  intros updated payload Hg Hev [x Hx] F1 F2 F3 F4. subst updated payload.
  destruct r as [e0 rv og fl cl]. cbn in Hg, Hev, F1, F2, F3, F4. subst og e0.
  unfold merged_node_data, entity_upsert, graph_nodes in *. cbn in F3, F4 |- *.
  rewrite Hx in F3, F4 |- *.
  eexists. split; [|split; [|split]].
  - unfold_goal. run_with F1. run_with Hx. run_with F2. run_with Hx.
    run_with F3. run_with F4. reflexivity.
  - unfold new_calls. cbn [calls length]. rewrite <- !app_assoc. cbn [app].
    by rewrite drop_app_length.
  - cbn. by rewrite lookup_insert_eq.
  - unfold new_calls. cbn [calls length]. rewrite <- !app_assoc. cbn [app].
    by rewrite drop_app_length.
Qed.

(** C2, on the demo graph with an entity index that is down: the update
    of PARIS writes the node and raises, and nothing is finalized. *)
Lemma update_entity_fault_skips_finalize_witness :
  let data : attrs := {["entity_type" := VStr "CITY"]} in
  let updated := merged_node_data "PARIS" data faulty_rag in
  let payload := entity_upsert plain_id "PARIS" updated in
  ∃ r',
    update_entity plain_id "PARIS" data faulty_rag
    = (Raise (StoreFault (Upsert Ent payload)), r')
    ∧ new_calls faulty_rag r'
      = [HasNode "PARIS"; GetNode "PARIS"; UpsertNode "PARIS" updated; Upsert Ent payload]
    ∧ graph_nodes r' !! "PARIS" = Some updated
    ∧ finalized (new_calls faulty_rag r') = [].
Proof.
  intros data updated payload.
  apply (update_entity_fault_skips_finalize plain_id "PARIS" data faulty_rag
           demo_graph ∅); vm_compute; eauto.
Defined.

(** The batch insertion, by contrast, sets the flag right after the edge
    write: when the upsert to the relation vector index raises, it still
    finalizes every store before the fault reaches the caller. *)
Example insert_custom_relations_fault_finalizes :
  let p := insert_custom_relations plain_id [relation_item "a" "b" "follows" "order"]
             faulty_relation_rag in
  (match p.1 with Raise (StoreFault (Upsert Rel _)) => true | _ => false end) = true
  ∧ omap written_store (new_calls faulty_relation_rag p.2) = [GraphStore; Vdb Rel]
  ∧ finalized (new_calls faulty_relation_rag p.2) = [Vdb Ent; Vdb Rel; GraphStore].
Proof. vm_compute. done. Qed.

(** ** Finalisation *)

Lemma elem_of_concat_fmap {A B} (f : A → list B) (l : list A) (y : B) :
  y ∈ concat (f <$> l) ↔ ∃ x, x ∈ l ∧ y ∈ f x.
Proof.
  induction l as [|x l IH].
  - split; [by intros ?%elem_of_nil|]. by intros (x & ?%elem_of_nil & _).
  - rewrite fmap_cons. cbn [concat]. rewrite elem_of_app, IH. split.
    + intros [H|(x' & H1 & H2)].
      * exists x. split; [apply list_elem_of_here|done].
      * exists x'. split; [by apply list_elem_of_further|done].
    + intros (x' & [->|H1]%elem_of_cons & H2); [by left|right; by exists x'].
Qed.

Lemma made_write_elem l :
  made_write l = true → ∃ c, c ∈ l ∧ is_write c = true.
Proof.
  unfold made_write. rewrite existsb_exists. intros (c & Hc & Hw).
  exists c. by rewrite list_elem_of_In.
Qed.

Lemma finalized_app l1 l2 : finalized (l1 ++ l2) = finalized l1 ++ finalized l2.
Proof. apply omap_app. Qed.

Lemma finalized_index_done ss : finalized (IndexDone <$> ss) = ss.
Proof. induction ss as [|s ss IH]; [done|]. simpl. f_equal. exact IH. Qed.

Lemma item_calls_not_finalize `{U : Upper} ns items :
  finalized (concat (item_calls ns <$> items)) = [].
Proof.
  induction items as [|item items IH]; [done|].
  rewrite fmap_cons. cbn [concat]. rewrite finalized_app, IH, app_nil_r.
  unfold item_calls. by destruct (judge ns item) as [[]|].
Qed.

Lemma item_calls_not_vdb `{U : Upper} ns items :
  vdb_upserts (concat (item_calls ns <$> items)) = [].
Proof.
  induction items as [|item items IH]; [done|].
  rewrite fmap_cons. cbn [concat]. unfold vdb_upserts in *. rewrite omap_app, IH, app_nil_r.
  unfold item_calls. by destruct (judge ns item) as [[]|].
Qed.

(** A loop that stages nothing writes nothing. *)
Lemma item_calls_not_write `{U : Upper} ns items :
  staged_of ns items = [] →
  Forall (fun c => is_write c = false) (concat (item_calls ns <$> items)).
Proof.
  induction items as [|item items IH]; intros Hs; [constructor|].
  rewrite fmap_cons. cbn [concat].
  change (item :: items) with ([item] ++ items) in Hs.
  rewrite staged_of_app in Hs. apply app_eq_nil in Hs as [H1 H2].
  apply Forall_app. split; [|by apply IH].
  unfold staged_of in H1. cbn in H1. unfold item_calls.
  destruct (judge ns item) as [[]|]; [discriminate H1| |]; by repeat constructor.
Qed.

Lemma finalizes_intro r r' pre :
  new_calls r r' = pre ++ (IndexDone <$> present_stores r) →
  finalized pre = [] →
  ∃ pre,
    new_calls r r' = pre ++ (IndexDone <$> present_stores r)
    ∧ finalized pre = []
    ∧ finalized (new_calls r r') = present_stores r.
Proof.
  intros E Hp. exists pre. split; [done|]. split; [done|].
  by rewrite E, finalized_app, Hp, finalized_index_done.
Qed.

Lemma insert_custom_relations_finalizes `{U : Upper} h items :
  finalizes_every_store (insert_custom_relations h items).
Proof.
  intros r res r' H [c [Hc Hw]]%made_write_elem.
  apply insert_custom_relations_ok in H as (_ & _ & [[Hs ->]|(_ & data & rv & _ & ->)]).
  - exfalso. erewrite new_calls_app in Hc by reflexivity.
    apply item_calls_not_write in Hs. rewrite Forall_forall in Hs.
    specialize (Hs c Hc). congruence.
  - apply (finalizes_intro _ _
             (concat (item_calls (graph_nodes r) <$> items) ++ [Upsert Rel data])).
    + apply new_calls_app. unfold after_batch, log_calls, set_vdb, after_loop; cbn.
      by rewrite <- !app_assoc.
    + by rewrite finalized_app, item_calls_not_finalize.
Qed.

Lemma update_entity_finalizes h name data :
  finalizes_every_store (update_entity h name data).
Proof.
  intros r res r' H [c [Hc Hw]]%made_write_elem.
  apply update_entity_returns in H as [_ [(_ & _ & ->)|(_ & _ & _ & ->)]].
  - rewrite new_calls_log in Hc. apply list_elem_of_singleton in Hc. by subst c.
  - eapply finalizes_intro; [by apply new_calls_app|done].
Qed.

Lemma update_relation_finalizes `{U : Upper} h src tgt data :
  finalizes_every_store (update_relation h src tgt data).
Proof.
  intros r res r' H [c [Hc Hw]]%made_write_elem.
  apply update_relation_returns in H as [_ H].
  destruct H as [(_ & _ & ->)|[(_ & _ & _ & ->)|[(_ & _ & _ & _ & ->)|H]]].
  1-3: exfalso; rewrite new_calls_log in Hc; unfold relation_checks in Hc;
       set_unfold; naive_solver.
  destruct H as (_ & _ & _ & _ & _ & content & _ & ->).
  eapply finalizes_intro; [by apply new_calls_app|done].
Qed.

(** In a batch insertion no call writes to the entity vector index. *)
Lemma insert_custom_relations_writes `{U : Upper} h items r res r' c :
  insert_custom_relations h items r = (Ok res, r') →
  c ∈ new_calls r r' →
  written_store c ≠ Some (Vdb Ent).
Proof.
  intros H Hc.
  apply insert_custom_relations_ok in H as (_ & _ & [[Hs ->]|(_ & data & rv & _ & ->)]).
  - erewrite new_calls_app in Hc by reflexivity.
    apply item_calls_not_write in Hs. rewrite Forall_forall in Hs.
    specialize (Hs c Hc). by destruct c.
  - erewrite new_calls_app in Hc; last first.
    { unfold after_batch, log_calls, set_vdb, after_loop; cbn. by rewrite <- !app_assoc. }
    rewrite !elem_of_app in Hc. destruct Hc as [Hc|[Hc|Hc]].
    + apply elem_of_concat_fmap in Hc as (item & _ & Hc).
      unfold item_calls in Hc. destruct (judge _ item) as [[]|]; set_unfold; naive_solver.
    + apply list_elem_of_singleton in Hc. by subst c.
    + apply list_elem_of_fmap in Hc as (s & -> & _). done.
Qed.

(** C3, amended: each of the three state-changing operations that made
    at least one write and returns normally ends by one finalize call on
    every store of [rag] that is not [None] (entity vector index, relation
    vector index, graph store), whether or not it wrote to that store,
    and makes no other finalize call; in particular a batch relation
    insertion, which never writes to the entity vector index, still
    finalizes it when it is present. *)
Theorem finalize_covers_every_present_store `{U : Upper} h :
  (∀ items, finalizes_every_store (insert_custom_relations h items))
  ∧ (∀ name data, finalizes_every_store (update_entity h name data))
  ∧ (∀ src tgt data, finalizes_every_store (update_relation h src tgt data))
  ∧ (∀ items r res r',
       insert_custom_relations h items r = (Ok res, r') →
       made_write (new_calls r r') = true →
       is_Some (entities_vdb r) →
       Vdb Ent ∈ finalized (new_calls r r')
       ∧ ∀ c, c ∈ new_calls r r' → written_store c ≠ Some (Vdb Ent)).
Proof.
  split; [|split; [|split]].
  - apply insert_custom_relations_finalizes.
  - apply update_entity_finalizes.
  - apply update_relation_finalizes.
  - intros items r res r' H Hw [ev Hev]. split.
    + destruct (insert_custom_relations_finalizes h items r res r' H Hw)
        as (pre & _ & _ & ->).
      unfold present_stores. rewrite Hev. set_solver.
    + intros c Hc. by eapply insert_custom_relations_writes.
Qed.

(** C3, on the demo graph: the insertion of the relation from A to B
    writes an edge and a relation record, and ends with a finalize call
    on each of the three stores. *)
Lemma finalize_covers_every_present_store_witness :
  let items := [relation_item "a" "b" "follows" "order"] in
  let r' := (insert_custom_relations plain_id items demo_rag).2 in
  made_write (new_calls demo_rag r') = true
  ∧ Vdb Ent ∈ finalized (new_calls demo_rag r')
  ∧ ∀ c, c ∈ new_calls demo_rag r' → written_store c ≠ Some (Vdb Ent).
Proof.
  cbv zeta.
  destruct (insert_custom_relations plain_id [relation_item "a" "b" "follows" "order"]
              demo_rag) as [o r0] eqn:E.
  cbn [snd].
  assert (∃ res, o = Ok res) as [res ->].
  { pose proof (f_equal fst E) as E1. vm_compute in E1. rewrite <- E1. eauto. }
  assert (made_write (new_calls demo_rag r0) = true) as Hw.
  { pose proof (f_equal snd E) as E2. cbn [snd] in E2. rewrite <- E2.
    vm_compute. reflexivity. }
  split; [exact Hw|].
  apply (proj2 (proj2 (proj2 (finalize_covers_every_present_store plain_id)))
           _ demo_rag res r0 E Hw).
  vm_compute. eauto.
Defined.

(** C3, as stated, fails: the insertion of the relation from A to B on
    the demo graph returns normally, writes to the graph store and to the
    relation vector index only, and yet calls finalize on the entity
    vector index as well. *)
Lemma finalize_reaches_untouched_store :
  let p := insert_custom_relations plain_id [relation_item "a" "b" "follows" "order"]
             demo_rag in
  (total_added <$> (match p.1 with Ok res => Some res | Raise _ => None end)) = Some 1
  ∧ omap written_store (new_calls demo_rag p.2) = [GraphStore; Vdb Rel]
  ∧ finalized (new_calls demo_rag p.2) = [Vdb Ent; Vdb Rel; GraphStore]
  ∧ entities_vdb p.2 = entities_vdb demo_rag.
Proof. vm_compute. done. Qed.

(** ** Batch insertion: the two lists *)

(** The fields of an item that [judge] accepts or rejects. *)
Lemma judge_inv `{U : Upper} ns item v :
  judge ns item = Some v →
  ∃ a b descr kw,
    item !! "src_id" = Some (VStr a) ∧ item !! "tgt_id" = Some (VStr b)
    ∧ item !! "description" = Some descr ∧ item !! "keywords" = Some kw
    ∧ ((is_Some (ns !! normalize a) ∧ is_Some (ns !! normalize b)
        ∧ ∃ edge_data,
            v = Accepted {| src_id := normalize a; tgt_id := normalize b;
                            description := descr; keywords := kw |} edge_data)
       ∨ (¬ (is_Some (ns !! normalize a) ∧ is_Some (ns !! normalize b))
          ∧ v = Rejected
                  {| skipped_src_id := normalize a; skipped_tgt_id := normalize b;
                     reason := skip_reason (bool_decide (is_Some (ns !! normalize a))) |})).
Proof.
  unfold judge. intros H.
  destruct (item !! "src_id") as [[a| |]|]; try discriminate H.
  destruct (item !! "tgt_id") as [[b| |]|]; try discriminate H.
  destruct (item !! "description") as [descr|]; try discriminate H.
  destruct (item !! "keywords") as [kw|]; try discriminate H.
  exists a, b, descr, kw. do 4 (split; [done|]).
  destruct (bool_decide (is_Some (ns !! normalize a))) eqn:B1;
    destruct (bool_decide (is_Some (ns !! normalize b))) eqn:B2;
    cbn [andb] in H; inversion H; subst v; clear H.
  - apply bool_decide_eq_true in B1, B2. left. eauto.
  - apply bool_decide_eq_false in B2. right. split; [tauto|done].
  - apply bool_decide_eq_false in B1. right. split; [tauto|done].
  - apply bool_decide_eq_false in B1. right. split; [tauto|done].
Qed.

Lemma partitioned_length `{U : Upper} items ad sk :
  partitioned items ad sk → length ad + length sk = length items.
Proof. induction 1; cbn; lia. Qed.

Lemma partitioned_judge `{U : Upper} ns items :
  Forall (fun item => is_Some (judge ns item)) items →
  partitioned items (added_of ns items) (skipped_of ns items).
Proof.
  induction 1 as [|item items [v Hv] _ IH]; [constructor|].
  unfold added_of, skipped_of, staged_of in *. cbn [omap list_omap]. rewrite Hv.
  apply judge_inv in Hv as (a & b & descr & kw & E1 & E2 & _ & _ & Hv).
  destruct Hv as [(_ & _ & ed & ->)|(_ & ->)].
  - rewrite fmap_cons. by eapply (partitioned_added _ a b).
  - by eapply (partitioned_skipped _ a b).
Qed.

(** C10: in the result of a batch relation insertion that returns
    normally, each input item has given exactly one entry to exactly one
    of the lists added and skipped (in the order of the input), the entry
    carries the upper-cased, quote-wrapped names of the item, total_added
    and total_skipped are the lengths of the two lists, and the two
    totals add up to the number of input items. *)
Theorem insert_custom_relations_partition `{U : Upper} h items r res r' :
  insert_custom_relations h items r = (Ok res, r') →
  partitioned items (added res) (skipped res)
  ∧ total_added res = length (added res)
  ∧ total_skipped res = length (skipped res)
  ∧ total_added res + total_skipped res = length items.
Proof.
  intros H. apply insert_custom_relations_ok in H as (Hall & -> & _).
  assert (partitioned items (added_of (graph_nodes r) items)
            (skipped_of (graph_nodes r) items)) as Hp.
  { apply partitioned_judge. eapply Forall_impl; [exact Hall|]. by intros x (_ & ? & _). }
  split; [exact Hp|]. cbn. do 2 (split; [done|]). by apply partitioned_length.
Qed.

(** C10, on the demo graph: the batch of the scenario, whose items name
    a, b and c in lower case, gives one added entry, from A to B, and one
    skipped entry, from A to C, with the names in upper case between
    double quotes. *)
Lemma insert_custom_relations_partition_witness :
  let res :=
    {| added := [{| added_src_id := quoted "A"; added_tgt_id := quoted "B" |}];
       skipped := [{| skipped_src_id := quoted "A"; skipped_tgt_id := quoted "C";
                      reason := skip_reason true |}];
       total_added := 1;
       total_skipped := 1 |} in
  (insert_custom_relations plain_id demo_batch demo_rag).1 = Ok res
  ∧ partitioned demo_batch (added res) (skipped res)
  ∧ total_added res = length (added res)
  ∧ total_skipped res = length (skipped res)
  ∧ total_added res + total_skipped res = length demo_batch.
Proof.
  intros res.
  assert (insert_custom_relations plain_id demo_batch demo_rag
          = (Ok res, (insert_custom_relations plain_id demo_batch demo_rag).2)) as E
    by (vm_compute; reflexivity).
  split; [by rewrite E|].
  exact (insert_custom_relations_partition plain_id demo_batch demo_rag res _ E).
Defined.

(** ** Batch insertion: the vector records *)

(** The records of [data_for_vdb]: those it started from, and one per
    key of a staged relation. *)
Lemma data_for_vdb_lookup h dps acc data key rec :
  data_for_vdb h dps acc = Ok data →
  data !! key = Some rec →
  acc !! key = Some rec
  ∨ ∃ dp content,
      dp ∈ dps ∧ key = relation_key h (src_id dp) (tgt_id dp)
      ∧ relation_content (keywords dp) (src_id dp) (tgt_id dp) (description dp) = Ok content
      ∧ rec = relation_record (src_id dp) (tgt_id dp) content.
Proof.
  revert acc. induction dps as [|dp dps IH]; intros acc H Hk; cbn [data_for_vdb] in H.
  - left. congruence.
  - destruct (relation_content _ _ _ _) as [content|e] eqn:Ec; [|discriminate H].
    cbn [obind] in H. destruct (IH _ H Hk) as [Hacc|(dp' & c' & Hin & -> & Hc' & ->)].
    + destruct (decide (h (src_id dp +:+ tgt_id dp) "rel-" = key)) as [<-|Hne].
      * rewrite lookup_insert_eq in Hacc. inversion Hacc; subst rec.
        right. exists dp, content. split; [apply list_elem_of_here|done].
      * left. by rewrite lookup_insert_ne in Hacc.
    + right. exists dp', c'. split; [by apply list_elem_of_further|done].
Qed.



Lemma vdb_upserts_app l1 l2 : vdb_upserts (l1 ++ l2) = vdb_upserts l1 ++ vdb_upserts l2.
Proof. apply omap_app. Qed.

Lemma vdb_upserts_index_done ss : vdb_upserts (IndexDone <$> ss) = [].
Proof. induction ss as [|s ss IH]; [done|]. exact IH. Qed.





(** The items of the scenario. *)
Lemma judge_relation_item `{U : Upper} ns src tgt descr kw :
  judge ns (relation_item src tgt descr kw)
  = if bool_decide (is_Some (ns !! normalize src))
       && bool_decide (is_Some (ns !! normalize tgt))
    then Some (Accepted
                 {| src_id := normalize src; tgt_id := normalize tgt;
                    description := VStr descr; keywords := VStr kw |}
                 (<["weight" := VFloat "1.0"]>
                    (<["description" := VStr descr]>
                       (<["keywords" := VStr kw]>
                          ({["source_id" := VStr "CUSTOM_RELATION"]} : attrs)))))
    else Some (Rejected
                 {| skipped_src_id := normalize src; skipped_tgt_id := normalize tgt;
                    reason := skip_reason (bool_decide (is_Some (ns !! normalize src))) |}).
Proof.
  unfold judge, relation_item, get_default.
  by repeat (rewrite ?lookup_insert_eq, ?lookup_singleton_eq;
             try (rewrite lookup_insert_ne by done);
             try (rewrite lookup_singleton_ne by done); cbn [default]).
Qed.




(** ** Batch insertion: an item with a missing endpoint *)






(** A rejected item leaves no trace but its skip entry and its two
    existence checks. *)
Section Rejected.

Context `{U : Upper}.

Variables (ns : gmap string attrs) (item : attrs) (sk : skipped_relation).
Hypothesis Hrej : judge ns item = Some (Rejected sk).






End Rejected.




(** ** The calls of a batch insertion, whatever its outcome *)

Lemma loop_call_mono `{U : Upper} items items' c :
  (∀ item, item ∈ items → item ∈ items') → loop_call items c → loop_call items' c.
Proof. intros Hsub [item a Hin Ha|item a b d Hin Ha Hb]; econstructor; eauto. Qed.

(** Whatever its outcome, an iteration makes loop calls only. *)
Lemma insert_relation_log `{U : Upper} vars item f o f' :
  insert_relation vars item f = (o, f') →
  ∃ l, calls (rag f') = calls (rag f) ++ l ∧ Forall (loop_call [item]) l.
Proof.
  intros H. destruct f as [us [ev rv og fl cl]].
  assert (item ∈ [item]) as Hin by apply list_elem_of_here.
  exec H; inversion H; subst; clear H; cbn [rag calls].
  all: rewrite <- ?app_assoc; cbn [app].
  all: try (exists []; split; [by rewrite app_nil_r|constructor]).
  all: eexists; split; [reflexivity|].
  all: repeat (apply Forall_cons; split); try apply Forall_nil_2.
  all: try (by eapply loop_upsert_edge).
  all: eapply loop_has_node; eauto.
Qed.

Lemma insert_loop_log `{U : Upper} items vars f o f' :
  for_each insert_relation vars items f = (o, f') →
  ∃ l, calls (rag f') = calls (rag f) ++ l ∧ Forall (loop_call items) l.
Proof.
  revert vars f. induction items as [|item items IH]; intros vars f H.
  - inversion H; subst. exists []. split; [by rewrite app_nil_r|constructor].
  - cbn [for_each] in H. unfold bind in H.
    destruct (insert_relation vars item f) as [[v1|e] f1] eqn:E1.
    + apply insert_relation_log in E1 as (l1 & Hl1 & F1).
      apply IH in H as (l2 & Hl2 & F2).
      exists (l1 ++ l2). split; [by rewrite Hl2, Hl1, app_assoc|].
      apply Forall_app. split.
      * eapply Forall_impl; [exact F1|]. intros c. apply loop_call_mono.
        intros x ->%list_elem_of_singleton. apply list_elem_of_here.
      * eapply Forall_impl; [exact F2|]. intros c. apply loop_call_mono.
        intros x Hx. by apply list_elem_of_further.
    + inversion H; subst. apply insert_relation_log in E1 as (l1 & Hl1 & F1).
      exists l1. split; [done|].
      eapply Forall_impl; [exact F1|]. intros c. apply loop_call_mono.
      intros x ->%list_elem_of_singleton. apply list_elem_of_here.
Qed.

(** Whatever its outcome, a batch insertion makes loop calls, then calls
    of the steps after the loop. *)
(** Close a goal that splits a log into loop calls and tail calls. *)
Ltac tail_calls :=
  first
    [ exists []; split; [apply new_calls_app; norm_log; by rewrite ?app_nil_r|];
      split; [done|constructor]
    | eexists; split; [apply new_calls_app; norm_log; reflexivity|];
      split; [done|];
      repeat (apply Forall_cons; split; [done|]);
      rewrite ?Forall_app, ?Forall_fmap; repeat split; try apply Forall_nil_2;
      apply Forall_forall; intros ? _; apply tail_index_done ].

Lemma insert_custom_relations_log `{U : Upper} h items r o r' :
  insert_custom_relations h items r = (o, r') →
  ∃ l1 l2,
    new_calls r r' = l1 ++ l2
    ∧ Forall (loop_call items) l1 ∧ Forall (tail_call h items r) l2.
Proof.
  intros H.
  unfold insert_custom_relations, run_frame, try_except, insert_custom_relations_body in H.
  unfold bind at 1 in H.
  destruct (for_each insert_relation no_vars items _) as [[vars|e] f1] eqn:Eloop.
  - pose proof (insert_loop_log _ _ _ _ _ Eloop) as (l1 & Hl1 & F1).
    apply insert_loop_ok in Eloop as (_ & Hvars & _).
    apply (f_equal all_relationships_data) in Hvars.
    unfold vars_after, no_vars in Hvars. cbn [all_relationships_data app rag] in Hvars, Hl1.
    exists l1. destruct f1 as [us1 [ev1 rv1 og1 fl1 cl1]]. cbn [rag calls] in Hl1. subst cl1.
    destruct (all_relationships_data vars) as [|dp dps] eqn:Est.
    + exec H; inversion H; subst; clear H; tail_calls.
    + destruct (data_for_vdb h (dp :: dps) ∅) as [data|e] eqn:Edata.
      * assert (tail_call h items r (Upsert Rel data)) as Hup
          by (apply tail_upsert; by rewrite <- Hvars).
        exec H; inversion H; subst; clear H; tail_calls.
      * exec H; inversion H; subst; clear H; tail_calls.
  - pose proof (insert_loop_log _ _ _ _ _ Eloop) as (l1 & Hl1 & F1).
    exists l1. destruct f1 as [us1 [ev1 rv1 og1 fl1 cl1]]. cbn [rag calls] in Hl1. subst cl1.
    exec H; inversion H; subst; clear H; tail_calls.
Qed.

Lemma elem_of_vdb_upserts l v data :
  (v, data) ∈ vdb_upserts l ↔ Upsert v data ∈ l.
Proof.
  unfold vdb_upserts. rewrite list_elem_of_omap. split.
  - intros (c & Hc & E). destruct c; try discriminate E. by inversion E; subst.
  - intros Hc. by exists (Upsert v data).
Qed.

(** ** The keys of the vector records *)

Lemma vdb_upserts_prefix l l' x :
  l `prefix_of` l' → x ∈ vdb_upserts l → x ∈ vdb_upserts l'.
Proof. intros [k ->] H. rewrite vdb_upserts_app. apply elem_of_app. by left. Qed.

Lemma vdb_upserts_update_entity_script h name data r :
  vdb_upserts (update_entity_script h name data r)
  = [(Ent, entity_upsert h name (merged_node_data name data r))].
Proof.
  unfold update_entity_script. cbv zeta.
  by rewrite !vdb_upserts_app, !vdb_upserts_index_done.
Qed.

Lemma vdb_upserts_update_relation_script `{U : Upper} h src tgt data r x :
  x ∈ vdb_upserts (update_relation_script h src tgt data r) →
  ∃ content,
    merged_edge_content src tgt (merged_edge_data src tgt data r) = Ok content
    ∧ x = (Rel, relation_upsert h src tgt content).
Proof.
  unfold update_relation_script. cbv zeta. rewrite vdb_upserts_app.
  destruct (merged_edge_content _ _ _) as [content|e].
  - rewrite !vdb_upserts_app, !vdb_upserts_index_done.
    intros ->%list_elem_of_singleton. eauto.
  - by intros ?%elem_of_nil.
Qed.

(** The one vector upsert an entity merge-update can make. *)
Lemma update_entity_upsert h name data r o r' v payload :
  update_entity h name data r = (o, r') →
  (v, payload) ∈ vdb_upserts (new_calls r r') →
  (v, payload) = (Ent, entity_upsert h name (merged_node_data name data r)).
Proof.
  intros H Hin.
  apply update_entity_log in H as (l & Hl & Hpre).
  rewrite (new_calls_app _ _ _ Hl) in Hin.
  apply (vdb_upserts_prefix _ _ _ Hpre) in Hin.
  rewrite vdb_upserts_update_entity_script in Hin.
  by apply list_elem_of_singleton in Hin.
Qed.

(** C1, amended: the vector record of an entity merge-update is upserted
    under the ent- prefixed digest of the entity name alone, and the one
    of a relation merge-update or insertion under the rel- prefixed digest
    of src_id + tgt_id (the canonical names) alone; the strings
    name + description and keywords + src_id + tgt_id + description are
    the content of the record, not the source of its key.  Consequently
    two merge-updates of the same entity upsert under the same key,
    whatever they do to the description. *)
Theorem vector_keys_are_name_digests `{U : Upper} h :
  (∀ name data r o r' v payload,
     update_entity h name data r = (o, r') →
     (v, payload) ∈ vdb_upserts (new_calls r r') →
     v = Ent
     ∧ ∃ descr,
         payload = {[ h name "ent-" := entity_record name (name +:+ descr) ]}
         ∧ descr = py_str (get_default (merged_node_data name data r) "description"
                             (VStr "")))
  ∧ (∀ src tgt data r o r' v payload,
       update_relation h src tgt data r = (o, r') →
       (v, payload) ∈ vdb_upserts (new_calls r r') →
       v = Rel
       ∧ ∃ content,
           payload = {[ h (normalize src +:+ normalize tgt) "rel-" :=
                          relation_record (normalize src) (normalize tgt) content ]}
           ∧ merged_edge_content src tgt (merged_edge_data src tgt data r) = Ok content)
  ∧ (∀ items r o r' v payload key rec,
       insert_custom_relations h items r = (o, r') →
       (v, payload) ∈ vdb_upserts (new_calls r r') →
       payload !! key = Some rec →
       v = Rel
       ∧ ∃ dp content,
           dp ∈ staged_of (graph_nodes r) items
           ∧ key = h (src_id dp +:+ tgt_id dp) "rel-"
           ∧ relation_content (keywords dp) (src_id dp) (tgt_id dp) (description dp)
             = Ok content
           ∧ rec = relation_record (src_id dp) (tgt_id dp) content)
  ∧ (∀ name data1 data2 r1 r2 o1 o2 r1' r2' payload1 payload2,
       update_entity h name data1 r1 = (o1, r1') →
       update_entity h name data2 r2 = (o2, r2') →
       (Ent, payload1) ∈ vdb_upserts (new_calls r1 r1') →
       (Ent, payload2) ∈ vdb_upserts (new_calls r2 r2') →
       dom payload1 = {[ h name "ent-" ]} ∧ dom payload2 = dom payload1).
Proof.
  pose proof (update_entity_upsert h) as Hent.
  split; [|split; [|split]].
  - intros name data r o r' v payload H Hin.
    specialize (Hent _ _ _ _ _ _ _ H Hin). inversion Hent; subst.
    split; [done|]. eexists. split; [reflexivity|done].
  - intros src tgt data r o r' v payload H Hin.
    apply update_relation_log in H as (l & Hl & Hpre).
    rewrite (new_calls_app _ _ _ Hl) in Hin.
    apply (vdb_upserts_prefix _ _ _ Hpre) in Hin.
    apply vdb_upserts_update_relation_script in Hin as (content & Hc & E).
    inversion E; subst. split; [done|]. exists content. by split.
  - intros items r o r' v payload key rec H Hin Hk.
    apply insert_custom_relations_log in H as (l1 & l2 & E & F1 & F2).
    rewrite E in Hin.
    apply elem_of_vdb_upserts, elem_of_app in Hin as [Hin|Hin].
    + rewrite Forall_forall in F1. specialize (F1 _ Hin). inversion F1.
    + rewrite Forall_forall in F2. specialize (F2 _ Hin).
      inversion F2 as [data Hdata E'|]; subst. split; [done|].
      destruct (data_for_vdb_lookup _ _ _ _ _ _ Hdata Hk)
        as [Hempty|(dp & content & Hdp & -> & Hc & ->)].
      * by rewrite lookup_empty in Hempty.
      * by exists dp, content.
  - intros name data1 data2 r1 r2 o1 o2 r1' r2' payload1 payload2 H1 H2 Hin1 Hin2.
    specialize (Hent _ _ _ _ _ _ _ H1 Hin1) as E1.
    specialize (Hent _ _ _ _ _ _ _ H2 Hin2) as E2.
    inversion E1; inversion E2; subst. unfold entity_upsert.
    by rewrite !dom_singleton_L.
Qed.

(** C1, on the demo graph: the update of the description of PARIS
    upserts its vector record under the digest of PARIS; and the update
    of the relation from a to b, named in lower case, upserts its record
    under the digest of the two names in upper case between double
    quotes. *)
Lemma vector_keys_are_name_digests_witness :
  let data : attrs := {["description" := VStr "city of light"]} in
  let r' := after_update_entity plain_id "PARIS" data demo_rag in
  let payload := entity_upsert plain_id "PARIS" (merged_node_data "PARIS" data demo_rag) in
  let p := update_relation plain_id "a" "b" {["description" := VStr "second"]} demo_rag in
  (update_entity plain_id "PARIS" data demo_rag
   = (Ok (entity_updated "PARIS" (merged_node_data "PARIS" data demo_rag)), r')
   ∧ (Ent, payload) ∈ vdb_upserts (new_calls demo_rag r')
   ∧ Ent = Ent
   ∧ ∃ descr,
       payload = {[ plain_id "PARIS" "ent-" := entity_record "PARIS" ("PARIS" +:+ descr) ]}
       ∧ descr = py_str (get_default (merged_node_data "PARIS" data demo_rag) "description"
                           (VStr "")))
  ∧ vdb_upserts (new_calls demo_rag p.2)
    = [(Rel, {[ plain_id (quoted "A" +:+ quoted "B") "rel-" :=
                  relation_record (quoted "A") (quoted "B")
                    (VStr ("order" +:+ quoted "A" +:+ quoted "B" +:+ "second")) ]})].
Proof.
  intros data r' payload p.
  split; [|vm_compute; reflexivity].
  assert (update_entity plain_id "PARIS" data demo_rag
          = (Ok (entity_updated "PARIS" (merged_node_data "PARIS" data demo_rag)), r'))
    as E by (vm_compute; reflexivity).
  assert ((Ent, payload) ∈ vdb_upserts (new_calls demo_rag r')) as Hin.
  { replace (vdb_upserts (new_calls demo_rag r')) with [(Ent, payload)]
      by (vm_compute; reflexivity).
    apply list_elem_of_here. }
  split; [exact E|]. split; [exact Hin|].
  exact (proj1 (vector_keys_are_name_digests plain_id)
           "PARIS" data demo_rag _ r' Ent payload E Hin).
Defined.

(** C1, as stated, fails.  On the demo graph, the update of the
    description of PARIS upserts one record, under the digest of PARIS and
    not under the digest of PARIS followed by the new description; and
    with no digest function at all is there an entity whose two
    merge-updates in a row upsert under different keys. *)
Lemma vector_key_ignores_description :
  let data : attrs := {["description" := VStr "city of light"]} in
  let p := update_entity plain_id "PARIS" data demo_rag in
  (∃ payload,
     vdb_upserts (new_calls demo_rag p.2) = [(Ent, payload)]
     ∧ dom payload = {[ plain_id "PARIS" "ent-" ]}
     ∧ content_key plain_id "PARIS" "city of light" ∉ dom payload)
  ∧ ¬ (∃ h name data1 data2 r o1 r1 o2 r2 payload1 payload2,
         update_entity h name data1 r = (o1, r1)
         ∧ update_entity h name data2 r1 = (o2, r2)
         ∧ (Ent, payload1) ∈ vdb_upserts (new_calls r r1)
         ∧ (Ent, payload2) ∈ vdb_upserts (new_calls r1 r2)
         ∧ dom payload1 ≠ dom payload2).
Proof.
  intros data p. split.
  - exists (entity_upsert plain_id "PARIS" (merged_node_data "PARIS" data demo_rag)).
    split; [vm_compute; reflexivity|]. unfold entity_upsert.
    rewrite dom_singleton_L. split; [done|].
    rewrite not_elem_of_singleton. intros E. vm_compute in E. discriminate E.
  - intros (h & name & d1 & d2 & r & o1 & r1 & o2 & r2 & p1 & p2 & H1 & H2 & I1 & I2 & Hne).
    pose proof (update_entity_upsert h name d1 r o1 r1 Ent p1 H1 I1) as E1.
    pose proof (update_entity_upsert h name d2 r1 o2 r2 Ent p2 H2 I2) as E2.
    inversion E1; inversion E2; subst. apply Hne.
    unfold entity_upsert. by rewrite !dom_singleton_L.
Qed.

(** ** The names used in graph calls *)

Lemma elem_of_prefix {A} (l l' : list A) x : l `prefix_of` l' → x ∈ l → x ∈ l'.
Proof. intros [k ->] H. apply elem_of_app. by left. Qed.

Lemma graph_keys_index_done (ss : list store) c k :
  c ∈ IndexDone <$> ss → k ∈ graph_keys c → False.
Proof. intros (s & -> & _)%list_elem_of_fmap. by intros ?%elem_of_nil. Qed.

Lemma graph_keys_update_entity_script h name data r c k :
  c ∈ update_entity_script h name data r → k ∈ graph_keys c → k = name.
Proof.
  unfold update_entity_script. cbv zeta. rewrite !elem_of_app.
  intros [Hc|[Hc|Hc]] Hk; [|by destruct (graph_keys_index_done _ _ _ Hc Hk)..].
  repeat (apply elem_of_cons in Hc as [->|Hc]; [set_solver|]).
  by apply elem_of_nil in Hc.
Qed.

Lemma graph_keys_update_relation_script `{U : Upper} h src tgt data r c k :
  c ∈ update_relation_script h src tgt data r → k ∈ graph_keys c →
  k = normalize src ∨ k = normalize tgt.
Proof.
  unfold update_relation_script. cbv zeta. rewrite elem_of_app.
  intros [Hc|Hc] Hk.
  - repeat (apply elem_of_cons in Hc as [->|Hc]; [set_solver|]).
    by apply elem_of_nil in Hc.
  - destruct (merged_edge_content _ _ _); [|by apply elem_of_nil in Hc].
    rewrite !elem_of_app in Hc.
    destruct Hc as [Hc|[Hc|Hc]]; [|by destruct (graph_keys_index_done _ _ _ Hc Hk)..].
    apply list_elem_of_singleton in Hc. subst c. by apply elem_of_nil in Hk.
Qed.

(** C4, amended: an entity merge-update makes its existence check and
    every later graph read and write under the entity name exactly as
    the caller supplied it, with no case folding and no quoting (the
    caller has to pass the key the graph holds); a relation merge-update
    and a batch relation insertion make every graph call under the
    canonical forms (upper case, wrapped in double quotes) of the names
    they were given. *)
Theorem graph_calls_use_these_names `{U : Upper} h :
  (∀ name data r o r' c k,
     update_entity h name data r = (o, r') →
     c ∈ new_calls r r' → k ∈ graph_keys c → k = name)
  ∧ (∀ src tgt data r o r' c k,
       update_relation h src tgt data r = (o, r') →
       c ∈ new_calls r r' → k ∈ graph_keys c →
       k = normalize src ∨ k = normalize tgt)
  ∧ (∀ items r o r' c k,
       insert_custom_relations h items r = (o, r') →
       c ∈ new_calls r r' → k ∈ graph_keys c →
       ∃ item a,
         item ∈ items
         ∧ (item !! "src_id" = Some (VStr a) ∨ item !! "tgt_id" = Some (VStr a))
         ∧ k = normalize a).
Proof.
  split; [|split].
  - intros name data r o r' c k H Hc Hk.
    apply update_entity_log in H as (l & Hl & Hpre).
    rewrite (new_calls_app _ _ _ Hl) in Hc.
    eapply graph_keys_update_entity_script; [by eapply elem_of_prefix|done].
  - intros src tgt data r o r' c k H Hc Hk.
    apply update_relation_log in H as (l & Hl & Hpre).
    rewrite (new_calls_app _ _ _ Hl) in Hc.
    eapply graph_keys_update_relation_script; [by eapply elem_of_prefix|done].
  - intros items r o r' c k H Hc Hk.
    apply insert_custom_relations_log in H as (l1 & l2 & E & F1 & F2).
    rewrite E in Hc.
    apply elem_of_app in Hc as [Hc|Hc].
    + rewrite Forall_forall in F1. specialize (F1 _ Hc).
      destruct F1 as [item a Hin Ha|item a b d Hin Ha Hb]; cbn [graph_keys] in Hk.
      * apply list_elem_of_singleton in Hk. subst k. by exists item, a.
      * apply elem_of_cons in Hk as [->|Hk]; [exists item, a; eauto|].
        apply list_elem_of_singleton in Hk. subst k. exists item, b. eauto.
    + rewrite Forall_forall in F2. specialize (F2 _ Hc).
      destruct F2; by apply elem_of_nil in Hk.
Qed.

(** C4, on the demo graph: the update of PARIS checks, fetches and
    writes the node under the name PARIS as given; the update of the
    relation from a to b, named in lower case, makes five graph calls,
    all of them under the keys A and B in upper case between double
    quotes. *)
Lemma graph_calls_use_these_names_witness :
  let data : attrs := {["entity_type" := VStr "CITY"]} in
  let r' := after_update_entity plain_id "PARIS" data demo_rag in
  let c := UpsertNode "PARIS" (merged_node_data "PARIS" data demo_rag) in
  let p := update_relation plain_id "a" "b" {["description" := VStr "second"]} demo_rag in
  (update_entity plain_id "PARIS" data demo_rag
   = (Ok (entity_updated "PARIS" (merged_node_data "PARIS" data demo_rag)), r')
   ∧ c ∈ new_calls demo_rag r'
   ∧ (∀ k, k ∈ graph_keys c → k = "PARIS"))
  ∧ (graph_keys <$> new_calls demo_rag p.2)
    = [[quoted "A"]; [quoted "B"]; [quoted "A"; quoted "B"]; [quoted "A"; quoted "B"];
       [quoted "A"; quoted "B"]; []; []; []; []]
  ∧ (∀ c k, c ∈ new_calls demo_rag p.2 → k ∈ graph_keys c →
            k = quoted "A" ∨ k = quoted "B").
Proof.
  intros data r' c p.
  split; [|split; [vm_compute; reflexivity|]].
  2: { intros c0 k.
       exact (proj1 (proj2 (graph_calls_use_these_names plain_id))
                "a" "b" {["description" := VStr "second"]} demo_rag p.1 p.2 c0 k
                (surjective_pairing p)). }
  assert (update_entity plain_id "PARIS" data demo_rag
          = (Ok (entity_updated "PARIS" (merged_node_data "PARIS" data demo_rag)), r'))
    as E by (vm_compute; reflexivity).
  assert (c ∈ new_calls demo_rag r') as Hc.
  { change (c ∈ [HasNode "PARIS"; GetNode "PARIS"; c;
                 Upsert Ent (entity_upsert plain_id "PARIS"
                               (merged_node_data "PARIS" data demo_rag))]
                ++ (IndexDone <$> present_stores demo_rag)).
    apply elem_of_app. left. do 2 apply list_elem_of_further. apply list_elem_of_here. }
  split; [exact E|]. split; [exact Hc|].
  intros k.
  exact (proj1 (graph_calls_use_these_names plain_id)
           "PARIS" data demo_rag _ r' c k E Hc).
Defined.

(** C4, as stated, fails: the demo graph holds the entity A under its
    canonical name, and an entity merge-update of a makes its existence
    check under the name a as given, which is not the canonical name, so
    that it reports the entity as missing. *)
Lemma update_entity_does_not_normalize :
  normalize "a" = quoted "A"
  ∧ is_Some (graph_nodes demo_rag !! quoted "A")
  ∧ "a" ≠ quoted "A"
  ∧ update_entity plain_id "a" {["entity_type" := VStr "VOWEL"]} demo_rag
    = (Ok (entity_not_found "a"), log_calls [HasNode "a"] demo_rag).
Proof.
  split; [reflexivity|]. split; [vm_compute; eauto|]. split; [discriminate|].
  vm_compute. reflexivity.
Qed.

(** * Further properties of the operations *)

Lemma no_fault_script (l : list call) : Forall (fun c => faulty demo_rag c = false) l.
Proof. apply Forall_forall. by intros c _. Qed.

(** An entity merge-update whose entity exists goes through all its
    steps when no call of its script faults. *)
Lemma update_entity_runs h name data r :
  is_Some (chunk_entity_relation_graph r) →
  is_Some (graph_nodes r !! name) →
  is_Some (entities_vdb r) →
  Forall (fun c => faulty r c = false) (update_entity_script h name data r) →
  update_entity h name data r
  = (Ok (entity_updated name (merged_node_data name data r)),
     after_update_entity h name data r).
Proof.
  intros [g Hg] [x Hx] [ev Hev] Hf.
  destruct r as [e0 rv og fl cl]. cbn in Hg, Hev. subst og e0.
  unfold update_entity_script, after_update_entity, merged_node_data, entity_upsert,
    graph_nodes in *.
  cbn [chunk_entity_relation_graph] in *. rewrite Hx in Hf |- *.
  cbv zeta in Hf. cbn [app] in Hf.
  rewrite !Forall_cons, Forall_app in Hf. cbn [faulty] in Hf.
  destruct Hf as (F1 & F2 & F3 & F4 & Ffin & _).
  unfold_goal. run_with F1. run_with Hx. run_with F2. run_with Hx.
  run_with F3. run_with F4.
  rewrite insert_done_ok.
  - cbn. f_equal. norm_log. by destruct rv.
  - apply Forall_fmap in Ffin. cbn [faulty]. unfold present_stores in *. cbn in *.
    exact Ffin.
Qed.

Lemma update_relation_runs `{U : Upper} h src tgt data r content :
  is_Some (chunk_entity_relation_graph r) →
  is_Some (graph_nodes r !! normalize src) →
  is_Some (graph_nodes r !! normalize tgt) →
  is_Some (graph_edges r !! (normalize src, normalize tgt)) →
  is_Some (relationships_vdb r) →
  merged_edge_content src tgt (merged_edge_data src tgt data r) = Ok content →
  Forall (fun c => faulty r c = false) (update_relation_script h src tgt data r) →
  update_relation h src tgt data r
  = (Ok (relation_updated src tgt (merged_edge_data src tgt data r)),
     after_update_relation h src tgt data content r).
Proof.
  intros [g Hg] [x Hx] [y Hy] [z Hz] [rv Hrv] Hc Hf.
  destruct r as [ev r0 og fl cl]. cbn in Hg, Hrv. subst og r0.
  unfold update_relation_script, after_update_relation in *.
  rewrite Hc in Hf.
  unfold merged_edge_content, merged_edge_data, relation_upsert,
    graph_nodes, graph_edges in *.
  cbn [chunk_entity_relation_graph] in *. rewrite Hz in Hf, Hc |- *.
  cbv zeta in Hf. cbn [app] in Hf.
  rewrite !Forall_cons, !Forall_app in Hf. cbn [faulty] in Hf.
  destruct Hf as (F1 & F2 & F3 & F4 & F5 & F6 & Ffin & _).
  unfold_goal. run_with F1. run_with Hx. run_with F2. run_with Hy.
  run_with F3. run_with Hz. run_with F4. run_with Hz. run_with F5.
  cbn [or_empty default] in *. rewrite Hc. run_with F6.
  rewrite insert_done_ok.
  - cbn. f_equal. norm_log. by destruct ev.
  - apply Forall_fmap in Ffin. cbn [faulty]. unfold present_stores in *. cbn in *.
    exact Ffin.
Qed.

Lemma merge_edge_data_union current data : merge_edge_data current data = data ∪ current.
Proof.
  unfold merge_edge_data.
  destruct (current !! "source_id") as [s|] eqn:Ec; [|done].
  destruct (data !! "source_id") as [s'|] eqn:Ed; [done|].
  apply insert_id. rewrite lookup_union_r; done.
Qed.

Lemma finalized_new_calls_entity h name data r :
  finalized (new_calls r (after_update_entity h name data r)) = present_stores r.
Proof.
  erewrite new_calls_app; [|unfold after_update_entity; cbn [calls]; reflexivity].
  rewrite finalized_app, finalized_index_done. done.
Qed.

Lemma finalized_new_calls_relation `{U : Upper} h src tgt data content r :
  finalized (new_calls r (after_update_relation h src tgt data content r)) = present_stores r.
Proof.
  erewrite new_calls_app; [|unfold after_update_relation; cbn [calls]; reflexivity].
  rewrite finalized_app, finalized_index_done. done.
Qed.

(** X1: an entity merge-update of an existing entity, on stores none of
    whose calls faults, succeeds; it changes the node of the entity and
    the vector record under the key of the entity, and nothing else. *)
Theorem update_entity_changes_one_record h name data r g ev prior :
  chunk_entity_relation_graph r = Some g →
  nodes g !! name = Some prior →
  entities_vdb r = Some ev →
  Forall (fun c => faulty r c = false) (update_entity_script h name data r) →
  ∃ res r',
    update_entity h name data r = (Ok res, r')
    ∧ status res = "success"
    ∧ updated_data res = Some (data ∪ prior)
    ∧ graph_nodes r' = <[name := data ∪ prior]> (nodes g)
    ∧ graph_edges r' = edges g
    ∧ entities_vdb r'
      = Some (<[h name "ent-" :=
                  entity_record name
                    (name +:+ py_str (get_default (data ∪ prior) "description" (VStr "")))]>
                ev)
    ∧ relationships_vdb r' = relationships_vdb r
    ∧ finalized (new_calls r r') = present_stores r.
Proof.
  intros Hg Hx Hev Hf.
  assert (graph_nodes r !! name = Some prior) as Hn by (unfold graph_nodes; by rewrite Hg).
  eexists _, _. split.
  { apply update_entity_runs; [by rewrite Hg|by rewrite Hn|by rewrite Hev|exact Hf]. }
  unfold merged_node_data. rewrite Hn. cbn [or_empty default].
  split; [done|]. split; [done|].
  rewrite finalized_new_calls_entity.
  unfold after_update_entity, graph_nodes, graph_edges, merged_node_data, entity_upsert.
  cbn [chunk_entity_relation_graph entities_vdb relationships_vdb].
  rewrite Hg, Hev. cbn. unfold graph_nodes. rewrite Hg, Hx. cbn.
  repeat split; try done.
  by rewrite <- insert_union_singleton_l.
Qed.

(** X1, on the demo graph: the update of PARIS with an entity type succeeds and
    changes the node PARIS and the vector record of PARIS only. *)
Lemma update_entity_changes_one_record_witness :
  let data : attrs := {["entity_type" := VStr "CITY"]} in
  let prior : attrs := {["description" := VStr "capital of France"]} in
  ∃ res r',
    update_entity plain_id "PARIS" data demo_rag = (Ok res, r')
    ∧ status res = "success"
    ∧ updated_data res = Some (data ∪ prior)
    ∧ graph_nodes r' = <["PARIS" := data ∪ prior]> (nodes demo_graph)
    ∧ graph_edges r' = edges demo_graph
    ∧ entities_vdb r'
      = Some (<[plain_id "PARIS" "ent-" :=
                  entity_record "PARIS"
                    ("PARIS" +:+ py_str (get_default (data ∪ prior) "description" (VStr "")))]>
                ∅)
    ∧ relationships_vdb r' = relationships_vdb demo_rag
    ∧ finalized (new_calls demo_rag r') = present_stores demo_rag.
Proof.
  intros data prior.
  apply (update_entity_changes_one_record plain_id "PARIS" data demo_rag demo_graph ∅ prior);
    [reflexivity|vm_compute; reflexivity|reflexivity|apply no_fault_script].
Defined.

(** X2: a relation merge-update of an existing relation whose merged
    keywords and description are strings, on stores none of whose calls
    faults, succeeds; it changes the edge and the vector record under the
    key of the relation, and nothing else. *)
Theorem update_relation_changes_one_record `{U : Upper}
    h src tgt data r g rv prior kw descr :
  let ns := normalize src in
  let nt := normalize tgt in
  chunk_entity_relation_graph r = Some g →
  is_Some (nodes g !! ns) →
  is_Some (nodes g !! nt) →
  edges g !! (ns, nt) = Some prior →
  relationships_vdb r = Some rv →
  get_default (data ∪ prior) "keywords" (VStr "") = VStr kw →
  get_default (data ∪ prior) "description" (VStr "") = VStr descr →
  Forall (fun c => faulty r c = false) (update_relation_script h src tgt data r) →
  ∃ res r',
    update_relation h src tgt data r = (Ok res, r')
    ∧ status res = "success"
    ∧ updated_data res = Some (data ∪ prior)
    ∧ graph_nodes r' = nodes g
    ∧ graph_edges r' = <[(ns, nt) := data ∪ prior]> (edges g)
    ∧ relationships_vdb r'
      = Some (<[h (ns +:+ nt) "rel-" :=
                  relation_record ns nt (VStr (((kw +:+ ns) +:+ nt) +:+ descr))]> rv)
    ∧ entities_vdb r' = entities_vdb r
    ∧ finalized (new_calls r r') = present_stores r.
Proof.
  intros ns nt Hg Hs Ht He Hrv Hkw Hd Hf. subst ns nt.
  assert (graph_edges r !! (normalize src, normalize tgt) = Some prior) as He'
    by (unfold graph_edges; by rewrite Hg).
  assert (merged_edge_data src tgt data r = data ∪ prior) as Hm.
  { unfold merged_edge_data. rewrite He'. apply merge_edge_data_union. }
  assert (merged_edge_content src tgt (merged_edge_data src tgt data r)
          = Ok (VStr (((kw +:+ normalize src) +:+ normalize tgt) +:+ descr))) as Hc.
  { rewrite Hm. unfold merged_edge_content. by rewrite Hkw, Hd. }
  eexists _, _. split.
  { eapply update_relation_runs; [| | | | |exact Hc|exact Hf].
    - by rewrite Hg.
    - unfold graph_nodes. by rewrite Hg.
    - unfold graph_nodes. by rewrite Hg.
    - by rewrite He'.
    - by rewrite Hrv. }
  split; [done|]. split; [by rewrite Hm|].
  rewrite finalized_new_calls_relation.
  unfold after_update_relation, graph_nodes, graph_edges, relation_upsert.
  cbn [chunk_entity_relation_graph entities_vdb relationships_vdb].
  rewrite Hm, Hg, Hrv. cbn [fmap option_fmap option_map nodes edges].
  repeat split; try done.
  by rewrite <- insert_union_singleton_l.
Qed.

(** X2, on the demo graph: the update of the relation from A to B with a new
    description succeeds and changes that edge and its vector record only. *)
Lemma update_relation_changes_one_record_witness :
  let data : attrs := {["description" := VStr "second"]} in
  let ns := normalize "a" in
  let nt := normalize "b" in
  ∃ res r',
    update_relation plain_id "a" "b" data demo_rag = (Ok res, r')
    ∧ status res = "success"
    ∧ updated_data res = Some (data ∪ demo_edge)
    ∧ graph_nodes r' = nodes demo_graph
    ∧ graph_edges r' = <[(ns, nt) := data ∪ demo_edge]> (edges demo_graph)
    ∧ relationships_vdb r'
      = Some (<[plain_id (ns +:+ nt) "rel-" :=
                  relation_record ns nt (VStr ((("order" +:+ ns) +:+ nt) +:+ "second"))]> ∅)
    ∧ entities_vdb r' = entities_vdb demo_rag
    ∧ finalized (new_calls demo_rag r') = present_stores demo_rag.
Proof.
  intros data ns nt.
  apply (update_relation_changes_one_record plain_id "a" "b" data demo_rag demo_graph ∅
           demo_edge "order" "second");
    [reflexivity|vm_compute; eauto|vm_compute; eauto|vm_compute; reflexivity|reflexivity
    |vm_compute; reflexivity|vm_compute; reflexivity|apply no_fault_script].
Defined.

(** X3: the record a successful relation merge-update writes is the
    shallow overlay of the incoming attributes on the prior record: every
    incoming attribute, [source_id] included, replaces the stored one, and
    every other attribute keeps its prior value. *)
Theorem update_relation_overlay `{U : Upper} h src tgt data r res r' :
  update_relation h src tgt data r = (Ok res, r') →
  status res = "success" →
  ∃ prior,
    graph_edges r !! (normalize src, normalize tgt) = Some prior
    ∧ updated_data res = Some (data ∪ prior)
    ∧ graph_edges r' !! (normalize src, normalize tgt) = Some (data ∪ prior)
    ∧ (∀ k v, data !! k = Some v → (data ∪ prior) !! k = Some v)
    ∧ (∀ k, data !! k = None → (data ∪ prior) !! k = prior !! k).
Proof.
  intros H Hs.
  apply update_relation_returns in H as (Hg & H).
  destruct H as [(_ & -> & _)|[(_ & _ & -> & _)|[(_ & _ & _ & -> & _)|H]]];
    try discriminate Hs.
  destruct H as (_ & _ & [prior Hp] & _ & -> & content & _ & ->).
  exists prior. split; [done|].
  assert (merged_edge_data src tgt data r = data ∪ prior) as Hm.
  { unfold merged_edge_data. rewrite Hp. apply merge_edge_data_union. }
  split; [by rewrite <- Hm|].
  split; [rewrite after_update_relation_edge by done; by rewrite Hm|].
  split.
  - intros k v Hk. by apply lookup_union_Some_l.
  - intros k Hk. by apply lookup_union_r.
Qed.

(** X3, on the demo graph: an update of the relation from A to B that carries a
    source_id replaces the stored one. *)
Lemma update_relation_overlay_witness :
  let data : attrs := {["source_id" := VStr "chunk-2"]} in
  let res := relation_updated "a" "b" (merged_edge_data "a" "b" data demo_rag) in
  let r' :=
    after_update_relation plain_id "a" "b" data
      (VStr ("order" +:+ normalize "a" +:+ normalize "b" +:+ "first")) demo_rag in
  update_relation plain_id "a" "b" data demo_rag = (Ok res, r')
  ∧ ∃ prior,
      graph_edges demo_rag !! (normalize "a", normalize "b") = Some prior
      ∧ updated_data res = Some (data ∪ prior)
      ∧ graph_edges r' !! (normalize "a", normalize "b") = Some (data ∪ prior)
      ∧ (∀ k v, data !! k = Some v → (data ∪ prior) !! k = Some v)
      ∧ (∀ k, data !! k = None → (data ∪ prior) !! k = prior !! k).
Proof.
  intros data res r'.
  assert (update_relation plain_id "a" "b" data demo_rag = (Ok res, r')) as E
    by (vm_compute; reflexivity).
  split; [exact E|].
  exact (update_relation_overlay plain_id "a" "b" data demo_rag res r' E eq_refl).
Defined.

(** X4: an entity merge-update that returns reports a failure exactly when
    the graph holds no node under the name as given; it has then made its
    existence check and no other call, so that no store has changed. *)
Theorem update_entity_missing h name data r res r' :
  update_entity h name data r = (Ok res, r') →
  (status res = "failed" ↔ graph_nodes r !! name = None)
  ∧ (graph_nodes r !! name = None →
     res = entity_not_found name
     ∧ new_calls r r' = [HasNode name]
     ∧ chunk_entity_relation_graph r' = chunk_entity_relation_graph r
     ∧ entities_vdb r' = entities_vdb r
     ∧ relationships_vdb r' = relationships_vdb r).
Proof.
  intros H.
  apply update_entity_returns in H as (Hg & [(Hn & -> & ->)|(Hn & _ & -> & ->)]).
  - split; [done|]. intros _. split; [done|]. by rewrite new_calls_log.
  - split.
    + split; [discriminate|]. intros E. rewrite E in Hn. by destruct Hn.
    + intros E. rewrite E in Hn. by destruct Hn.
Qed.

(** X4, on the demo graph, which holds A under its canonical name only: the
    update of a reports a failure after its existence check. *)
Lemma update_entity_missing_witness :
  let data : attrs := {["entity_type" := VStr "VOWEL"]} in
  let res := entity_not_found "a" in
  let r' := log_calls [HasNode "a"] demo_rag in
  update_entity plain_id "a" data demo_rag = (Ok res, r')
  ∧ (status res = "failed" ↔ graph_nodes demo_rag !! "a" = None)
  ∧ (graph_nodes demo_rag !! "a" = None →
     res = entity_not_found "a"
     ∧ new_calls demo_rag r' = [HasNode "a"]
     ∧ chunk_entity_relation_graph r' = chunk_entity_relation_graph demo_rag
     ∧ entities_vdb r' = entities_vdb demo_rag
     ∧ relationships_vdb r' = relationships_vdb demo_rag).
Proof.
  intros data res r'.
  assert (update_entity plain_id "a" data demo_rag = (Ok res, r')) as E
    by (vm_compute; reflexivity).
  split; [exact E|].
  exact (update_entity_missing plain_id "a" data demo_rag res r' E).
Defined.

Lemma relation_content_raises kw s t descr e :
  relation_content kw s t descr = Raise e → e = TypeError.
Proof.
  unfold relation_content, obind, py_add.
  destruct kw, descr; intros E; by inversion E.
Qed.


(** X5: when the edge write of a relation merge-update has completed and
    the upsert to the relation vector index raises a store fault, the
    fault reaches the caller, the graph holds the merged edge, the
    relation index is as before, and no store has been finalized. *)
Theorem update_relation_fault_skips_finalize `{U : Upper}
    h src tgt data r g rv prior content :
  let ns := normalize src in
  let nt := normalize tgt in
  let updated := data ∪ prior in
  let payload := relation_upsert h src tgt content in
  chunk_entity_relation_graph r = Some g →
  is_Some (nodes g !! ns) →
  is_Some (nodes g !! nt) →
  edges g !! (ns, nt) = Some prior →
  relationships_vdb r = Some rv →
  merged_edge_content src tgt updated = Ok content →
  Forall (fun c => faulty r c = false) (update_relation_writes src tgt updated) →
  faulty r (Upsert Rel payload) = true →
  ∃ r',
    update_relation h src tgt data r = (Raise (StoreFault (Upsert Rel payload)), r')
    ∧ new_calls r r' = update_relation_writes src tgt updated ++ [Upsert Rel payload]
    ∧ graph_edges r' !! (ns, nt) = Some updated
    ∧ relationships_vdb r' = Some rv
    ∧ finalized (new_calls r r') = [].
Proof.
  intros ns nt updated payload Hg [x Hx] [y Hy] Hz Hrv Hc Hf F6. subst ns nt updated payload.
  destruct r as [ev r0 og fl cl]. cbn in Hg, Hrv. subst og r0.
  unfold update_relation_writes, merged_edge_content, relation_upsert in *.
  rewrite !Forall_cons in Hf. cbn [faulty] in Hf, F6.
  destruct Hf as (F1 & F2 & F3 & F4 & F5 & _).
  eexists. split; [|split; [|split; [|split]]].
  - unfold_goal. run_with F1. run_with Hx. run_with F2. run_with Hy.
    run_with F3. run_with Hz. run_with F4. run_with Hz.
    cbn [or_empty default from_option id]. rewrite merge_edge_data_union. run_with F5.
    rewrite Hc. run_with F6. reflexivity.
  - apply new_calls_app. cbn [calls]. rewrite <- !app_assoc. reflexivity.
  - cbn. by rewrite lookup_insert_eq.
  - done.
  - erewrite new_calls_app; [|cbn [calls]; rewrite <- !app_assoc; reflexivity]. done.
Qed.

(** X5, on the demo graph with a relation index that is down: the update of
    the relation from A to B writes the edge and raises, and nothing is
    finalized. *)
Lemma update_relation_fault_skips_finalize_witness :
  let data : attrs := {["description" := VStr "second"]} in
  let ns := normalize "a" in
  let nt := normalize "b" in
  let updated := data ∪ demo_edge in
  let payload :=
    relation_upsert plain_id "a" "b" (VStr ((("order" +:+ ns) +:+ nt) +:+ "second")) in
  ∃ r',
    update_relation plain_id "a" "b" data faulty_relation_rag
    = (Raise (StoreFault (Upsert Rel payload)), r')
    ∧ new_calls faulty_relation_rag r'
      = update_relation_writes "a" "b" updated ++ [Upsert Rel payload]
    ∧ graph_edges r' !! (ns, nt) = Some updated
    ∧ relationships_vdb r' = Some ∅
    ∧ finalized (new_calls faulty_relation_rag r') = [].
Proof.
  intros data ns nt updated payload.
  apply (update_relation_fault_skips_finalize plain_id "a" "b" data faulty_relation_rag
           demo_graph ∅ demo_edge (VStr ((("order" +:+ ns) +:+ nt) +:+ "second")));
    [reflexivity|vm_compute; eauto|vm_compute; eauto|vm_compute; reflexivity|reflexivity
    |vm_compute; reflexivity|by repeat constructor|reflexivity].
Defined.



Lemma for_each_app {S A B} (f : B → A → M S B) acc l1 l2 s :
  for_each f acc (l1 ++ l2) s
  = match for_each f acc l1 s with
    | (Ok acc', s') => for_each f acc' l2 s'
    | (Raise e, s') => (Raise e, s')
    end.
Proof.
  revert acc s. induction l1 as [|x l1 IH]; intros acc s; [done|].
  cbn [app for_each]. unfold bind.
  destruct (f acc x s) as [[acc'|e] s']; [apply IH|done].
Qed.

Lemma insert_relation_raises `{U : Upper} vars item f e :
  item_error item = Some e → insert_relation vars item f = (Raise e, f).
Proof.
  unfold item_error. intros E. unfold_goal.
  destruct (item !! "src_id") as [[]|]; try (by inversion E).
  destruct (item !! "tgt_id") as [[]|]; try (by inversion E).
  destruct (item !! "description") as [?|]; try (by inversion E).
  destruct (item !! "keywords") as [?|]; try (by inversion E).
Qed.

(** X7: an empty batch returns empty lists and zero counts, whatever the
    stores are (absent, or faulting on every call): it makes no store
    call and leaves the object as it is. *)
Theorem insert_custom_relations_empty `{U : Upper} h r :
  insert_custom_relations h [] r = (Ok nothing_inserted, r).
Proof. by destruct r. Qed.

Lemma adds_edges_only_refl r : adds_edges_only r r.
Proof. split; [done|]. split; [done|]. by intros s t []. Qed.

Lemma adds_edges_only_trans r1 r2 r3 :
  adds_edges_only r1 r2 → adds_edges_only r2 r3 → adds_edges_only r1 r3.
Proof.
  intros (N1 & E1 & H1) (N2 & E2 & H2).
  split; [by rewrite N2|]. split; [by rewrite E2|].
  intros s t Hne.
  destruct (decide (graph_edges r2 !! (s, t) = graph_edges r1 !! (s, t))) as [E|E].
  - rewrite <- N1. apply H2. by rewrite E.
  - by apply H1.
Qed.

Lemma insert_relation_frame `{U : Upper} vars item f o f' :
  insert_relation vars item f = (o, f') →
  adds_edges_only (rag f) (rag f')
  ∧ relationships_vdb (rag f') = relationships_vdb (rag f)
  ∧ faulty (rag f') = faulty (rag f).
Proof.
  intros H. destruct f as [us [ev rv og fl cl]].
  unfold adds_edges_only, graph_nodes, graph_edges.
  exec H; inversion H; subst; clear H; cbn [rag entities_vdb relationships_vdb faulty
    chunk_entity_relation_graph nodes edges].
  all: repeat split; try done.
  all: try (by intros k1 k2 []).
  all: apply orb_false_iff in Heqb1 as [B1 B2].
  all: apply negb_false_iff, bool_decide_eq_true in B1, B2.
  all: match goal with
       | Hne : <[?k := _]> _ !! ?k' ≠ _ |- _ =>
           destruct (decide (k = k')) as [E|E];
             [inversion E; by subst|by rewrite lookup_insert_ne in Hne]
       end.
Qed.

Lemma insert_loop_frame `{U : Upper} items vars f o f' :
  for_each insert_relation vars items f = (o, f') →
  adds_edges_only (rag f) (rag f')
  ∧ relationships_vdb (rag f') = relationships_vdb (rag f)
  ∧ faulty (rag f') = faulty (rag f).
Proof.
  revert vars f. induction items as [|item items IH]; intros vars f H.
  - inversion H; subst. split; [apply adds_edges_only_refl|done].
  - cbn [for_each] in H. unfold bind in H.
    destruct (insert_relation vars item f) as [[v1|e] f1] eqn:E1.
    + apply insert_relation_frame in E1 as (A1 & R1 & F1).
      apply IH in H as (A2 & R2 & F2).
      split; [by eapply adds_edges_only_trans|]. split; congruence.
    + inversion H; subst. by apply insert_relation_frame in E1.
Qed.

(** X8: whatever its outcome, a batch insertion leaves the nodes of the
    graph and the entity index as they were, and changes an edge only
    between two nodes that exist: it never creates an endpoint. *)
Theorem insert_custom_relations_adds_edges_only `{U : Upper} h items r o r' :
  insert_custom_relations h items r = (o, r') →
  graph_nodes r' = graph_nodes r
  ∧ entities_vdb r' = entities_vdb r
  ∧ ∀ s t, graph_edges r' !! (s, t) ≠ graph_edges r !! (s, t) →
           is_Some (graph_nodes r !! s) ∧ is_Some (graph_nodes r !! t).
Proof.
  intros H. change (adds_edges_only r r').
  unfold insert_custom_relations, run_frame, try_except, insert_custom_relations_body in H.
  unfold bind at 1 in H.
  destruct (for_each insert_relation no_vars items _) as [[vars|e] f1] eqn:Eloop.
  all: apply insert_loop_frame in Eloop as (A & _ & _); cbn [rag] in A.
  all: eapply adds_edges_only_trans; [exact A|].
  all: destruct f1 as [us1 r1]; cbn [rag].
  all: unfold adds_edges_only, graph_nodes, graph_edges.
  all: destruct r1 as [ev1 rv1 og1 fl1 cl1].
  - destruct (all_relationships_data vars) as [|dp dps].
    + exec H; inversion H; subst; clear H; cbn; repeat split; try done;
        by intros k1 k2 [].
    + destruct (data_for_vdb h (dp :: dps) ∅) as [data|e] eqn:Edata.
      all: exec H; inversion H; subst; clear H; cbn; repeat split; try done;
        by intros k1 k2 [].
  - exec H; inversion H; subst; clear H; cbn; repeat split; try done;
      by intros k1 k2 [].
Qed.

(** X8, on the demo graph and the demo batch. *)
Lemma insert_custom_relations_adds_edges_only_witness :
  let p := insert_custom_relations plain_id demo_batch demo_rag in
  graph_nodes p.2 = graph_nodes demo_rag
  ∧ entities_vdb p.2 = entities_vdb demo_rag
  ∧ ∀ s t, graph_edges p.2 !! (s, t) ≠ graph_edges demo_rag !! (s, t) →
           is_Some (graph_nodes demo_rag !! s) ∧ is_Some (graph_nodes demo_rag !! t).
Proof.
  intros p.
  exact (insert_custom_relations_adds_edges_only plain_id demo_batch demo_rag p.1 p.2
           (surjective_pairing p)).
Defined.

Lemma demo_item_runs `{U : Upper} src tgt descr kw :
  item_runs demo_rag (relation_item src tgt descr kw).
Proof.
  split; [by eexists|]. split; [|apply no_fault_script].
  rewrite judge_relation_item. by destruct (_ && _).
Qed.


Lemma present_stores_after_loop `{U : Upper} ns items r :
  present_stores (after_loop ns items r) = present_stores r.
Proof.
  unfold present_stores, after_loop. cbn.
  by destruct (chunk_entity_relation_graph r).
Qed.

Lemma edges_after_snoc `{U : Upper} ns items item es :
  edges_after ns (items ++ [item]) es = write_edge ns (edges_after ns items es) item.
Proof. unfold edges_after. by rewrite foldl_app. Qed.

Lemma staged_of_snoc `{U : Upper} ns items item :
  staged_of ns (items ++ [item])
  = staged_of ns items
    ++ match judge ns item with
       | Some (Accepted dp _) => [dp]
       | _ => []
       end.
Proof.
  rewrite staged_of_app. f_equal. unfold staged_of. cbn.
  by destruct (judge ns item) as [[]|].
Qed.

(** The edge of every relation the loop staged is in the graph after
    the loop. *)
Lemma edges_after_staged `{U : Upper} ns items es dp :
  dp ∈ staged_of ns items → is_Some (edges_after ns items es !! (src_id dp, tgt_id dp)).
Proof.
  induction items as [|item items IH] using rev_ind; [by intros ?%elem_of_nil|].
  rewrite staged_of_snoc, edges_after_snoc, elem_of_app. unfold write_edge.
  destruct (judge ns item) as [[dp' ed|sk]|] eqn:Ej.
  - intros [Hin| ->%list_elem_of_singleton].
    + destruct (decide ((src_id dp', tgt_id dp') = (src_id dp, tgt_id dp))) as [E|E].
      * rewrite E, lookup_insert_eq. by eexists.
      * rewrite lookup_insert_ne by done. by apply IH.
    + rewrite lookup_insert_eq. by eexists.
  - intros [Hin|Hin%elem_of_nil]; [by apply IH|done].
  - intros [Hin|Hin%elem_of_nil]; [by apply IH|done].
Qed.

Lemma graph_edges_after_loop `{U : Upper} ns items r :
  is_Some (chunk_entity_relation_graph r) →
  graph_edges (after_loop ns items r) = edges_after ns items (graph_edges r).
Proof. intros [g Hg]. unfold graph_edges, after_loop. cbn. by rewrite Hg. Qed.

Lemma staged_of_graph `{U : Upper} r items dp :
  Forall (item_runs r) items → dp ∈ staged_of (graph_nodes r) items →
  is_Some (chunk_entity_relation_graph r).
Proof.
  intros Hall Hin. destruct items as [|item items]; [by apply elem_of_nil in Hin|].
  apply Forall_cons in Hall as [(Hg & _) _]. exact Hg.
Qed.

(** X9: when the loop of a batch meets an item that lacks a required
    field, or whose name is not a string, after items on which it ran,
    the batch raises the error of that item and processes no later item.
    The edges of the earlier accepted items stay in the graph; no vector
    record is written for them; every store is finalized when there was
    such an edge, and none otherwise. *)
Theorem insert_custom_relations_item_error `{U : Upper} h pre item post r e :
  let ns := graph_nodes r in
  Forall (item_runs r) pre →
  item_error item = Some e →
  Forall (fun s => faulty r (IndexDone s) = false) (present_stores r) →
  ∃ r',
    insert_custom_relations h (pre ++ item :: post) r = (Raise e, r')
    ∧ new_calls r r'
      = concat (item_calls ns <$> pre)
        ++ (if nonempty (staged_of ns pre) then IndexDone <$> present_stores r else [])
    ∧ (∀ dp, dp ∈ staged_of ns pre → is_Some (graph_edges r' !! (src_id dp, tgt_id dp)))
    ∧ relationships_vdb r' = relationships_vdb r
    ∧ vdb_upserts (new_calls r r') = [].
Proof.
  intros ns Hall He Hfin. subst ns.
  pose proof (insert_loop_runs pre no_vars {| update_storage := false; rag := r |} Hall)
    as Eloop.
  cbn [rag] in Eloop.
  exists (log_calls (if nonempty (staged_of (graph_nodes r) pre)
                     then IndexDone <$> present_stores r else [])
            (after_loop (graph_nodes r) pre r)).
  split; [|split; [|split; [|split]]].
  - unfold insert_custom_relations, run_frame, try_except, insert_custom_relations_body.
    unfold bind at 1. rewrite for_each_app, Eloop. cbn [for_each]. unfold bind at 1.
    rewrite (insert_relation_raises _ _ _ _ He).
    unfold frame_after. cbn [update_storage rag orb].
    destruct (staged_of (graph_nodes r) pre) as [|dp dps]; cbn [nonempty].
    + unfold_goal. by rewrite log_calls_nil.
    + unfold_goal. rewrite insert_done_ok.
      * by rewrite present_stores_after_loop.
      * by rewrite present_stores_after_loop.
  - apply new_calls_app. unfold log_calls, after_loop. cbn [calls].
    by rewrite app_assoc.
  - intros dp Hdp.
    pose proof (staged_of_graph _ _ _ Hall Hdp) as Hg.
    replace (graph_edges (log_calls _ _))
      with (graph_edges (after_loop (graph_nodes r) pre r)) by done.
    rewrite graph_edges_after_loop by done. by apply edges_after_staged.
  - done.
  - erewrite new_calls_app; [|unfold log_calls, after_loop; cbn [calls]; by rewrite app_assoc].
    rewrite vdb_upserts_app, item_calls_not_vdb.
    destruct (nonempty _); [apply vdb_upserts_index_done|done].
Qed.

(** X9, on the demo graph: a batch whose second item lacks its target raises
    the KeyError of tgt_id after the edge of the first item was written, and
    finalizes every store. *)
Lemma insert_custom_relations_item_error_witness :
  let ns := graph_nodes demo_rag in
  let pre := [relation_item "a" "b" "follows" "order"] in
  ∃ r',
    insert_custom_relations plain_id (pre ++ item_without_target :: []) demo_rag
    = (Raise (KeyError "tgt_id"), r')
    ∧ new_calls demo_rag r'
      = concat (item_calls ns <$> pre)
        ++ (if nonempty (staged_of ns pre) then IndexDone <$> present_stores demo_rag else [])
    ∧ (∀ dp, dp ∈ staged_of ns pre → is_Some (graph_edges r' !! (src_id dp, tgt_id dp)))
    ∧ relationships_vdb r' = relationships_vdb demo_rag
    ∧ vdb_upserts (new_calls demo_rag r') = [].
Proof.
  intros ns pre.
  apply (insert_custom_relations_item_error plain_id pre item_without_target [] demo_rag
           (KeyError "tgt_id")).
  - apply Forall_cons. split; [apply demo_item_runs|apply Forall_nil_2].
  - reflexivity.
  - apply Forall_forall. by intros s _.
Defined.

(** X10: when the loop of a batch has staged relations and the step after
    it fails (the content of a record cannot be built because a
    description or the keywords are not strings, or the upsert to the
    relation index raises a store fault), the failure reaches the caller
    after every store was finalized; the edges of the accepted items are
    in the graph, and the relation index is as before. *)
Theorem insert_custom_relations_late_failure `{U : Upper} h items r rv :
  let ns := graph_nodes r in
  Forall (item_runs r) items →
  staged_of ns items ≠ [] →
  relationships_vdb r = Some rv →
  (∀ data, data_for_vdb h (staged_of ns items) ∅ = Ok data →
           faulty r (Upsert Rel data) = true) →
  Forall (fun s => faulty r (IndexDone s) = false) (present_stores r) →
  ∃ r',
    insert_custom_relations h items r
    = (Raise match data_for_vdb h (staged_of ns items) ∅ with
             | Ok data => StoreFault (Upsert Rel data)
             | Raise e => e
             end, r')
    ∧ (∀ dp, dp ∈ staged_of ns items → is_Some (graph_edges r' !! (src_id dp, tgt_id dp)))
    ∧ relationships_vdb r' = Some rv
    ∧ finalized (new_calls r r') = present_stores r.
Proof.
  intros ns Hall Hne Hrv Hup Hfin. subst ns.
  pose proof (insert_loop_runs items no_vars {| update_storage := false; rag := r |} Hall)
    as Eloop.
  cbn [rag] in Eloop.
  assert (is_Some (chunk_entity_relation_graph r)) as Hg.
  { destruct (staged_of (graph_nodes r) items) as [|dp dps] eqn:E; [done|].
    apply (staged_of_graph r items dp Hall). rewrite E. apply list_elem_of_here. }
  exists (log_calls
            (match data_for_vdb h (staged_of (graph_nodes r) items) ∅ with
             | Ok data => [Upsert Rel data]
             | Raise _ => []
             end ++ (IndexDone <$> present_stores r))
            (after_loop (graph_nodes r) items r)).
  split; [|split; [|split]].
  - unfold insert_custom_relations, run_frame, try_except, insert_custom_relations_body.
    unfold bind at 1. rewrite Eloop.
    unfold vars_after, no_vars, frame_after.
    cbn [all_relationships_data added_relations skipped_relations app
         update_storage rag orb].
    destruct (staged_of (graph_nodes r) items) as [|dp dps] eqn:Est; [done|].
    cbn [nonempty]. unfold_goal.
    assert (relationships_vdb (after_loop (graph_nodes r) items r) = Some rv) as Erv'
      by done.
    assert (faulty (after_loop (graph_nodes r) items r) = faulty r) as Ef by done.
    destruct (data_for_vdb h (dp :: dps) ∅) as [data|e'] eqn:Edata.
    + run_with Erv'. rewrite Ef. rewrite (Hup data eq_refl).
      cbn [rag update_storage entities_vdb relationships_vdb chunk_entity_relation_graph
           faulty calls fst snd].
      rewrite insert_done_ok.
      * cbn [fst snd rag]. f_equal.
        replace (present_stores _) with (present_stores r).
        { unfold log_calls, after_loop.
          cbn [entities_vdb relationships_vdb chunk_entity_relation_graph faulty calls].
          rewrite Hrv. by rewrite <- !app_assoc. }
        unfold present_stores, after_loop; cbn. rewrite Hrv.
        by destruct (entities_vdb r), (chunk_entity_relation_graph r).
      * cbn [faulty].
        replace (present_stores _) with (present_stores r); [done|].
        unfold present_stores, after_loop; cbn. rewrite Hrv.
        by destruct (entities_vdb r), (chunk_entity_relation_graph r).
    + cbn [rag update_storage entities_vdb relationships_vdb chunk_entity_relation_graph
           faulty calls fst snd].
      rewrite insert_done_ok.
      * by rewrite present_stores_after_loop.
      * by rewrite present_stores_after_loop.
  - intros dp Hdp.
    replace (graph_edges (log_calls _ _))
      with (graph_edges (after_loop (graph_nodes r) items r)) by done.
    rewrite graph_edges_after_loop by done. by apply edges_after_staged.
  - done.
  - erewrite new_calls_app;
      [|unfold log_calls, after_loop; cbn [calls]; rewrite <- app_assoc; reflexivity].
    rewrite !finalized_app, item_calls_not_finalize, finalized_index_done.
    by destruct (data_for_vdb _ _ _).
Qed.

(** X10, on the demo graph with a relation index that is down: the batch with
    the relation from A to B writes the edge, raises the store fault, and
    finalizes every store. *)
Lemma insert_custom_relations_late_failure_witness :
  let ns := graph_nodes faulty_relation_rag in
  let items := [relation_item "a" "b" "follows" "order"] in
  ∃ r',
    insert_custom_relations plain_id items faulty_relation_rag
    = (Raise match data_for_vdb plain_id (staged_of ns items) ∅ with
             | Ok data => StoreFault (Upsert Rel data)
             | Raise e => e
             end, r')
    ∧ (∀ dp, dp ∈ staged_of ns items → is_Some (graph_edges r' !! (src_id dp, tgt_id dp)))
    ∧ relationships_vdb r' = Some ∅
    ∧ finalized (new_calls faulty_relation_rag r') = present_stores faulty_relation_rag.
Proof.
  intros ns items.
  apply (insert_custom_relations_late_failure plain_id items faulty_relation_rag ∅).
  - apply Forall_cons. split; [|apply Forall_nil_2].
    split; [by eexists|]. split; [vm_compute; eauto|].
    rewrite Forall_forall. intros c Hc.
    unfold item_calls in Hc. rewrite judge_relation_item in Hc.
    change (bool_decide (is_Some (graph_nodes faulty_relation_rag !! normalize "a"))
            && bool_decide (is_Some (graph_nodes faulty_relation_rag !! normalize "b")))
      with true in Hc.
    cbn iota beta in Hc. cbn [src_id tgt_id] in Hc.
    rewrite !elem_of_cons, elem_of_nil in Hc.
    by destruct Hc as [->|[->|[->|[]]]].
  - intros E. vm_compute in E. discriminate E.
  - reflexivity.
  - intros data _. reflexivity.
  - apply Forall_forall. by intros s _.
Defined.

Lemma edges_after_app `{U : Upper} ns l1 l2 es :
  edges_after ns (l1 ++ l2) es = edges_after ns l2 (edges_after ns l1 es).
Proof. unfold edges_after. by rewrite foldl_app. Qed.

Lemma staged_of_cons `{U : Upper} ns item items :
  staged_of ns (item :: items)
  = match judge ns item with
    | Some (Accepted dp _) => [dp]
    | _ => []
    end ++ staged_of ns items.
Proof. unfold staged_of. simpl. by destruct (judge ns item) as [[]|]. Qed.

Lemma edges_after_other `{U : Upper} ns items es k :
  (∀ dp, dp ∈ staged_of ns items → (src_id dp, tgt_id dp) ≠ k) →
  edges_after ns items es !! k = es !! k.
Proof.
  revert es. induction items as [|item items IH]; intros es Hk; [done|].
  change (edges_after ns (item :: items) es)
    with (edges_after ns items (write_edge ns es item)).
  rewrite IH.
  - unfold write_edge. destruct (judge ns item) as [[dp ed|sk]|] eqn:Ej; try done.
    rewrite lookup_insert_ne; [done|]. apply Hk.
    rewrite staged_of_cons, Ej. apply list_elem_of_here.
  - intros dp Hdp. apply Hk. rewrite staged_of_cons. apply elem_of_app. by right.
Qed.

Lemma data_for_vdb_other h dps acc data k :
  data_for_vdb h dps acc = Ok data →
  (∀ dp, dp ∈ dps → relation_key h (src_id dp) (tgt_id dp) ≠ k) →
  data !! k = acc !! k.
Proof.
  revert acc. induction dps as [|dp dps IH]; intros acc H Hk.
  - by inversion H.
  - cbn [data_for_vdb] in H.
    destruct (relation_content _ _ _ _) as [content|e]; [|done]. cbn [obind] in H.
    rewrite (IH _ H).
    + rewrite lookup_insert_ne; [done|]. apply Hk, list_elem_of_here.
    + intros dp' Hdp'. by apply Hk, list_elem_of_further.
Qed.

Lemma data_for_vdb_last h l1 dp l2 acc data :
  data_for_vdb h (l1 ++ dp :: l2) acc = Ok data →
  (∀ dp', dp' ∈ l2 →
          relation_key h (src_id dp') (tgt_id dp') ≠ relation_key h (src_id dp) (tgt_id dp)) →
  ∃ content,
    relation_content (keywords dp) (src_id dp) (tgt_id dp) (description dp) = Ok content
    ∧ data !! relation_key h (src_id dp) (tgt_id dp)
      = Some (relation_record (src_id dp) (tgt_id dp) content).
Proof.
  revert acc. induction l1 as [|x l1 IH]; intros acc H Hk.
  - cbn [app data_for_vdb] in H.
    destruct (relation_content _ _ _ _) as [content|e]; [|done]. cbn [obind] in H.
    exists content. split; [done|].
    rewrite (data_for_vdb_other _ _ _ _ _ H Hk). apply lookup_insert_eq.
  - cbn [app data_for_vdb] in H.
    destruct (relation_content (keywords x) _ _ _) as [content|e]; [|done].
    cbn [obind] in H. by eapply IH.
Qed.

Lemma elem_of_staged_of `{U : Upper} ns items dp :
  dp ∈ staged_of ns items →
  ∃ item a b,
    item ∈ items ∧ item !! "src_id" = Some (VStr a) ∧ item !! "tgt_id" = Some (VStr b)
    ∧ src_id dp = normalize a ∧ tgt_id dp = normalize b.
Proof.
  unfold staged_of. rewrite list_elem_of_omap. intros (item & Hin & E).
  destruct (judge ns item) as [[dp' ed|sk]|] eqn:Ej; try discriminate E.
  inversion E; subst dp'.
  apply judge_inv in Ej as (a & b & descr & kw & Ha & Hb & _ & _ & [(_ & _ & ed' & Ev)|(_ & Ev)]);
    inversion Ev; subst.
  by exists item, a, b.
Qed.

(** X11: a relation a batch inserted can be read back.  For an item of a
    batch that returns, with endpoints that exist and no later item of the
    batch under the same key, the graph holds under the canonical names
    the edge record with the description and keywords of the item, its
    weight or 1.0, its source_id or CUSTOM_RELATION, and no other
    attribute of the item; the relation index holds under the key of the
    relation the record with the canonical names and the content. *)
Theorem insert_custom_relations_read_back `{U : Upper}
    h pre item post r res r' a b descr kw :
  let ns := graph_nodes r in
  let na := normalize a in
  let nb := normalize b in
  insert_custom_relations h (pre ++ item :: post) r = (Ok res, r') →
  item !! "src_id" = Some (VStr a) →
  item !! "tgt_id" = Some (VStr b) →
  item !! "description" = Some descr →
  item !! "keywords" = Some kw →
  is_Some (ns !! na) →
  is_Some (ns !! nb) →
  (∀ it a' b', it ∈ post →
     it !! "src_id" = Some (VStr a') → it !! "tgt_id" = Some (VStr b') →
     relation_key h (normalize a') (normalize b') ≠ relation_key h na nb) →
  ∃ content rv',
    graph_edges r' !! (na, nb)
    = Some (<["weight" := get_default item "weight" (VFloat "1.0")]>
              (<["description" := descr]>
                 (<["keywords" := kw]>
                    ({["source_id" := get_default item "source_id" (VStr "CUSTOM_RELATION")]}
                     : attrs))))
    ∧ relation_content kw na nb descr = Ok content
    ∧ relationships_vdb r' = Some rv'
    ∧ rv' !! relation_key h na nb = Some (relation_record na nb content).
Proof.
  intros ns na nb H Ha Hb Hd Hk Hna Hnb Hpost. subst ns na nb.
  set (dp := {| src_id := normalize a; tgt_id := normalize b;
                description := descr; keywords := kw |}).
  set (ed := <["weight" := get_default item "weight" (VFloat "1.0")]> _).
  assert (judge (graph_nodes r) item = Some (Accepted dp ed)) as Ej.
  { unfold judge. rewrite Ha, Hb, Hd, Hk.
    rewrite !bool_decide_eq_true_2 by done. done. }
  assert (∀ dp', dp' ∈ staged_of (graph_nodes r) post →
            relation_key h (src_id dp') (tgt_id dp')
            ≠ relation_key h (src_id dp) (tgt_id dp)) as Hkeys.
  { intros dp' (it & a' & b' & Hin & Ha' & Hb' & -> & ->)%elem_of_staged_of.
    by eapply Hpost. }
  assert (staged_of (graph_nodes r) (pre ++ item :: post)
          = staged_of (graph_nodes r) pre ++ dp :: staged_of (graph_nodes r) post) as Est.
  { rewrite staged_of_app. f_equal. by rewrite staged_of_cons, Ej. }
  apply insert_custom_relations_ok in H as (Hall & _ & [(E & _)|(_ & data & rv & Hst & ->)]).
  { rewrite Est in E. by destruct (staged_of _ pre). }
  destruct Hst as (Hdata & Hrv & _ & _).
  rewrite Est in Hdata.
  destruct (data_for_vdb_last _ _ _ _ _ _ Hdata Hkeys) as (content & Hc & Hl).
  assert (is_Some (chunk_entity_relation_graph r)) as Hg.
  { apply Forall_app in Hall as [_ Hall]. by apply Forall_cons in Hall as [(Hg & _) _]. }
  exists content, (data ∪ rv). split; [|split; [done|split; [done|]]].
  - replace (graph_edges (after_batch _ _ _ _ _))
      with (graph_edges (after_loop (graph_nodes r) (pre ++ item :: post) r)) by done.
    rewrite graph_edges_after_loop by done.
    rewrite edges_after_app.
    change (edges_after (graph_nodes r) (item :: post) ?es)
      with (edges_after (graph_nodes r) post (write_edge (graph_nodes r) es item)).
    rewrite edges_after_other.
    + unfold write_edge. rewrite Ej. apply lookup_insert_eq.
    + intros dp' Hdp' E. apply (Hkeys dp' Hdp').
      inversion E as [[E1 E2]]. by rewrite E1, E2.
  - by apply lookup_union_Some_l.
Qed.

(** X11, on the demo graph: the relation from A to B, sent after one that is
    skipped, is read back from the graph and from the relation index. *)
Lemma insert_custom_relations_read_back_witness :
  let pre := [relation_item "a" "c" "precedes" "order"] in
  let item := relation_item "a" "b" "follows" "order" in
  let na := normalize "a" in
  let nb := normalize "b" in
  let res := batch_result (graph_nodes demo_rag) (pre ++ item :: []) in
  let r' := (insert_custom_relations plain_id (pre ++ item :: []) demo_rag).2 in
  insert_custom_relations plain_id (pre ++ item :: []) demo_rag = (Ok res, r')
  ∧ ∃ content rv',
      graph_edges r' !! (na, nb)
      = Some (<["weight" := get_default item "weight" (VFloat "1.0")]>
                (<["description" := VStr "follows"]>
                   (<["keywords" := VStr "order"]>
                      ({["source_id" :=
                           get_default item "source_id" (VStr "CUSTOM_RELATION")]}
                       : attrs))))
      ∧ relation_content (VStr "order") na nb (VStr "follows") = Ok content
      ∧ relationships_vdb r' = Some rv'
      ∧ rv' !! relation_key plain_id na nb = Some (relation_record na nb content).
Proof.
  intros pre item na nb res r'.
  assert (insert_custom_relations plain_id (pre ++ item :: []) demo_rag = (Ok res, r')) as E
    by (vm_compute; reflexivity).
  split; [exact E|].
  apply (insert_custom_relations_read_back plain_id pre item [] demo_rag res r'
           "a" "b" (VStr "follows") (VStr "order") E);
    [reflexivity|reflexivity|reflexivity|reflexivity|vm_compute; eauto|vm_compute; eauto|].
  intros it a' b' Hin. by apply elem_of_nil in Hin.
Defined.

(** ** The exceptions of a batch insertion *)

(** What makes an item raise before any store call. *)
Lemma item_error_inv item e :
  item_error item = Some e →
  match e with
  | KeyError k =>
      k ∈ ["src_id"; "tgt_id"; "description"; "keywords"] ∧ item !! k = None
  | AttributeError =>
      ∃ k v, k ∈ ["src_id"; "tgt_id"] ∧ item !! k = Some v ∧ is_str v = false
  | _ => False
  end.
Proof.
  unfold item_error. intros He.
  destruct (item !! "src_id") as [[a| |]|] eqn:E1.
  2,3: inversion He; subst; eexists "src_id", _; split; [set_solver|done].
  2: inversion He; subst; split; [set_solver|done].
  destruct (item !! "tgt_id") as [[b| |]|] eqn:E2.
  2,3: inversion He; subst; eexists "tgt_id", _; split; [set_solver|done].
  2: inversion He; subst; split; [set_solver|done].
  destruct (item !! "description") as [descr|] eqn:E3.
  2: inversion He; subst; split; [set_solver|done].
  destruct (item !! "keywords") as [kw|] eqn:E4; [discriminate He|].
  inversion He; subst; split; [set_solver|done].
Qed.

Lemma insert_relation_raise `{U : Upper} vars item f e f' :
  insert_relation vars item f = (Raise e, f') →
  item_error item = Some e
  ∨ (e = AttributeError ∧ chunk_entity_relation_graph (rag f) = None)
  ∨ ∃ c, e = StoreFault c ∧ faulty (rag f) c = true.
Proof.
  intros H. destruct f as [us [ev rv og fl cl]]. unfold item_error.
  exec H; inversion H; subst; clear H; cbn [rag chunk_entity_relation_graph faulty];
    eauto 6.
Qed.

Lemma insert_loop_raise `{U : Upper} items vars f e f' :
  for_each insert_relation vars items f = (Raise e, f') →
  (∃ item, item ∈ items ∧ item_error item = Some e)
  ∨ (e = AttributeError ∧ chunk_entity_relation_graph (rag f) = None)
  ∨ ∃ c, e = StoreFault c ∧ faulty (rag f) c = true.
Proof.
  revert vars f. induction items as [|item items IH]; intros vars f H.
  - inversion H.
  - cbn [for_each] in H. unfold bind in H.
    destruct (insert_relation vars item f) as [[v1|e1] f1] eqn:E1.
    + pose proof (insert_relation_frame _ _ _ _ _ E1) as (_ & _ & Hfl).
      apply insert_relation_ok in E1 as ((Hg & _) & _ & ->).
      apply IH in H as [(it & Hin & He)|[(-> & Hn)|(c & -> & Hc)]].
      * left. exists it. split; [by apply list_elem_of_further|done].
      * unfold frame_after, after_loop in Hn. cbn in Hn.
        destruct Hg as [g Hg]. rewrite Hg in Hn. discriminate Hn.
      * right; right. exists c. split; [done|]. by rewrite <- Hfl.
    + inversion H; subst.
      apply insert_relation_raise in E1 as [He|H1]; [left|by right].
      exists item. split; [apply list_elem_of_here|done].
Qed.

Lemma gather_index_done_raise ss r e r' :
  gather (index_done_callback <$> ss) r = (Raise e, r') →
  ∃ s, e = StoreFault (IndexDone s) ∧ faulty r (IndexDone s) = true.
Proof.
  revert r. induction ss as [|s ss IH]; intros r H; [inversion H|].
  rewrite fmap_cons in H. cbn [gather] in H.
  unfold index_done_callback at 1 in H.
  destruct (faulty r (IndexDone s)) eqn:Ef.
  - destruct (gather _ _) as [os r2]. inversion H; subst. by eexists.
  - destruct (gather _ _) as [os r2] eqn:E. inversion H; subst.
    apply IH in E as (s' & -> & E). by exists s'.
Qed.

Lemma insert_done_raise r e r' :
  _insert_done r = (Raise e, r') →
  ∃ s, e = StoreFault (IndexDone s) ∧ faulty r (IndexDone s) = true.
Proof. apply gather_index_done_raise. Qed.

Lemma data_for_vdb_raise h dps acc e :
  data_for_vdb h dps acc = Raise e →
  e = TypeError
  ∧ ∃ dp, dp ∈ dps ∧ is_str (keywords dp) && is_str (description dp) = false.
Proof.
  revert acc. induction dps as [|dp dps IH]; intros acc H; [inversion H|].
  cbn [data_for_vdb] in H.
  destruct (relation_content _ _ _ _) as [content|e'] eqn:Ec; cbn [obind] in H.
  - apply IH in H as (-> & dp' & Hin & Hs). split; [done|].
    exists dp'. split; [by apply list_elem_of_further|done].
  - inversion H; subst. split; [by eapply relation_content_raises|].
    exists dp. split; [apply list_elem_of_here|].
    unfold relation_content, obind, py_add in Ec.
    by destruct (keywords dp), (description dp).
Qed.

Ltac raise_cases :=
  repeat match goal with
    | E : _insert_done _ = (Raise _, _) |- _ =>
        apply insert_done_raise in E as (? & -> & E);
        cbn [faulty record_call set_graph set_vdb log_calls] in E
    | E : data_for_vdb _ _ _ = Raise _ |- _ =>
        apply data_for_vdb_raise in E as (-> & E)
    end.

(** A relation the loop staged has the description and the keywords of
    an item. *)
Lemma staged_of_fields `{U : Upper} ns items dp :
  dp ∈ staged_of ns items →
  ∃ item,
    item ∈ items ∧ item !! "description" = Some (description dp)
    ∧ item !! "keywords" = Some (keywords dp).
Proof.
  unfold staged_of. rewrite list_elem_of_omap. intros (item & Hin & E).
  destruct (judge ns item) as [[dp' ed|sk]|] eqn:Ej; try discriminate E.
  inversion E; subst dp'.
  apply judge_inv in Ej as (a & b & descr & kw & _ & _ & Hd & Hk & [(_ & _ & ed' & Ev)|(_ & Ev)]);
    inversion Ev; subst.
  by exists item.
Qed.

Lemma insert_custom_relations_raise `{U : Upper} h items r e r' :
  insert_custom_relations h items r = (Raise e, r') →
  match e with
  | KeyError _ => ∃ item, item ∈ items ∧ item_error item = Some e
  | AttributeError =>
      (∃ item, item ∈ items ∧ item_error item = Some e)
      ∨ chunk_entity_relation_graph r = None
      ∨ relationships_vdb r = None
  | TypeError =>
      ∃ dp, dp ∈ staged_of (graph_nodes r) items
            ∧ is_str (keywords dp) && is_str (description dp) = false
  | StoreFault c => faulty r c = true
  end.
Proof.
  intros H.
  unfold insert_custom_relations, run_frame, try_except, insert_custom_relations_body in H.
  unfold bind at 1 in H.
  destruct (for_each insert_relation no_vars items _) as [[vars|e1] f1] eqn:Eloop.
  - pose proof (insert_loop_frame _ _ _ _ _ Eloop) as (_ & Hrv & Hfl).
    apply insert_loop_ok in Eloop as (_ & -> & ->).
    cbn [rag] in *.
    unfold vars_after, no_vars, frame_after in H.
    cbn [all_relationships_data app update_storage rag orb] in H.
    unfold frame_after in Hrv, Hfl. cbn [rag] in Hrv, Hfl.
    destruct (after_loop (graph_nodes r) items r) as [ev1 rv1 og1 fl1 cl1] eqn:Er1.
    cbn [relationships_vdb faulty] in Hrv, Hfl. subst rv1 fl1.
    destruct (staged_of (graph_nodes r) items) as [|dp dps] eqn:Est.
    + exec H; inversion H; subst; clear H; raise_cases; done.
    + rewrite <- Est in *. cbn [nonempty] in H.
      destruct (data_for_vdb h (staged_of (graph_nodes r) items) ∅) as [data|e2] eqn:Edata.
      all: rewrite Est in H at 1.
      all: exec H; inversion H; subst; clear H; raise_cases; eauto.
  - pose proof (insert_loop_frame _ _ _ _ _ Eloop) as (_ & _ & Hfl).
    apply insert_loop_raise in Eloop. cbn [rag] in *.
    destruct f1 as [us1 [ev1 rv1 og1 fl1 cl1]]. cbn [rag faulty] in Hfl. subst fl1.
    exec H; inversion H; subst; clear H; raise_cases.
    all: try done.
    all: destruct Eloop as [?|[[? ?]|(c & ? & ?)]]; subst; try discriminate; eauto.
    all: match goal with
         | He : ∃ item, _ ∧ item_error item = Some _ |- _ =>
             destruct He as (item & Hin & He);
             pose proof (item_error_inv _ _ He) as Hi
         end.
    all: destruct e; try done; eauto.
Qed.

Lemma insert_custom_relations_key_error `{U : Upper} h items r k r' :
  insert_custom_relations h items r = (Raise (KeyError k), r') →
  k ∈ ["src_id"; "tgt_id"; "description"; "keywords"]
  ∧ ∃ item, item ∈ items ∧ item !! k = None.
Proof.
  intros H. apply insert_custom_relations_raise in H as (item & Hin & He).
  apply item_error_inv in He as (Hk & He). split; [done|]. by exists item.
Qed.

(** X12: the exceptions of a batch insertion.  It raises a [KeyError]
    only for one of the four required fields, and only when an item of
    the batch lacks that field; an [AttributeError] only when the src_id
    or the tgt_id of an item is not a string, or the graph store or the
    relation index of [rag] is [None]; a [TypeError] only when the
    description or the keywords of an item are not a string; and a store
    fault only of a call that faults. *)
Theorem insert_custom_relations_exceptions `{U : Upper} h items r e r' :
  insert_custom_relations h items r = (Raise e, r') →
  match e with
  | KeyError k =>
      k ∈ ["src_id"; "tgt_id"; "description"; "keywords"]
      ∧ ∃ item, item ∈ items ∧ item !! k = None
  | AttributeError =>
      (∃ item k v,
         item ∈ items ∧ k ∈ ["src_id"; "tgt_id"]
         ∧ item !! k = Some v ∧ is_str v = false)
      ∨ chunk_entity_relation_graph r = None
      ∨ relationships_vdb r = None
  | TypeError =>
      ∃ item k v,
        item ∈ items ∧ k ∈ ["description"; "keywords"]
        ∧ item !! k = Some v ∧ is_str v = false
  | StoreFault c => faulty r c = true
  end.
Proof.
  intros H. destruct e as [k| | |c].
  - by eapply insert_custom_relations_key_error.
  - apply insert_custom_relations_raise in H as [(item & Hin & He)|H]; [left|by right].
    apply item_error_inv in He as (k & v & Hk & Hv & Hs). by exists item, k, v.
  - apply insert_custom_relations_raise in H as (dp & Hdp & Hs).
    apply staged_of_fields in Hdp as (item & Hin & Hd & Hk).
    apply andb_false_iff in Hs as [Hs|Hs].
    + exists item, "keywords", (keywords dp). split; [done|]. split; [set_solver|done].
    + exists item, "description", (description dp). split; [done|]. split; [set_solver|done].
  - by apply insert_custom_relations_raise in H.
Qed.

(** X12, on the demo graph: a batch with an item that lacks its target raises
    the KeyError of tgt_id. *)
Lemma insert_custom_relations_exceptions_witness :
  let items := [relation_item "a" "b" "follows" "order"; item_without_target] in
  let r' := (insert_custom_relations plain_id items demo_rag).2 in
  insert_custom_relations plain_id items demo_rag = (Raise (KeyError "tgt_id"), r')
  ∧ "tgt_id" ∈ ["src_id"; "tgt_id"; "description"; "keywords"]
  ∧ ∃ item, item ∈ items ∧ item !! "tgt_id" = None.
Proof.
  intros items r'.
  assert (insert_custom_relations plain_id items demo_rag = (Raise (KeyError "tgt_id"), r'))
    as E by (vm_compute; reflexivity).
  split; [exact E|].
  exact (insert_custom_relations_exceptions plain_id items demo_rag _ r' E).
Defined.

(** The other exceptions, on the demo graph: a description that is not a
    string makes the batch raise a [TypeError] after the edge was
    written; a source that is not a string, or a [rag] without its graph
    store, an [AttributeError]; and a relation index that is down, the
    store fault of the upsert. *)
Example insert_custom_relations_other_exceptions :
  (insert_custom_relations plain_id
     [<["description" := VNone]> (relation_item "a" "b" "follows" "order")] demo_rag).1
  = Raise TypeError
  ∧ (insert_custom_relations plain_id
       [<["src_id" := VNone]> (relation_item "a" "b" "follows" "order")] demo_rag).1
    = Raise AttributeError
  ∧ (insert_custom_relations plain_id demo_batch graphless_rag).1 = Raise AttributeError
  ∧ ∃ data,
      (insert_custom_relations plain_id demo_batch faulty_relation_rag).1
      = Raise (StoreFault (Upsert Rel data))
      ∧ faulty faulty_relation_rag (Upsert Rel data) = true.
Proof.
  split; [vm_compute; reflexivity|].
  split; [vm_compute; reflexivity|].
  split; [vm_compute; reflexivity|].
  eexists. split; [vm_compute; reflexivity|reflexivity].
Qed.

Ltac split_matches :=
  repeat (match goal with
          | |- context [match ?x with _ => _ end] =>
              lazymatch x with
              | context [match _ with _ => _ end] => fail
              | _ => destruct x eqn:?
              end
          end;
          cbn [rag update_storage entities_vdb relationships_vdb
               chunk_entity_relation_graph faulty calls fst snd negb]).

(** X13: a relation merge-update matches its endpoints without regard to
    case: two calls whose names have the same upper-case form (they
    differ in case only) make the same store calls, leave the same stores
    and return the same status and record (the messages quote the names
    as given). *)
Theorem update_relation_ignores_case `{U : Upper} h s t s' t' data r :
  upper s = upper s' →
  upper t = upper t' →
  (update_relation h s t data r).2 = (update_relation h s' t' data r).2
  ∧ same_update (update_relation h s t data r).1 (update_relation h s' t' data r).1.
Proof.
  intros Hs Ht.
  assert (normalize s = normalize s') as Ns by (unfold normalize; by rewrite Hs).
  assert (normalize t = normalize t') as Nt by (unfold normalize; by rewrite Ht).
  unfold update_relation, update_relation_body. fold_keys. rewrite Ns, Nt.
  unfold same_update.
  unfold_goal.
  split_matches.
  all: try done.
Qed.

(** X13, on the demo graph: the update of the relation from a to b and the one
    from A to B. *)
Lemma update_relation_ignores_case_witness :
  let data : attrs := {["description" := VStr "second"]} in
  (update_relation plain_id "a" "b" data demo_rag).2
  = (update_relation plain_id "A" "B" data demo_rag).2
  ∧ same_update (update_relation plain_id "a" "b" data demo_rag).1
      (update_relation plain_id "A" "B" data demo_rag).1.
Proof.
  intros data.
  exact (update_relation_ignores_case plain_id "a" "b" "A" "B" data demo_rag
           eq_refl eq_refl).
Defined.

Lemma union_twice (d p : attrs) : d ∪ (d ∪ p) = d ∪ p.
Proof. by rewrite (assoc (∪)), (idemp (∪)). Qed.

Lemma union_twice_vdb (d p : gmap string attrs) : d ∪ (d ∪ p) = d ∪ p.
Proof. by rewrite (assoc (∪)), (idemp (∪)). Qed.

Lemma after_update_entity_again h name data r :
  is_Some (chunk_entity_relation_graph r) →
  is_Some (entities_vdb r) →
  let r1 := after_update_entity h name data r in
  let r2 := after_update_entity h name data r1 in
  merged_node_data name data r1 = merged_node_data name data r
  ∧ chunk_entity_relation_graph r2 = chunk_entity_relation_graph r1
  ∧ entities_vdb r2 = entities_vdb r1
  ∧ relationships_vdb r2 = relationships_vdb r1.
Proof.
  intros [g Hg] [ev Hev]. destruct r as [e0 rv og fl cl]. cbn in Hg, Hev. subst og e0.
  unfold after_update_entity, merged_node_data, graph_nodes.
  cbn [chunk_entity_relation_graph entities_vdb relationships_vdb
       fmap option_fmap option_map nodes edges].
  rewrite lookup_insert_eq. cbn [or_empty default from_option id].
  rewrite union_twice, insert_insert_eq, union_twice_vdb. done.
Qed.

Lemma after_update_relation_again `{U : Upper} h src tgt data content r :
  is_Some (chunk_entity_relation_graph r) →
  is_Some (relationships_vdb r) →
  let r1 := after_update_relation h src tgt data content r in
  let r2 := after_update_relation h src tgt data content r1 in
  merged_edge_data src tgt data r1 = merged_edge_data src tgt data r
  ∧ graph_nodes r1 = graph_nodes r
  ∧ chunk_entity_relation_graph r2 = chunk_entity_relation_graph r1
  ∧ entities_vdb r2 = entities_vdb r1
  ∧ relationships_vdb r2 = relationships_vdb r1.
Proof.
  intros [g Hg] [rv Hrv]. destruct r as [ev r0 og fl cl]. cbn in Hg, Hrv. subst og r0.
  unfold after_update_relation, merged_edge_data, graph_nodes, graph_edges.
  cbn [chunk_entity_relation_graph entities_vdb relationships_vdb
       fmap option_fmap option_map nodes edges].
  rewrite lookup_insert_eq. cbn [or_empty default from_option id].
  rewrite !merge_edge_data_union.
  rewrite union_twice, insert_insert_eq, union_twice_vdb. done.
Qed.

(** X14: the two merge-updates are idempotent.  When an update succeeded
    and the same update is made again, the second call returns the same
    result, and leaves the graph and the two vector indexes as the first
    call left them. *)
Theorem merge_updates_idempotent `{U : Upper} h :
  (∀ name data r res1 r1 res2 r2,
     update_entity h name data r = (Ok res1, r1) →
     status res1 = "success" →
     update_entity h name data r1 = (Ok res2, r2) →
     res2 = res1
     ∧ chunk_entity_relation_graph r2 = chunk_entity_relation_graph r1
     ∧ entities_vdb r2 = entities_vdb r1
     ∧ relationships_vdb r2 = relationships_vdb r1)
  ∧ (∀ src tgt data r res1 r1 res2 r2,
       update_relation h src tgt data r = (Ok res1, r1) →
       status res1 = "success" →
       update_relation h src tgt data r1 = (Ok res2, r2) →
       res2 = res1
       ∧ chunk_entity_relation_graph r2 = chunk_entity_relation_graph r1
       ∧ entities_vdb r2 = entities_vdb r1
       ∧ relationships_vdb r2 = relationships_vdb r1).
Proof.
  split.
  - intros name data r res1 r1 res2 r2 H1 Hs H2.
    apply update_entity_returns in H1 as (Hg & [(_ & -> & _)|(Hn & Hev & -> & ->)]);
      [discriminate Hs|].
    destruct (after_update_entity_again h name data r Hg Hev) as (Em & Hstores).
    apply update_entity_returns in H2 as (_ & [(Hn' & _)|(_ & _ & -> & ->)]).
    { rewrite after_update_entity_node in Hn' by done. discriminate Hn'. }
    by rewrite Em.
  - intros src tgt data r res1 r1 res2 r2 H1 Hs H2.
    apply update_relation_returns in H1 as (Hg & H1).
    destruct H1 as [(_ & -> & _)|[(_ & _ & -> & _)|[(_ & _ & _ & -> & _)|H1]]];
      try discriminate Hs.
    destruct H1 as (Hns & Hnt & He & Hrv & -> & content & Hc & ->).
    destruct (after_update_relation_again h src tgt data content r Hg Hrv)
      as (Em & Hnodes & Hstores).
    apply update_relation_returns in H2 as (_ & H2).
    rewrite !Hnodes in H2.
    rewrite after_update_relation_edge in H2 by done.
    destruct H2 as [(E & _)|[(_ & E & _)|[(_ & _ & E & _)|H2]]].
    { rewrite E in Hns. by destruct Hns. }
    { rewrite E in Hnt. by destruct Hnt. }
    { discriminate E. }
    destruct H2 as (_ & _ & _ & _ & -> & content' & Hc' & ->).
    rewrite Em in Hc' |- *.
    rewrite Hc in Hc'. inversion Hc'; subst content'. done.
Qed.

(** X14, on the demo graph: the update of PARIS, made twice. *)
Lemma merge_updates_idempotent_witness :
  let data : attrs := {["entity_type" := VStr "CITY"]} in
  let res1 := entity_updated "PARIS" (merged_node_data "PARIS" data demo_rag) in
  let r1 := after_update_entity plain_id "PARIS" data demo_rag in
  let r2 := after_update_entity plain_id "PARIS" data r1 in
  update_entity plain_id "PARIS" data demo_rag = (Ok res1, r1)
  ∧ update_entity plain_id "PARIS" data r1 = (Ok res1, r2)
  ∧ chunk_entity_relation_graph r2 = chunk_entity_relation_graph r1
  ∧ entities_vdb r2 = entities_vdb r1
  ∧ relationships_vdb r2 = relationships_vdb r1.
Proof.
  intros data res1 r1 r2.
  assert (update_entity plain_id "PARIS" data demo_rag = (Ok res1, r1)) as E1
    by (vm_compute; reflexivity).
  assert (update_entity plain_id "PARIS" data r1 = (Ok res1, r2)) as E2
    by (vm_compute; reflexivity).
  split; [exact E1|]. split; [exact E2|].
  exact (proj2 (proj1 (merge_updates_idempotent plain_id)
                  "PARIS" data demo_rag res1 r1 res1 r2 E1 eq_refl E2)).
Defined.

(** X15: without a graph store, each operation raises an
    [AttributeError] at its first store call (for a batch, at the first
    item, when this item has its four fields), and leaves the object as it
    is: nothing is logged, written or finalized. *)
Theorem operations_without_graph `{U : Upper} h r :
  chunk_entity_relation_graph r = None →
  (∀ name data, update_entity h name data r = (Raise AttributeError, r))
  ∧ (∀ src tgt data, update_relation h src tgt data r = (Raise AttributeError, r))
  ∧ (∀ item items,
       item_error item = None →
       insert_custom_relations h (item :: items) r = (Raise AttributeError, r)).
Proof.
  intros Hg. destruct r as [ev rv og fl cl]. cbn in Hg. subst og.
  split; [|split].
  - intros name data. by unfold_goal.
  - intros src tgt data. by unfold_goal.
  - intros item items He. unfold item_error in He.
    destruct (item !! "src_id") as [[]|] eqn:E1; try discriminate He.
    destruct (item !! "tgt_id") as [[]|] eqn:E2; try discriminate He.
    destruct (item !! "description") as [?|] eqn:E3; try discriminate He.
    destruct (item !! "keywords") as [?|] eqn:E4; try discriminate He.
    unfold insert_custom_relations, insert_custom_relations_body, run_frame, try_except.
    cbn [for_each]. unfold_goal. rewrite E1, E2, E3, E4. done.
Qed.

(** X15, on the demo object without its graph store. *)
Lemma operations_without_graph_witness :
  update_entity plain_id "PARIS" ∅ graphless_rag = (Raise AttributeError, graphless_rag)
  ∧ update_relation plain_id "a" "b" ∅ graphless_rag = (Raise AttributeError, graphless_rag)
  ∧ insert_custom_relations plain_id demo_batch graphless_rag
    = (Raise AttributeError, graphless_rag).
Proof.
  destruct (operations_without_graph plain_id graphless_rag eq_refl) as (H1 & H2 & H3).
  split; [apply H1|]. split; [apply H2|]. by apply H3.
Defined.

(** * Properties of the handlers *)

Ltac unfold_route :=
  unfold kg_routes.insert_custom_kg, kg_routes.insert_custom_relations,
    kg_routes.get_entity_info, kg_routes.get_knowledge_graph, kg_routes.delete_entity,
    kg_routes.update_entity, kg_routes.update_relation, kg_routes.convert_weight,
    kg_routes.call_float, kg_routes.except_TypeError_ValueError,
    kg_routes.r_try, kg_routes.r_bind, kg_routes.r_ret, kg_routes.r_raise, kg_routes.await, kg_routes.except_HTTPException, kg_routes.except_Exception.

Lemma check_required_keys_state {json} (kg_data : gmap string json) keys r o r' :
  kg_routes.check_required_keys kg_data keys r = (o, r') →
  r' = r ∧ match o with
           | kg_routes.Return _ => Forall (fun key => is_Some (kg_data !! key)) keys
           | kg_routes.Fail x =>
               ∃ key, key ∈ keys ∧ kg_data !! key = None
                      ∧ x = kg_routes.HTTPException 400 ("知识图谱数据中缺少必需的键: " +:+ key)
           end.
Proof.
  induction keys as [|key keys IH]; cbn [kg_routes.check_required_keys].
  - intros E. inversion E; subst. done.
  - unfold kg_routes.contains. destruct (bool_decide _) eqn:B; cbn [negb].
    + intros E. apply IH in E as (-> & E). split; [done|].
      apply bool_decide_eq_true in B.
      destruct o as [[]|x].
      * by apply Forall_cons.
      * destruct E as (k & Hk & E). exists k. split; [by apply list_elem_of_further|done].
    + intros E. inversion E; subst. split; [done|].
      apply bool_decide_eq_false in B. rewrite <- eq_None_not_Some in B.
      exists key. split; [apply list_elem_of_here|done].
Qed.

Lemma check_required_fields_state relations_data r o r' :
  kg_routes.check_required_fields relations_data r = (o, r') →
  r' = r ∧ match o with
           | kg_routes.Return _ => Forall (fun relation => kg_routes.missing_fields relation = []) relations_data
           | kg_routes.Fail x =>
               ∃ relation, relation ∈ relations_data ∧ kg_routes.missing_fields relation ≠ []
                 ∧ x = kg_routes.HTTPException 400
                         ("关系数据中缺少必需的字段: "
                          +:+ String.concat ", " (kg_routes.missing_fields relation))
           end.
Proof.
  induction relations_data as [|relation rest IH]; cbn [kg_routes.check_required_fields].
  - intros E. inversion E; subst. done.
  - destruct (kg_routes.missing_fields relation) as [|f fs] eqn:Em; cbn [nonempty].
    + intros E. apply IH in E as (-> & E). split; [done|].
      destruct o as [[]|x].
      * by apply Forall_cons.
      * destruct E as (k & Hk & E). exists k. split; [by apply list_elem_of_further|done].
    + intros E. inversion E; subst. split; [done|].
      exists relation. split; [apply list_elem_of_here|]. by rewrite Em.
Qed.

(** X16: a handler answers a failure with an [HTTPException] only, and
    each handler with few status codes.  The handlers for insertion, for
    reading and for deletion answer every failure, also the one of their
    own validation, with 500; the entity update handler answers with 400
    or 500, the relation update handler with 400, 404 or 500. *)
Theorem handlers_status_codes {json : Type} unquote str float
    (kg : gmap string json → M LightRAG unit) ins
    (info : string → bool → M LightRAG json) (graph_of : string → Z → M LightRAG json)
    del upd_e upd_r :
  (∀ kg_data r x r',
     kg_routes.insert_custom_kg str kg kg_data r = (kg_routes.Fail x, r') →
     ∃ detail, x = kg_routes.HTTPException 500 detail)
  ∧ (∀ relations_data r x r',
       kg_routes.insert_custom_relations str ins relations_data r = (kg_routes.Fail x, r') →
       ∃ detail, x = kg_routes.HTTPException 500 detail)
  ∧ (∀ name flag r x r',
       kg_routes.get_entity_info unquote str info name flag r = (kg_routes.Fail x, r') →
       ∃ detail, x = kg_routes.HTTPException 500 detail)
  ∧ (∀ label depth r x r',
       kg_routes.get_knowledge_graph str graph_of label depth r = (kg_routes.Fail x, r') →
       ∃ detail, x = kg_routes.HTTPException 500 detail)
  ∧ (∀ name r x r',
       kg_routes.delete_entity str del name r = (kg_routes.Fail x, r') →
       ∃ detail, x = kg_routes.HTTPException 500 detail)
  ∧ (∀ name data r x r',
       kg_routes.update_entity unquote str upd_e name data r = (kg_routes.Fail x, r') →
       ∃ code detail, x = kg_routes.HTTPException code detail ∧ (code = 400 ∨ code = 500)%nat)
  ∧ (∀ src tgt data r x r',
       kg_routes.update_relation unquote str float upd_r src tgt data r = (kg_routes.Fail x, r') →
       ∃ code detail,
         x = kg_routes.HTTPException code detail ∧ (code = 400 ∨ code = 404 ∨ code = 500)%nat).
Proof.
  repeat split.
  - intros kg_data r x r'. unfold_route.
    destruct (kg_routes.check_required_keys _ _ _) as [[[]|y] r1];
      [destruct (kg _ _) as [[[]|e] r2]|]; intros E; inversion E; by eexists.
  - intros relations_data r x r'. unfold_route.
    destruct (kg_routes.check_required_fields _ _) as [[[]|y] r1];
      [destruct (ins _ _) as [[res|e] r2]|]; intros E; inversion E; by eexists.
  - intros name flag r x r'. unfold_route.
    destruct (info _ _ _) as [[res|e] r2]; intros E; inversion E; by eexists.
  - intros label depth r x r'. unfold_route.
    destruct (graph_of _ _ _) as [[res|e] r2]; intros E; inversion E; by eexists.
  - intros name r x r'. unfold_route.
    destruct (del _ _) as [[[]|e] r2]; intros E; inversion E; by eexists.
  - intros name data r x r'. unfold_route.
    destruct (upd_e _ _ _) as [[res|e] r2]; [destruct (bool_decide _)|];
      intros E; inversion E; eexists _, _; (split; [done|]); auto.
  - intros src tgt data r x r'. unfold_route.
    destruct (data !! "weight") as [w|]; [destruct (float w) as [f|[]]|].
    all: try (destruct (upd_r _ _ _ _) as [[res|e] r2]; [destruct (bool_decide _)|]).
    all: intros E; inversion E; eexists _, _; (split; [done|]); auto.
Qed.

(** X17: the two insertion handlers validate their input before they call
    [rag], and answer a validation failure with status 500, not with the
    400 they raise: their only [except] clause catches the
    [HTTPException] of the validation and wraps its text.  The [rag]
    object is then as it was: no item of the batch was processed. *)
Theorem handlers_validation_failure {json : Type} str
    (kg : gmap string json → M LightRAG unit) ins :
  (∀ kg_data r,
     Exists (fun key => kg_data !! key = None) kg_routes.required_keys →
     ∃ key,
       key ∈ kg_routes.required_keys ∧ kg_data !! key = None
       ∧ kg_routes.insert_custom_kg str kg kg_data r
         = (kg_routes.Fail
              (kg_routes.HTTPException 500
                 (str (kg_routes.HTTPException 400
                         ("知识图谱数据中缺少必需的键: " +:+ key)))), r))
  ∧ (∀ relations_data r,
       Exists (fun relation => kg_routes.missing_fields relation ≠ []) relations_data →
       ∃ relation,
         relation ∈ relations_data ∧ kg_routes.missing_fields relation ≠ []
         ∧ kg_routes.insert_custom_relations str ins relations_data r
           = (kg_routes.Fail
                (kg_routes.HTTPException 500
                   (str (kg_routes.HTTPException 400
                           ("关系数据中缺少必需的字段: "
                            +:+ String.concat ", " (kg_routes.missing_fields relation))))),
              r)).
Proof.
  split.
  - intros kg_data r Hex. unfold_route.
    destruct (kg_routes.check_required_keys kg_data kg_routes.required_keys r)
      as [[[]|x] r1] eqn:E; apply check_required_keys_state in E as (-> & E).
    + exfalso. apply Exists_exists in Hex as (key & Hin & Hkey).
      rewrite Forall_forall in E. specialize (E key Hin). rewrite Hkey in E.
      by destruct E.
    + destruct E as (key & Hin & Hkey & ->). by exists key.
  - intros relations_data r Hex. unfold_route.
    destruct (kg_routes.check_required_fields relations_data r)
      as [[[]|x] r1] eqn:E; apply check_required_fields_state in E as (-> & E).
    + exfalso. apply Exists_exists in Hex as (relation & Hin & Hm).
      rewrite Forall_forall in E. by specialize (E relation Hin).
    + destruct E as (relation & Hin & Hm & ->). by exists relation.
Qed.

(** X17, on the demo graph: a batch whose second item lacks three fields is
    answered 500, and the object is as it was. *)
Lemma handlers_validation_failure_witness :
  let relations_data := [relation_item "a" "b" "follows" "order"; item_without_target] in
  ∃ relation,
    relation ∈ relations_data ∧ kg_routes.missing_fields relation ≠ []
    ∧ kg_routes.insert_custom_relations plain_str (insert_custom_relations plain_id)
        relations_data demo_rag
      = (kg_routes.Fail
           (kg_routes.HTTPException 500
              (plain_str (kg_routes.HTTPException 400
                            ("关系数据中缺少必需的字段: "
                             +:+ String.concat ", " (kg_routes.missing_fields relation))))),
         demo_rag).
Proof.
  intros relations_data.
  apply (proj2 (handlers_validation_failure (json := unit) plain_str (fun _ => ret tt)
                  (insert_custom_relations plain_id))).
  apply Exists_cons_tl, Exists_cons_hd. discriminate.
Defined.

Lemma missing_fields_nil relation k :
  kg_routes.missing_fields relation = [] →
  k ∈ kg_routes.required_fields → is_Some (relation !! k).
Proof.
  unfold kg_routes.missing_fields, kg_routes.required_fields, kg_routes.contains.
  cbn [List.filter].
  intros Hm Hk.
  repeat match type of Hm with
         | context [bool_decide ?P] => destruct (bool_decide P) eqn:?; cbn [negb] in Hm
         end; try discriminate Hm.
  repeat match goal with
         | B : bool_decide _ = true |- _ => apply bool_decide_eq_true in B
         end.
  set_solver.
Qed.

(** X18: the batch handler over the batch insertion.  When it returns,
    the insertion returned: the body says success (also when every
    relation was skipped), carries the result, and its counts add up to
    the number of relations sent.  When it fails, the validation refused
    the batch and [rag] is as it was, or the insertion raised; since the
    validation passed, what it raised is no [KeyError]. *)
Theorem relations_handler_outcomes `{U : Upper} str h relations_data r out r' :
  kg_routes.insert_custom_relations str (insert_custom_relations h) relations_data r
  = (out, r') →
  match out with
  | kg_routes.Return body =>
      insert_custom_relations h relations_data r = (Ok (kg_routes.details body), r')
      ∧ kg_routes.relations_status body = "success"
      ∧ kg_routes.relations_message body
        = "已成功添加 " +:+ pretty (total_added (kg_routes.details body))
          +:+ " 个关系，跳过 " +:+ pretty (total_skipped (kg_routes.details body))
          +:+ " 个关系"
      ∧ total_added (kg_routes.details body) + total_skipped (kg_routes.details body)
        = length relations_data
  | kg_routes.Fail x =>
      (r' = r
       ∧ ∃ relation,
           relation ∈ relations_data ∧ kg_routes.missing_fields relation ≠ []
           ∧ x = kg_routes.HTTPException 500
                   (str (kg_routes.HTTPException 400
                           ("关系数据中缺少必需的字段: "
                            +:+ String.concat ", " (kg_routes.missing_fields relation)))))
      ∨ (∃ e,
           insert_custom_relations h relations_data r = (Raise e, r')
           ∧ x = kg_routes.HTTPException 500 (str (kg_routes.Exception e))
           ∧ ∀ k, e ≠ KeyError k)
  end.
Proof.
  unfold_route.
  destruct (kg_routes.check_required_fields relations_data r)
    as [[[]|x] r1] eqn:E; apply check_required_fields_state in E as (-> & E).
  - destruct (insert_custom_relations h relations_data r) as [[res|e] r2] eqn:Eop;
      intros H; inversion H; subst; clear H; cbn [kg_routes.details
        kg_routes.relations_status kg_routes.relations_message].
    + split; [done|]. split; [done|]. split; [done|].
      apply insert_custom_relations_ok in Eop as (Hall & -> & _).
      unfold batch_result. cbn [total_added total_skipped].
      apply partitioned_length, partitioned_judge.
      eapply Forall_impl; [exact Hall|]. by intros item (_ & Hj & _).
    + right. exists e. split; [done|]. split; [done|].
      intros k ->. apply insert_custom_relations_key_error in Eop.
      destruct Eop as (Hk & item & Hin & Hnone).
      rewrite Forall_forall in E.
      destruct (missing_fields_nil item k (E item Hin) Hk) as [v Hv]. congruence.
  - intros H. inversion H; subst; clear H. left. split; [done|].
    destruct E as (relation & Hin & Hm & ->). by exists relation.
Qed.

(** X18, on the demo graph and the demo batch: the handler returns, and reports
    one relation added and one skipped. *)
Lemma relations_handler_outcomes_witness :
  let p := kg_routes.insert_custom_relations plain_str (insert_custom_relations plain_id)
             demo_batch demo_rag in
  let res := batch_result (graph_nodes demo_rag) demo_batch in
  let body :=
    {| kg_routes.relations_status := "success";
       kg_routes.relations_message := "已成功添加 1 个关系，跳过 1 个关系";
       kg_routes.details := res |} in
  p = (kg_routes.Return body, p.2)
  ∧ insert_custom_relations plain_id demo_batch demo_rag = (Ok res, p.2)
  ∧ kg_routes.relations_status body = "success"
  ∧ kg_routes.relations_message body
    = "已成功添加 " +:+ pretty (total_added res) +:+ " 个关系，跳过 "
      +:+ pretty (total_skipped res) +:+ " 个关系"
  ∧ total_added res + total_skipped res = length demo_batch.
Proof.
  intros p res body.
  assert (p = (kg_routes.Return body, p.2)) as E by (vm_compute; reflexivity).
  split; [exact E|].
  exact (relations_handler_outcomes plain_str plain_id demo_batch demo_rag _ _ E).
Defined.

(** X19: the entity update handler over the entity merge-update.  The
    name of the path is decoded and passed on as it is, not brought to
    the canonical form.  The handler returns only a result whose status
    is success; it answers 400, with the message of the operation, when
    the graph holds no node under the decoded name (the operation has
    then made its existence check only), and 500 when the operation
    raised. *)
Theorem update_entity_handler_outcomes unquote str h entity_name entity_data r out r' :
  kg_routes.update_entity unquote str (update_entity h) entity_name entity_data r
  = (out, r') →
  let name := unquote entity_name in
  match out with
  | kg_routes.Return res =>
      update_entity h name entity_data r = (Ok res, r')
      ∧ status res = "success"
      ∧ is_Some (graph_nodes r !! name)
  | kg_routes.Fail x =>
      (x = kg_routes.HTTPException 400 ("实体 '" +:+ name +:+ "' 不存在")
       ∧ graph_nodes r !! name = None
       ∧ new_calls r r' = [HasNode name])
      ∨ (∃ e,
           update_entity h name entity_data r = (Raise e, r')
           ∧ x = kg_routes.HTTPException 500 (str (kg_routes.Exception e)))
  end.
Proof.
  intros H name. subst name. revert H. unfold_route.
  destruct (update_entity h (unquote entity_name) entity_data r) as [[res|e] r1] eqn:Eop.
  - pose proof (update_entity_returns _ _ _ _ _ _ Eop)
      as (_ & [(Hn & -> & ->)|(Hn & _ & -> & ->)]);
      cbn [status entity_not_found entity_updated bool_decide decide]; intros H.
    + rewrite bool_decide_eq_true_2 in H by done. inversion H; subst.
      left. split; [done|]. split; [done|]. by rewrite new_calls_log.
    + rewrite bool_decide_eq_false_2 in H by discriminate. by inversion H; subst.
  - intros H. inversion H; subst. right. by exists e.
Qed.

(** X19, on the demo graph, which holds A under its canonical name only: the
    request to update a is answered 400. *)
Lemma update_entity_handler_outcomes_witness :
  let data : attrs := {["entity_type" := VStr "VOWEL"]} in
  let p := kg_routes.update_entity plain_unquote plain_str (update_entity plain_id)
             "a" data demo_rag in
  let x := kg_routes.HTTPException 400 ("实体 '" +:+ "a" +:+ "' 不存在") in
  p = (kg_routes.Fail x, p.2)
  ∧ ((x = kg_routes.HTTPException 400 ("实体 '" +:+ "a" +:+ "' 不存在")
      ∧ graph_nodes demo_rag !! "a" = None
      ∧ new_calls demo_rag p.2 = [HasNode "a"])
     ∨ (∃ e,
          update_entity plain_id "a" data demo_rag = (Raise e, p.2)
          ∧ x = kg_routes.HTTPException 500 (plain_str (kg_routes.Exception e)))).
Proof.
  intros data p x.
  assert (p = (kg_routes.Fail x, p.2)) as E by (vm_compute; reflexivity).
  split; [exact E|].
  exact (update_entity_handler_outcomes plain_unquote plain_str plain_id "a" data
           demo_rag _ _ E).
Defined.

Lemma clean_field_lookup d field k :
  kg_routes.clean_field d field !! k
  = if bool_decide (k = field) then cleaned <$> d !! k else d !! k.
Proof.
  unfold kg_routes.clean_field, cleaned.
  destruct (bool_decide (k = field)) eqn:B.
  - apply bool_decide_eq_true in B as ->.
    destruct (d !! field) as [[s| |]|] eqn:E; rewrite ?E; try done.
    destruct (kg_routes.wrapped_in_quotes s) eqn:W.
    + rewrite lookup_insert_eq. cbn. by rewrite W.
    + rewrite E. cbn. by rewrite W.
  - apply bool_decide_eq_false in B.
    destruct (d !! field) as [[s| |]|] eqn:E; try done.
    destruct (kg_routes.wrapped_in_quotes s); [|done].
    by rewrite lookup_insert_ne.
Qed.

Lemma cleaned_fields_lookup d k :
  foldl kg_routes.clean_field d kg_routes.string_fields !! k
  = if bool_decide (k ∈ kg_routes.string_fields) then cleaned <$> d !! k else d !! k.
Proof.
  unfold kg_routes.string_fields. cbn [foldl].
  rewrite !clean_field_lookup.
  repeat case_bool_decide; subst; try done; set_solver.
Qed.

Lemma processed_lookup float relation_data data k :
  processed float relation_data = Some data →
  data !! k
  = if bool_decide (k = "weight") then relation_data !! "weight" ≫= converted float
    else if bool_decide (k ∈ kg_routes.string_fields) then cleaned <$> relation_data !! k
    else relation_data !! k.
Proof.
  unfold processed.
  destruct (relation_data !! "weight") as [w|] eqn:Ew.
  - destruct (converted float w) as [f|] eqn:Ef; cbn [fmap option_fmap option_map]; intros E;
      [injection E as <-|discriminate E].
    change (kg_routes.clean_field (kg_routes.clean_field (kg_routes.clean_field ?d _) _) _)
      with (foldl kg_routes.clean_field d kg_routes.string_fields).
    rewrite cleaned_fields_lookup. unfold kg_routes.string_fields.
    repeat case_bool_decide; subst; try set_solver.
    + by rewrite lookup_insert_ne.
    + rewrite lookup_insert_eq. cbn. by rewrite Ef.
    + by rewrite lookup_insert_ne.
  - intros E. injection E as <-.
    change (kg_routes.clean_field (kg_routes.clean_field (kg_routes.clean_field ?d _) _) _)
      with (foldl kg_routes.clean_field d kg_routes.string_fields).
    rewrite cleaned_fields_lookup. unfold kg_routes.string_fields.
    repeat case_bool_decide; subst; try set_solver.
Qed.

(** What the relation update handler does, in terms of the operation it
    awaits. *)
Lemma update_relation_handler_run `{U : Upper}
    unquote str float h src_entity tgt_entity relation_data r :
  kg_routes.update_relation unquote str float (update_relation h)
    src_entity tgt_entity relation_data r
  = match processed float relation_data with
    | None =>
        (kg_routes.Fail
           match weight_error float relation_data with
           | Some kg_routes.float_OverflowError =>
               kg_routes.HTTPException 500
                 (str (kg_routes.BuiltinException kg_routes.float_OverflowError))
           | _ => kg_routes.HTTPException 400 "weight 字段必须是有效的数值"
           end, r)
    | Some data =>
        match update_relation h (unquote src_entity) (unquote tgt_entity) data r with
        | (Ok res, r') =>
            if bool_decide (status res = "failed")
            then (kg_routes.Fail (kg_routes.HTTPException 404 (message res)), r')
            else (kg_routes.Return res, r')
        | (Raise e, r') =>
            (kg_routes.Fail (kg_routes.HTTPException 500 (str (kg_routes.Exception e))), r')
        end
    end.
Proof.
  unfold_route. unfold processed, weight_error, converted.
  destruct (relation_data !! "weight") as [w|]; [destruct (float w) as [f|[]]|]; cbn.
  all: try done.
  all: destruct (update_relation _ _ _ _ _) as [[res|e] r1]; [destruct (bool_decide _)|];
    done.
Qed.

(** X20: the relation update handler over the relation merge-update.  A
    weight on which [float] raises is answered before [rag] is touched:
    with 400 for a [TypeError] or a [ValueError], and with 500 for an
    [OverflowError] (an integer too large for a float), which the inner
    [except] clause does not catch.  The handler returns only a result
    whose status is success; it answers 404, with the message of the
    operation, when the source node, the target node or the edge is
    missing under the canonical forms of the decoded names, and nothing
    was then written or finalized; it answers 500 when the operation
    raised. *)
Theorem update_relation_handler_outcomes `{U : Upper} unquote str float h
    src_entity tgt_entity relation_data r out r' :
  kg_routes.update_relation unquote str float (update_relation h)
    src_entity tgt_entity relation_data r = (out, r') →
  let src := unquote src_entity in
  let tgt := unquote tgt_entity in
  match out with
  | kg_routes.Return res =>
      status res = "success"
      ∧ ∃ data,
          processed float relation_data = Some data
          ∧ update_relation h src tgt data r = (Ok res, r')
  | kg_routes.Fail x =>
      (r' = r
       ∧ ∃ w e,
           relation_data !! "weight" = Some w ∧ float w = inr e
           ∧ x = match e with
                 | kg_routes.float_OverflowError =>
                     kg_routes.HTTPException 500 (str (kg_routes.BuiltinException e))
                 | _ => kg_routes.HTTPException 400 "weight 字段必须是有效的数值"
                 end)
      ∨ (∃ res,
           x = kg_routes.HTTPException 404 (message res)
           ∧ ((graph_nodes r !! normalize src = None ∧ res = source_not_found src)
              ∨ (graph_nodes r !! normalize tgt = None ∧ res = target_not_found tgt)
              ∨ (graph_edges r !! (normalize src, normalize tgt) = None
                 ∧ res = relation_not_found src tgt))
           ∧ Forall (fun c => is_write c = false) (new_calls r r')
           ∧ finalized (new_calls r r') = [])
      ∨ (∃ e data,
           x = kg_routes.HTTPException 500 (str (kg_routes.Exception e))
           ∧ processed float relation_data = Some data
           ∧ update_relation h src tgt data r = (Raise e, r'))
  end.
Proof.
  intros H src tgt. subst src tgt. rewrite update_relation_handler_run in H.
  destruct (processed float relation_data) as [data|] eqn:Ep.
  - destruct (update_relation h _ _ data r) as [[res|e] r1] eqn:Eop.
    + pose proof (update_relation_returns _ _ _ _ _ _ _ Eop) as (_ & Hr).
      destruct Hr as [(Hn & -> & ->)|[(_ & Hn & -> & ->)|[(_ & _ & Hn & -> & ->)|Hr]]].
      4: { destruct Hr as (_ & _ & _ & _ & -> & _).
           rewrite bool_decide_eq_false_2 in H by discriminate.
           inversion H; subst. split; [done|]. by exists data. }
      all: rewrite bool_decide_eq_true_2 in H by done; inversion H; subst.
      all: right; left.
      all: match goal with
           | E : update_relation _ _ _ _ _ = (Ok ?res, _) |- _ => exists res
           end.
      all: split; [done|].
      all: rewrite new_calls_log.
      all: split; [|split; [by repeat constructor|done]].
      * by left.
      * right; by left.
      * right; by right.
    + inversion H; subst. right; right. by exists e, data.
  - unfold processed, converted in Ep. unfold weight_error in H.
    destruct (relation_data !! "weight") as [w|]; [|discriminate Ep].
    destruct (float w) as [f|e] eqn:Ef; [discriminate Ep|].
    destruct e; inversion H; subst; left; (split; [done|]); eexists w, _; by repeat split.
Qed.

(** X20, on the demo graph: a weight that is an integer too large for a
    float is answered 500, with the text of the [OverflowError], and the
    object is as it was. *)
Lemma update_relation_handler_outcomes_witness :
  let data : attrs := {["weight" := VFloat large_integer]} in
  let p := kg_routes.update_relation plain_unquote plain_str float_of_integer
             (update_relation plain_id) "a" "b" data demo_rag in
  let x := kg_routes.HTTPException 500 "int too large to convert to float" in
  p = (kg_routes.Fail x, demo_rag)
  ∧ ((demo_rag = demo_rag
      ∧ ∃ w e,
          data !! "weight" = Some w ∧ float_of_integer w = inr e
          ∧ x = match e with
                | kg_routes.float_OverflowError =>
                    kg_routes.HTTPException 500 (plain_str (kg_routes.BuiltinException e))
                | _ => kg_routes.HTTPException 400 "weight 字段必须是有效的数值"
                end)
     ∨ (∃ res,
          x = kg_routes.HTTPException 404 (message res)
          ∧ ((graph_nodes demo_rag !! normalize "a" = None ∧ res = source_not_found "a")
             ∨ (graph_nodes demo_rag !! normalize "b" = None ∧ res = target_not_found "b")
             ∨ (graph_edges demo_rag !! (normalize "a", normalize "b") = None
                ∧ res = relation_not_found "a" "b"))
          ∧ Forall (fun c => is_write c = false) (new_calls demo_rag demo_rag)
          ∧ finalized (new_calls demo_rag demo_rag) = [])
     ∨ (∃ e data',
          x = kg_routes.HTTPException 500 (plain_str (kg_routes.Exception e))
          ∧ processed float_of_integer data = Some data'
          ∧ update_relation plain_id "a" "b" data' demo_rag = (Raise e, demo_rag))).
Proof.
  intros data p x.
  assert (p = (kg_routes.Fail x, demo_rag)) as E by (vm_compute; reflexivity).
  split; [exact E|].
  exact (update_relation_handler_outcomes plain_unquote plain_str float_of_integer plain_id
           "a" "b" data demo_rag _ _ E).
Defined.

(** A weight that is a word is answered 400, and a relation that is
    missing 404: the update of the relation from B to A, where the demo
    graph has the one from A to B only. *)
Example update_relation_handler_400_404 :
  kg_routes.update_relation plain_unquote plain_str float_only
    (update_relation plain_id) "a" "b" {["weight" := VStr "heavy"]} demo_rag
  = (kg_routes.Fail (kg_routes.HTTPException 400 "weight 字段必须是有效的数值"), demo_rag)
  ∧ (kg_routes.update_relation plain_unquote plain_str float_only
       (update_relation plain_id) "b" "a" {["weight" := VFloat "2.0"]} demo_rag).1
    = kg_routes.Fail (kg_routes.HTTPException 404 (message (relation_not_found "b" "a"))).
Proof. split; vm_compute; reflexivity. Qed.

(** X21: what a relation update through the handler stores.  When the
    handler returns, the edge record written is the overlay on the prior
    record of the attributes sent, where the weight is the float it
    converts to, and a description, keywords or source_id that is a
    string wrapped in double or in single quotes has lost its first and
    last character; every other attribute sent is stored as sent, and
    every attribute not sent keeps its prior value. *)
Theorem update_relation_handler_stores `{U : Upper} unquote str float h
    src_entity tgt_entity relation_data r res r' :
  kg_routes.update_relation unquote str float (update_relation h)
    src_entity tgt_entity relation_data r = (kg_routes.Return res, r') →
  let ns := normalize (unquote src_entity) in
  let nt := normalize (unquote tgt_entity) in
  ∃ prior written,
    graph_edges r !! (ns, nt) = Some prior
    ∧ updated_data res = Some written
    ∧ graph_edges r' !! (ns, nt) = Some written
    ∧ (∀ w, relation_data !! "weight" = Some w →
            ∃ f, float w = inl f ∧ written !! "weight" = Some f)
    ∧ (∀ field v, field ∈ kg_routes.string_fields →
                  relation_data !! field = Some v → written !! field = Some (cleaned v))
    ∧ (∀ k v, k ∉ "weight" :: kg_routes.string_fields →
              relation_data !! k = Some v → written !! k = Some v)
    ∧ (∀ k, relation_data !! k = None → written !! k = prior !! k).
Proof.
  intros H ns nt. subst ns nt. rewrite update_relation_handler_run in H.
  destruct (processed float relation_data) as [data|] eqn:Ep; [|discriminate H].
  destruct (update_relation h _ _ data r) as [[res1|e] r1] eqn:Eop; [|discriminate H].
  destruct (bool_decide (status res1 = "failed")) eqn:B; inversion H; subst; clear H.
  apply bool_decide_eq_false in B.
  apply update_relation_returns in Eop as (Hg & Hr).
  destruct Hr as [(_ & -> & _)|[(_ & _ & -> & _)|[(_ & _ & _ & -> & _)|Hr]]];
    try (by destruct B).
  destruct Hr as (_ & _ & [prior Hp] & _ & -> & content & _ & ->).
  assert (merged_edge_data (unquote src_entity) (unquote tgt_entity) data r = data ∪ prior)
    as Hm.
  { unfold merged_edge_data. rewrite Hp. apply merge_edge_data_union. }
  exists prior, (data ∪ prior).
  split; [done|]. split; [by rewrite <- Hm|].
  split; [rewrite after_update_relation_edge by done; by rewrite Hm|].
  pose proof (processed_lookup _ _ _ "weight" Ep) as Hw.
  rewrite bool_decide_eq_true_2 in Hw by done.
  split; [|split; [|split]].
  - intros w Ew. rewrite Ew in Hw. cbn in Hw. unfold converted in Hw.
    destruct (float w) as [f|e] eqn:Ef.
    + exists f. split; [done|]. by apply lookup_union_Some_l.
    + unfold processed, converted in Ep. rewrite Ew, Ef in Ep. discriminate Ep.
  - intros field v Hin Ev. apply lookup_union_Some_l.
    rewrite (processed_lookup _ _ _ field Ep).
    rewrite bool_decide_eq_false_2
      by (intros ->; revert Hin; unfold kg_routes.string_fields; set_solver).
    rewrite bool_decide_eq_true_2 by done. by rewrite Ev.
  - intros k v Hk Ev. apply lookup_union_Some_l.
    rewrite (processed_lookup _ _ _ k Ep).
    rewrite !bool_decide_eq_false_2 by set_solver. done.
  - intros k Ek. apply lookup_union_r.
    rewrite (processed_lookup _ _ _ k Ep).
    destruct (bool_decide (k = "weight")) eqn:B1.
    + apply bool_decide_eq_true in B1 as ->. by rewrite Ek.
    + rewrite Ek. by destruct (bool_decide (k ∈ _)).
Qed.

(** X21, on the demo graph: a description sent in double quotes is stored
    without them, next to the weight. *)
Lemma update_relation_handler_stores_witness :
  let data : attrs :=
    <["description" := VStr (dquote +:+ "second" +:+ dquote)]>
      ({["weight" := VFloat "2.0"]} : attrs) in
  let p := kg_routes.update_relation plain_unquote plain_str float_only
             (update_relation plain_id) "a" "b" data demo_rag in
  let ns := normalize "a" in
  let nt := normalize "b" in
  (∃ res, p = (kg_routes.Return res, p.2)
          ∧ (updated_data res ≫= (.!! "description")) = Some (VStr "second"))
  ∧ ∃ res prior written,
      p.1 = kg_routes.Return res
      ∧ graph_edges demo_rag !! (ns, nt) = Some prior
      ∧ updated_data res = Some written
      ∧ graph_edges p.2 !! (ns, nt) = Some written
      ∧ (∀ w, data !! "weight" = Some w →
              ∃ f, float_only w = inl f ∧ written !! "weight" = Some f)
      ∧ (∀ field v, field ∈ kg_routes.string_fields →
                    data !! field = Some v → written !! field = Some (cleaned v))
      ∧ (∀ k v, k ∉ "weight" :: kg_routes.string_fields →
                data !! k = Some v → written !! k = Some v)
      ∧ (∀ k, data !! k = None → written !! k = prior !! k).
Proof.
  intros data p ns nt.
  destruct p as [out r'] eqn:Ep.
  assert (∃ res, out = kg_routes.Return res
                 ∧ (updated_data res ≫= (.!! "description")) = Some (VStr "second"))
    as (res & -> & Hd).
  { assert (out = p.1) as -> by (by rewrite Ep). subst p.
    vm_compute. eexists. split; reflexivity. }
  split; [by exists res|].
  destruct (update_relation_handler_stores plain_unquote plain_str float_only plain_id
              "a" "b" data demo_rag res r' Ep) as (prior & written & H).
  by exists res, prior, written.
Defined.

(** ** The string cleaning of the relation update handler *)

Lemma endswith_cons a s p :
  endswith (String a s) p
  = String.eqb (String a s) p || endswith s p.
Proof. done. Qed.

Lemma endswith_refl s : endswith s s = true.
Proof. destruct s; [done|]. by rewrite endswith_cons, String.eqb_refl. Qed.

Lemma endswith_app s q : endswith (s +:+ q) q = true.
Proof.
  induction s as [|a s IH]; [apply endswith_refl|].
  change (String a s +:+ q) with (String a (s +:+ q)).
  rewrite endswith_cons, IH. apply orb_true_r.
Qed.

Lemma endswith_other s c c' :
  c ≠ c' → endswith (s +:+ String c "") (String c' "") = false.
Proof.
  intros Hc. induction s as [|a s IH].
  - change ("" +:+ String c "") with (String c ""). rewrite endswith_cons.
    cbn [endswith String.eqb]. by destruct (Ascii.eqb_spec c c').
  - change (String a s +:+ String c "") with (String a (s +:+ String c "")).
    rewrite endswith_cons, IH, orb_false_r.
    cbn [String.eqb]. destruct (Ascii.eqb a c'); [|done]. by destruct s.
Qed.

Lemma substring_prefix s t : String.substring 0 (String.length s) (s +:+ t) = s.
Proof.
  induction s as [|a s IH]; simpl.
  - by destruct t.
  - by rewrite IH.
Qed.

Lemma length_snoc s c : String.length (s +:+ String c "") = S (String.length s).
Proof. induction s as [|a s IH]; simpl; by rewrite ?IH. Qed.

Lemma strip_ends_wrapped c s c' : kg_routes.strip_ends (String c (s +:+ String c' "")) = s.
Proof.
  unfold kg_routes.strip_ends. cbn [String.length]. rewrite length_snoc.
  simpl. rewrite Nat.sub_0_r. apply substring_prefix.
Qed.

Lemma startswith_cons c s : startswith (String c s) (String c "") = true.
Proof.
  unfold startswith. simpl.
  destruct (ascii_dec c c); [by destruct s|done].
Qed.

Lemma wrapped_in_dquotes s : kg_routes.wrapped_in_quotes (dquote +:+ s +:+ dquote) = true.
Proof.
  unfold kg_routes.wrapped_in_quotes.
  assert (startswith (dquote +:+ s +:+ dquote) dquote = true) as ->
    by exact (startswith_cons _ _).
  assert (endswith (dquote +:+ s +:+ dquote) dquote = true) as ->
    by exact (endswith_app (dquote +:+ s) dquote).
  done.
Qed.

Lemma wrapped_in_squotes s :
  kg_routes.wrapped_in_quotes (kg_routes.squote +:+ s +:+ kg_routes.squote) = true.
Proof.
  unfold kg_routes.wrapped_in_quotes.
  assert (startswith (kg_routes.squote +:+ s +:+ kg_routes.squote)
            kg_routes.squote = true) as ->
    by exact (startswith_cons _ _).
  assert (endswith (kg_routes.squote +:+ s +:+ kg_routes.squote)
            kg_routes.squote = true) as ->
    by exact (endswith_app (kg_routes.squote +:+ s) kg_routes.squote).
  apply orb_true_r.
Qed.

Lemma wrapped_in_mixed_quotes s :
  kg_routes.wrapped_in_quotes (dquote +:+ s +:+ kg_routes.squote) = false.
Proof.
  unfold kg_routes.wrapped_in_quotes.
  assert (endswith (dquote +:+ s +:+ kg_routes.squote) dquote = false) as ->.
  { apply (endswith_other (dquote +:+ s)). discriminate. }
  assert (startswith (dquote +:+ s +:+ kg_routes.squote) kg_routes.squote
          = false) as -> by done.
  by rewrite andb_false_r.
Qed.

(** X22: the string cleaning of the relation update handler removes one
    pair of quotes and no more.  A field whose value is a string wrapped
    in double quotes, or in single quotes, is replaced by the string
    without its first and last character, whatever the string between
    them is (so that a second pair of quotes inside stays); a string
    that opens with a double and closes with a single quote, a value
    that is not a string and a field that is absent are left as they
    are. *)
Theorem clean_field_strips_quotes (d : attrs) field :
  (∀ s, d !! field = Some (VStr (dquote +:+ s +:+ dquote)) →
        kg_routes.clean_field d field = <[field := VStr s]> d)
  ∧ (∀ s, d !! field = Some (VStr (kg_routes.squote +:+ s +:+ kg_routes.squote)) →
          kg_routes.clean_field d field = <[field := VStr s]> d)
  ∧ (∀ s, d !! field = Some (VStr (dquote +:+ s +:+ kg_routes.squote)) →
          kg_routes.clean_field d field = d)
  ∧ (∀ v, d !! field = Some v → is_str v = false → kg_routes.clean_field d field = d)
  ∧ (d !! field = None → kg_routes.clean_field d field = d).
Proof.
  unfold kg_routes.clean_field.
  split; [|split; [|split; [|split]]].
  - intros s ->. rewrite wrapped_in_dquotes. do 2 f_equal. apply strip_ends_wrapped.
  - intros s ->. rewrite wrapped_in_squotes. do 2 f_equal. apply strip_ends_wrapped.
  - intros s ->. by rewrite wrapped_in_mixed_quotes.
  - intros v -> Hv. by destruct v.
  - by intros ->.
Qed.

(** X22, on a value in double quotes. *)
Lemma clean_field_strips_quotes_witness :
  let d : attrs := {["keywords" := VStr (dquote +:+ "order, rank" +:+ dquote)]} in
  kg_routes.clean_field d "keywords" = <["keywords" := VStr "order, rank"]> d.
Proof.
  intros d.
  apply (proj1 (clean_field_strips_quotes d "keywords")).
  reflexivity.
Defined.

(** ** The authorization of the retrieval route *)

Lemma prefix_nil s : String.prefix "" s = true.
Proof. by destruct s. Qed.

Lemma substring_of_cons old c s :
  substring_of old (String c s) = String.prefix old (String c s) || substring_of old s.
Proof. done. Qed.

Lemma replace_from_cons old new c s :
  replace_from old new 0 (String c s)
  = if String.prefix old (String c s)
    then new +:+ replace_from old new (String.length old - 1) s
    else String c (replace_from old new 0 s).
Proof. done. Qed.

Lemma replace_from_skip old new n c s :
  replace_from old new (S n) (String c s) = replace_from old new n s.
Proof. done. Qed.

(** A string in which [old] does not occur is left as it is. *)
Lemma replace_absent s old new : substring_of old s = false → replace s old new = s.
Proof.
  unfold replace. induction s as [|c s IH]; [done|].
  rewrite substring_of_cons, replace_from_cons.
  intros [-> Hs]%orb_false_iff. by rewrite IH.
Qed.

Lemma replace_bearer rest :
  replace ("Bearer " +:+ rest) "Bearer " "" = replace rest "Bearer " "".
Proof.
  unfold replace.
  change ("Bearer " +:+ rest) with (String "B" ("earer " +:+ rest)).
  rewrite replace_from_cons.
  assert (String.prefix "Bearer " (String "B" ("earer " +:+ rest)) = true) as ->.
  { simpl. apply prefix_nil. }
  done.
Qed.

Lemma startswith_bearer rest : startswith ("Bearer " +:+ rest) "Bearer " = true.
Proof. unfold startswith. simpl. apply prefix_nil. Qed.

Lemma split_cons c s sep :
  split (String c s) sep
  = if Ascii.eqb c sep then EmptyString :: split s sep
    else match split s sep with
         | part :: parts => String c part :: parts
         | [] => [String c EmptyString]
         end.
Proof. done. Qed.

Lemma comma_free_cons c s :
  substring_of "," (String c s) = false → Ascii.eqb c "," = false ∧ substring_of "," s = false.
Proof.
  rewrite substring_of_cons. intros [Hp Hs]%orb_false_iff. split; [|done].
  simpl in Hp. destruct (ascii_dec "," c) as [<-|N]; [by rewrite prefix_nil in Hp|].
  apply Ascii.eqb_neq. congruence.
Qed.

Lemma split_comma_free s : substring_of "," s = false → split s "," = [s].
Proof.
  induction s as [|c s IH]; [done|].
  intros [Hc Hs]%comma_free_cons. by rewrite split_cons, Hc, IH.
Qed.

Lemma split_app_comma s rest :
  substring_of "," s = false → split (s +:+ "," +:+ rest) "," = s :: split rest ",".
Proof.
  induction s as [|c s IH]; [done|].
  intros [Hc Hs]%comma_free_cons.
  change (String c s +:+ "," +:+ rest) with (String c (s +:+ "," +:+ rest)).
  by rewrite split_cons, Hc, IH.
Qed.

Lemma split_concat keys :
  keys ≠ [] → Forall (fun key => substring_of "," key = false) keys →
  split (String.concat "," keys) "," = keys.
Proof.
  induction keys as [|key keys IH]; [done|]. intros _ [Hk Hks]%Forall_cons.
  destruct keys as [|key' keys]; [by apply split_comma_free|].
  change (String.concat "," (key :: key' :: keys))
    with (key +:+ "," +:+ String.concat "," (key' :: keys)).
  rewrite split_app_comma by done. by rewrite IH.
Qed.

Lemma split_trailing_comma s :
  ∃ part parts, split (s +:+ ",") "," = part :: parts ++ [""].
Proof.
  induction s as [|c s (part & parts & IH)]; [by exists "", []|].
  change (String c s +:+ ",") with (String c (s +:+ ",")). rewrite split_cons, IH.
  destruct (Ascii.eqb c ",").
  - by exists "", (part :: parts).
  - by exists (String c part), parts.
Qed.

(** X23: the authorization check accepts the keys that are listed, and
    returns listed keys only.  When DIFY_API_KEYS is a comma-separated
    list of keys, the header made of the scheme and of a listed key (in
    which the scheme does not occur) is accepted, and the key is
    returned; a token that is returned is one of the comma-separated
    parts of DIFY_API_KEYS, from a header that starts with the scheme;
    and a header that does not start with the scheme is refused with
    status 403 and error code 1001, whatever the keys are. *)
Theorem verify_dify_auth_listed_keys :
  (∀ keys key,
     keys ≠ [] →
     Forall (fun key => substring_of "," key = false) keys →
     key ∈ keys →
     substring_of "Bearer " key = false →
     dify_routes.verify_dify_auth (Some (String.concat "," keys)) ("Bearer " +:+ key)
     = dify_routes.Token key)
  ∧ (∀ env authorization token,
       dify_routes.verify_dify_auth env authorization = dify_routes.Token token →
       startswith authorization "Bearer " = true
       ∧ token ∈ split (default "" env) ",")
  ∧ (∀ env authorization,
       startswith authorization "Bearer " = false →
       dify_routes.verify_dify_auth env authorization
       = dify_routes.HTTPException 403
           {| dify_routes.error_code := 1001;
              dify_routes.error_msg :=
                "Invalid Authorization header format. Expected 'Bearer' format." |}).
Proof.
  split; [|split].
  - intros keys key Hne Hkeys Hin Hkey. unfold dify_routes.verify_dify_auth.
    rewrite startswith_bearer, replace_bearer, replace_absent by done.
    cbn [negb default from_option id]. rewrite split_concat by done.
    by rewrite bool_decide_eq_true_2.
  - intros env authorization token. unfold dify_routes.verify_dify_auth.
    destruct (startswith authorization "Bearer "); [|discriminate].
    cbn [negb]. case_bool_decide; [|discriminate].
    intros E. injection E as <-. done.
  - intros env authorization Hs. unfold dify_routes.verify_dify_auth. by rewrite Hs.
Qed.

(** X23, for the keys alpha and beta: the header of beta is accepted. *)
Lemma verify_dify_auth_listed_keys_witness :
  dify_routes.verify_dify_auth (Some (String.concat "," ["alpha"; "beta"])) ("Bearer " +:+ "beta")
  = dify_routes.Token "beta".
Proof.
  apply (proj1 verify_dify_auth_listed_keys ["alpha"; "beta"] "beta");
    [discriminate|by repeat constructor|set_solver|reflexivity].
Defined.

(** X24: what the authorization check lets pass besides.  Every
    occurrence of the scheme is removed from the header, not the leading
    one alone, so that a header in which the scheme is repeated is judged
    as the header with the scheme once; and when DIFY_API_KEYS ends with
    a comma, its last part is the empty key, so that the header made of
    the scheme alone is accepted. *)
Theorem verify_dify_auth_lenient :
  (∀ env rest,
     dify_routes.verify_dify_auth env ("Bearer " +:+ "Bearer " +:+ rest)
     = dify_routes.verify_dify_auth env ("Bearer " +:+ rest))
  ∧ (∀ keys,
       dify_routes.verify_dify_auth (Some (keys +:+ ",")) "Bearer " = dify_routes.Token "").
Proof.
  split.
  - intros env rest. unfold dify_routes.verify_dify_auth.
    rewrite !startswith_bearer. by rewrite (replace_bearer ("Bearer " +:+ rest)).
  - intros keys. unfold dify_routes.verify_dify_auth.
    change (startswith "Bearer " "Bearer ") with true.
    change (replace "Bearer " "Bearer " "") with "".
    cbn [negb default from_option id].
    destruct (split_trailing_comma keys) as (part & parts & ->).
    rewrite bool_decide_eq_true_2; [done|].
    apply list_elem_of_further, elem_of_app. right. apply list_elem_of_here.
Qed.
